(** * esperopp front end: tokenizer (token.hpp) and parser (ast.hpp, parser.hpp)

    A shallow embedding of the tokenizer and of the recursive-descent parser,
    followed by the properties of the two that the specification states.

    Conventions of the embedding.
    - [std::string] is [string]; [char] is [ascii]; a [std::vector] is a [list]
      and [push_back] appends at the end.
    - [int] line and column counters are [Z]; overflowing them takes a source
      of more than 2^31-1 characters and is undefined behaviour in C++, so no
      wrap-around is written.
    - [size_t] cursors are [nat].
    - A C++ [while] loop is a [Fixpoint] on a fuel argument that answers
      [None] (tokenizer) or [OutOfFuel] (parser) when the fuel is used up; the
      theorems below show when the fuel is enough.
    - An exception is the result [Throw] carrying the [what()] text. *)

From Stdlib Require Import String Ascii List ZArith NArith Bool Lia.
From Stdlib Require Import DecimalString Sorted.
From Stdlib Require QArith_base.
Import ListNotations.

Set Warnings "-register-all".

Local Open Scope string_scope.
Local Open Scope list_scope.

(** ** Characters *)

Definition NUL : ascii := "000"%char.
Definition TAB : ascii := "009"%char.
Definition LF : ascii := "010"%char.
Definition DQUOTE : ascii := "034"%char.
Definition BACKSLASH : ascii := "092"%char.

Definition code (c : ascii) : N := N_of_ascii c.

(** [<cctype>] classification in the "C" locale; a [char] above 127 is in no
    class. *)
Definition isdigit (c : ascii) : bool :=
  ((48 <=? code c) && (code c <=? 57))%N.

Definition isalpha (c : ascii) : bool :=
  (((65 <=? code c) && (code c <=? 90)) || ((97 <=? code c) && (code c <=? 122)))%N.

Definition isalnum (c : ascii) : bool := isalpha c || isdigit c.

Definition isspace (c : ascii) : bool :=
  ((code c =? 32) || ((9 <=? code c) && (code c <=? 13)))%N.

(** [s += c] on a [std::string]. *)
Definition push_char (s : string) (c : ascii) : string :=
  s ++ String c EmptyString.

(** [std::string::contains(char)]. *)
Fixpoint contains (s : string) (c : ascii) : bool :=
  match s with
  | EmptyString => false
  | String a s' => Ascii.eqb a c || contains s' c
  end.

(** [std::to_string(int)]. *)
Definition to_string (n : Z) : string := NilZero.string_of_int (Z.to_int n).

(** ** Tokens (token.hpp) *)

Module TokenType.

Inductive t : Set :=
  | Number | String | Identifier
  | Funkcio | Klaso | Se | Alie | Dum | Reveni | Tiu | Vero | Malvero
  | Entjera | Reala | Teksta | Bulea | Funkcia
  | Plus | Minus | Multiply | Divide | Assign | Equal | NotEqual
  | Less | Greater | LessEqual | GreaterEqual
  | LParen | RParen | LBrace | RBrace | Semicolon | Comma | At | Dot
  | EndOfFile | Unknown.

(** [==] on the enumeration. *)
Definition eqb (a b : t) : bool :=
  match a, b with
  | Number, Number => true
  | String, String => true
  | Identifier, Identifier => true
  | Funkcio, Funkcio => true
  | Klaso, Klaso => true
  | Se, Se => true
  | Alie, Alie => true
  | Dum, Dum => true
  | Reveni, Reveni => true
  | Tiu, Tiu => true
  | Vero, Vero => true
  | Malvero, Malvero => true
  | Entjera, Entjera => true
  | Reala, Reala => true
  | Teksta, Teksta => true
  | Bulea, Bulea => true
  | Funkcia, Funkcia => true
  | Plus, Plus => true
  | Minus, Minus => true
  | Multiply, Multiply => true
  | Divide, Divide => true
  | Assign, Assign => true
  | Equal, Equal => true
  | NotEqual, NotEqual => true
  | Less, Less => true
  | Greater, Greater => true
  | LessEqual, LessEqual => true
  | GreaterEqual, GreaterEqual => true
  | LParen, LParen => true
  | RParen, RParen => true
  | LBrace, LBrace => true
  | RBrace, RBrace => true
  | Semicolon, Semicolon => true
  | Comma, Comma => true
  | At, At => true
  | Dot, Dot => true
  | EndOfFile, EndOfFile => true
  | Unknown, Unknown => true
  | _, _ => false
  end.

End TokenType.

Record Token : Set := mkToken {
  type : TokenType.t;
  value : string;
  line : Z;
  column : Z
}.

(** The keyword table [Id2TokenType], a [std::map] read with [contains] and
    [at]. *)
Definition Id2TokenType : list (string * TokenType.t) :=
  [ ("funkcio", TokenType.Funkcio);
    ("klaso", TokenType.Klaso);
    ("se", TokenType.Se);
    ("alie", TokenType.Alie);
    ("dum", TokenType.Dum);
    ("reveni", TokenType.Reveni);
    ("tiu", TokenType.Tiu);
    ("vero", TokenType.Vero);
    ("malvero", TokenType.Malvero);
    ("entjera", TokenType.Entjera);
    ("reala", TokenType.Reala);
    ("teksta", TokenType.Teksta);
    ("bulea", TokenType.Bulea);
    ("funkcia", TokenType.Funkcia) ].

Fixpoint map_find {V : Type} (m : list (string * V)) (k : string) : option V :=
  match m with
  | [] => None
  | (k', v) :: m' => if String.eqb k' k then Some v else map_find m' k
  end.

(** ** The tokenizer *)

Module Tokenizer.

Record t : Set := mk {
  m_source : string;
  m_position : nat;
  m_line : Z;
  m_column : Z
}.

(** The constructor [Tokenizer(src)]. *)
Definition init (src : string) : t :=
  {| m_source := src; m_position := 0; m_line := 1; m_column := 0 |}.

Definition current (s : t) : ascii :=
  match String.get (m_position s) (m_source s) with
  | Some c => c
  | None => NUL
  end.

Definition peek (offset : nat) (s : t) : ascii :=
  match String.get (m_position s + offset) (m_source s) with
  | Some c => c
  | None => NUL
  end.

Definition advance (s : t) : t :=
  if Ascii.eqb (current s) LF then
    {| m_source := m_source s; m_position := S (m_position s);
       m_line := m_line s + 1; m_column := 0 |}
  else
    {| m_source := m_source s; m_position := S (m_position s);
       m_line := m_line s; m_column := m_column s + 1 |}.

Fixpoint skipWhitespace_loop (fuel : nat) (isWhitespace : bool) (s : t)
  : option (bool * t) :=
  match fuel with
  | O => None
  | S fuel' =>
      if isspace (current s) then skipWhitespace_loop fuel' true (advance s)
      else Some (isWhitespace, s)
  end.

Definition skipWhitespace (fuel : nat) (s : t) : option (bool * t) :=
  skipWhitespace_loop fuel false s.

Fixpoint skipComment_loop (fuel : nat) (isComment : bool) (s : t)
  : option (bool * t) :=
  match fuel with
  | O => None
  | S fuel' =>
      if negb (Ascii.eqb (current s) LF || Ascii.eqb (current s) NUL)
      then skipComment_loop fuel' true (advance s)
      else Some (isComment, s)
  end.

Definition skipComment (fuel : nat) (s : t) : option (bool * t) :=
  if Ascii.eqb (current s) "/" && Ascii.eqb (peek 1 s) "/"
  then skipComment_loop fuel false s
  else Some (false, s).

Fixpoint readNumber_loop (fuel : nat) (number : string) (isFloat : bool) (s : t)
  : option (string * t) :=
  match fuel with
  | O => None
  | S fuel' =>
      if isdigit (current s) || Ascii.eqb (current s) "." then
        if Ascii.eqb (current s) "." then
          if isFloat then Some (number, s)
          else readNumber_loop fuel' (push_char number (current s)) true (advance s)
        else readNumber_loop fuel' (push_char number (current s)) isFloat (advance s)
      else Some (number, s)
  end.

Definition readNumber (fuel : nat) (s : t) : option (Token * t) :=
  let startColumn := m_column s in
  match readNumber_loop fuel EmptyString false s with
  | Some (number, s') =>
      Some (mkToken TokenType.Number number (m_line s') startColumn, s')
  | None => None
  end.

(** The [switch] on the character after a backslash. *)
Definition escape (c : ascii) : ascii :=
  if Ascii.eqb c "n" then LF
  else if Ascii.eqb c "t" then TAB
  else if Ascii.eqb c BACKSLASH then BACKSLASH
  else if Ascii.eqb c DQUOTE then DQUOTE
  else c.

Fixpoint readString_loop (fuel : nat) (str : string) (s : t)
  : option (string * t) :=
  match fuel with
  | O => None
  | S fuel' =>
      if negb (Ascii.eqb (current s) DQUOTE || Ascii.eqb (current s) NUL) then
        if Ascii.eqb (current s) BACKSLASH then
          let s1 := advance s in
          readString_loop fuel' (push_char str (escape (current s1))) (advance s1)
        else
          readString_loop fuel' (push_char str (current s)) (advance s)
      else Some (str, s)
  end.

Definition readString (fuel : nat) (s : t) : option (Token * t) :=
  let startColumn := m_column s in
  match readString_loop fuel EmptyString (advance s) with
  | Some (str, s1) =>
      let s2 := if Ascii.eqb (current s1) DQUOTE then advance s1 else s1 in
      Some (mkToken TokenType.String str (m_line s2) startColumn, s2)
  | None => None
  end.

Fixpoint readIdentifier_loop (fuel : nat) (id : string) (s : t)
  : option (string * t) :=
  match fuel with
  | O => None
  | S fuel' =>
      if isalnum (current s) || Ascii.eqb (current s) "_"
      then readIdentifier_loop fuel' (push_char id (current s)) (advance s)
      else Some (id, s)
  end.

Definition readIdentifier (fuel : nat) (s : t) : option (Token * t) :=
  let startColumn := m_column s in
  match readIdentifier_loop fuel EmptyString s with
  | Some (id, s') =>
      let type :=
        match map_find Id2TokenType id with
        | Some ty => ty
        | None => TokenType.Identifier
        end in
      Some (mkToken type id (m_line s') startColumn, s')
  | None => None
  end.

(** The [switch (current())] of [tokenize]: the kind, the text, and the cursor,
    which has moved when the operator has two characters. *)
Definition punctuation (s : t) : TokenType.t * string * t :=
  let c := current s in
  let value := String c EmptyString in
  let two (yes : TokenType.t) (text : string) (no : TokenType.t) :=
    if Ascii.eqb (peek 1 s) "=" then (yes, text, advance s) else (no, value, s) in
  if Ascii.eqb c "+" then (TokenType.Plus, value, s)
  else if Ascii.eqb c "-" then (TokenType.Minus, value, s)
  else if Ascii.eqb c "*" then (TokenType.Multiply, value, s)
  else if Ascii.eqb c "/" then (TokenType.Divide, value, s)
  else if Ascii.eqb c "(" then (TokenType.LParen, value, s)
  else if Ascii.eqb c ")" then (TokenType.RParen, value, s)
  else if Ascii.eqb c "{" then (TokenType.LBrace, value, s)
  else if Ascii.eqb c "}" then (TokenType.RBrace, value, s)
  else if Ascii.eqb c ";" then (TokenType.Semicolon, value, s)
  else if Ascii.eqb c "," then (TokenType.Comma, value, s)
  else if Ascii.eqb c "@" then (TokenType.At, value, s)
  else if Ascii.eqb c "." then (TokenType.Dot, value, s)
  else if Ascii.eqb c "=" then two TokenType.Equal "==" TokenType.Assign
  else if Ascii.eqb c "!" then two TokenType.NotEqual "!=" TokenType.Unknown
  else if Ascii.eqb c "<" then two TokenType.LessEqual "<=" TokenType.Less
  else if Ascii.eqb c ">" then two TokenType.GreaterEqual ">=" TokenType.Greater
  else (TokenType.Unknown, value, s).

(** One turn of the [while] loop of [tokenize]: the body, [continue]
    included. *)
Definition tokenize_body (fuel : nat) (tokens : list Token) (s : t)
  : option (list Token * t) :=
  match skipWhitespace fuel s with
  | None => None
  | Some (true, s1) => Some (tokens, s1)
  | Some (false, s1) =>
      match skipComment fuel s1 with
      | None => None
      | Some (true, s2) => Some (tokens, s2)
      | Some (false, s2) =>
          let startColumn := m_column s2 in
          if isdigit (current s2) then
            match readNumber fuel s2 with
            | Some (tok, s3) => Some (tokens ++ [tok], s3)
            | None => None
            end
          else if Ascii.eqb (current s2) DQUOTE then
            match readString fuel s2 with
            | Some (tok, s3) => Some (tokens ++ [tok], s3)
            | None => None
            end
          else if isalpha (current s2) || Ascii.eqb (current s2) "_" then
            match readIdentifier fuel s2 with
            | Some (tok, s3) => Some (tokens ++ [tok], s3)
            | None => None
            end
          else
            let '(type, value, s3) := punctuation s2 in
            Some (tokens ++ [mkToken type value (m_line s3) startColumn],
                  advance s3)
      end
  end.

Fixpoint tokenize_loop (fuel : nat) (tokens : list Token) (s : t)
  : option (list Token * t) :=
  match fuel with
  | O => None
  | S fuel' =>
      if negb (Ascii.eqb (current s) NUL) then
        match tokenize_body fuel' tokens s with
        | Some (tokens', s') => tokenize_loop fuel' tokens' s'
        | None => None
        end
      else Some (tokens, s)
  end.

(** [tokenize()] run with a given fuel. *)
Definition tokenize_fuel (fuel : nat) (src : string) : option (list Token) :=
  match tokenize_loop fuel [] (init src) with
  | Some (tokens, s) =>
      Some (tokens ++ [mkToken TokenType.EndOfFile EmptyString (m_line s) (m_column s)])
  | None => None
  end.

(** [Tokenizer(src).tokenize()]; [tokenize_total] below shows that this fuel is
    always enough. *)
Definition tokenize (src : string) : option (list Token) :=
  tokenize_fuel (String.length src + 2) src.

End Tokenizer.

(** ** Types and syntax trees (ast.hpp) *)

Module TypeKind.

Inductive t : Set :=
  | Entjera | Reala | Teksta | Bulea | Funkcia | Klaso | Void.

End TypeKind.

(** [struct Type]; a null [shared_ptr] is [None]. *)
Inductive Type_ : Set :=
  mkType (kind : TypeKind.t) (returnType paramType : option Type_)
         (className : string).

(** The constructor [Type(TypeKind k)]. *)
Definition Type_of (k : TypeKind.t) : Type_ := mkType k None None EmptyString.

Module OpType.

Inductive t : Set :=
  | Add | Sub | Mul | Div | Eq | NEq | LT | GT | LE | GE.

End OpType.

(** A [double], as the exact rational it stands for. *)
Definition double : Set := QArith_base.Q.

(** The node classes.  [parseStatement] returns a [shared_ptr<ASTNode>] that is
    a statement node or, for an expression statement, the expression node
    itself: [Expr] is that upcast.  The [type] slot of [ExprNode] is never
    written by the parser and is left out.  The [double] of a number literal
    is the exact decimal value, a rational (see [stod]).  The fields of a
    [ClassDeclNode] hold [VarDeclNode]s and its methods [FunctionDeclNode]s. *)
Inductive ExprNode : Type :=
  | NumberLiteral (value : double) (isInteger : bool)
  | StringLiteral (value : string)
  | BoolLiteral (value : bool)
  | VarRefNode (name : string)
  | BinaryOpNode (op : OpType.t) (left right : ExprNode)
  | CallNode (function argument : ExprNode)
  | AtFunctionNode (paramName : string) (paramType returnType : Type_)
                   (body : list ASTNode)
  | MemberAccessNode (object : ExprNode) (member : string)
with ASTNode : Type :=
  | Expr (e : ExprNode)
  | VarDeclNode (name : string) (type : Type_) (initializer : option ExprNode)
  | AssignNode (name : string) (value : ExprNode)
  | FunctionDeclNode (name paramName : string) (paramType returnType : Type_)
                     (body : list ASTNode)
  | ReturnNode (value : ExprNode)
  | IfNode (condition : ExprNode) (thenBody elseBody : list ASTNode)
  | WhileNode (condition : ExprNode) (body : list ASTNode)
  | ClassDeclNode (name : string) (fields methods : list ASTNode).

Record ProgramNode : Type := mkProgram { statements : list ASTNode }.

(** Whether a class declaration occurs somewhere in a tree. *)
Fixpoint expr_has_class (e : ExprNode) : bool :=
  match e with
  | NumberLiteral _ _ | StringLiteral _ | BoolLiteral _ | VarRefNode _ => false
  | BinaryOpNode _ l r => expr_has_class l || expr_has_class r
  | CallNode f a => expr_has_class f || expr_has_class a
  | AtFunctionNode _ _ _ body => existsb node_has_class body
  | MemberAccessNode o _ => expr_has_class o
  end
with node_has_class (n : ASTNode) : bool :=
  match n with
  | Expr e => expr_has_class e
  | VarDeclNode _ _ None => false
  | VarDeclNode _ _ (Some e) => expr_has_class e
  | AssignNode _ v => expr_has_class v
  | FunctionDeclNode _ _ _ _ body => existsb node_has_class body
  | ReturnNode v => expr_has_class v
  | IfNode c th el =>
      expr_has_class c || existsb node_has_class th || existsb node_has_class el
  | WhileNode c body => expr_has_class c || existsb node_has_class body
  | ClassDeclNode _ _ _ => true
  end.

(** ** [std::stod] on the text of a number token

    The digits before and after an optional [.] are read and give the exact
    decimal value; with no digit at all [stod] throws [std::invalid_argument],
    here [None].  Rounding to a binary64, [std::out_of_range] (more than 308
    digits), and the signs, exponents and blanks that [stod] also accepts but
    the tokenizer never puts in a number are not part of the model. *)
Fixpoint read_digits (s : string) (acc : Z) (n : nat) : Z * nat * string :=
  match s with
  | String c s' =>
      if isdigit c
      then read_digits s' (10 * acc + Z.of_N (code c - 48)) (S n)
      else (acc, n, s)
  | EmptyString => (acc, n, s)
  end.

Definition stod (s : string) : option double :=
  let '(ip, ni, rest) := read_digits s 0 0 in
  match rest with
  | String "."%char rest' =>
      let '(v, nf, _) := read_digits rest' ip 0 in
      if (ni + nf =? 0)%nat then None
      else Some (QArith_base.Qmake v (Z.to_pos (10 ^ Z.of_nat nf)))
  | _ => if (ni =? 0)%nat then None else Some (QArith_base.Qmake ip 1)
  end.

(** ** The parser (parser.hpp) *)

Module Parser.

Record t : Set := mk {
  m_tokens : list Token;
  m_position : nat
}.

(** What a member function does to the parser: it returns, it throws, or the
    model has no fuel left.  The cursor is kept when an exception leaves, as
    the driver reads it then. *)
Inductive result (A : Type) : Type :=
  | Ok (a : A) (p : t)
  | Throw (what : string) (p : t)
  | OutOfFuel.

Arguments Ok {A} a p.
Arguments Throw {A} what p.
Arguments OutOfFuel {A}.

Definition M (A : Type) : Type := t -> result A.

Definition ret {A : Type} (a : A) : M A := fun p => Ok a p.

Definition bind {A B : Type} (m : M A) (k : A -> M B) : M B :=
  fun p =>
    match m p with
    | Ok a p' => k a p'
    | Throw w p' => Throw w p'
    | OutOfFuel => OutOfFuel
    end.

Definition throw {A : Type} (what : string) : M A := fun p => Throw what p.

Notation "x <- m ;; k" := (bind m (fun x => k))
  (at level 61, m at next level, right associativity).
Notation "m ;;; k" := (bind m (fun _ => k))
  (at level 61, right associativity).

(** [m_tokens[m_position]].  The cursor stays below [m_tokens.size()] as soon
    as there is a token; on an empty vector the C++ read is undefined, and the
    model answers an end-of-input token. *)
Definition current (p : t) : Token :=
  nth (m_position p) (m_tokens p)
      (mkToken TokenType.EndOfFile EmptyString 0 0).

Definition peek (offset : nat) (p : t) : Token :=
  nth (m_position p + offset) (m_tokens p) (last (m_tokens p) (current p)).

(** [m_tokens.size() - 1] is a [size_t] and wraps on an empty vector, where
    the cursor is undefined already; on [nat] it is 0 there. *)
Definition advance (p : t) : t :=
  if (m_position p <? List.length (m_tokens p) - 1)%nat
  then {| m_tokens := m_tokens p; m_position := S (m_position p) |}
  else p.

(** Monadic readers of the cursor. *)
Definition currentM : M Token := fun p => Ok (current p) p.
Definition advanceM : M unit := fun p => Ok tt (advance p).

Definition match_ (ty : TokenType.t) : M bool :=
  fun p =>
    if TokenType.eqb (type (current p)) ty then Ok true (advance p)
    else Ok false p.

Definition expect (ty : TokenType.t) (message : string) : M unit :=
  b <- match_ ty ;;
  if b then ret tt
  else
    tok <- currentM ;;
    throw (message ++ " at line " ++ to_string (line tok)).

Definition parseType : M Type_ :=
  tok <- currentM ;;
  advanceM ;;;
  match type tok with
  | TokenType.Entjera => ret (Type_of TypeKind.Entjera)
  | TokenType.Reala => ret (Type_of TypeKind.Reala)
  | TokenType.Teksta => ret (Type_of TypeKind.Teksta)
  | TokenType.Bulea => ret (Type_of TypeKind.Bulea)
  | TokenType.Funkcia => ret (Type_of TypeKind.Funkcia)
  | _ => throw "Expected type"
  end.

Definition is_type_keyword (ty : TokenType.t) : bool :=
  match ty with
  | TokenType.Entjera | TokenType.Reala | TokenType.Teksta
  | TokenType.Bulea | TokenType.Funkcia => true
  | _ => false
  end.

(** The operator tables of the three binary levels; [None] ends the loop. *)
Definition multiplicative_op (ty : TokenType.t) : option OpType.t :=
  match ty with
  | TokenType.Multiply => Some OpType.Mul
  | TokenType.Divide => Some OpType.Div
  | _ => None
  end.

Definition additive_op (ty : TokenType.t) : option OpType.t :=
  match ty with
  | TokenType.Plus => Some OpType.Add
  | TokenType.Minus => Some OpType.Sub
  | _ => None
  end.

Definition comparison_op (ty : TokenType.t) : option OpType.t :=
  match ty with
  | TokenType.Less => Some OpType.LT
  | TokenType.Greater => Some OpType.GT
  | TokenType.LessEqual => Some OpType.LE
  | TokenType.GreaterEqual => Some OpType.GE
  | TokenType.Equal => Some OpType.Eq
  | TokenType.NotEqual => Some OpType.NEq
  | _ => None
  end.

(** The grammar rules.  Every call and every turn of a loop takes one unit of
    fuel.  [parseBlock] is the loop
    [while (!match(RBrace)) body.push_back(parseStatement())] that the source
    writes out for each of its five bodies; the [_loop] functions are the
    [while] loops of the rules they are named after. *)
Fixpoint parsePrimary (fuel : nat) : M ExprNode :=
  match fuel with
  | O => fun _ => OutOfFuel
  | S f =>
      tok <- currentM ;;
      let type_ := type tok in
      if TokenType.eqb type_ TokenType.Number then
        match stod (value tok) with
        | None => throw "stod"
        | Some value_ =>
            let isInt := contains (value tok) "." in
            advanceM ;;;
            ret (NumberLiteral value_ isInt)
        end
      else if TokenType.eqb type_ TokenType.String then
        advanceM ;;;
        ret (StringLiteral (value tok))
      else if TokenType.eqb type_ TokenType.Vero then
        advanceM ;;;
        ret (BoolLiteral true)
      else if TokenType.eqb type_ TokenType.Malvero then
        advanceM ;;;
        ret (BoolLiteral false)
      else
        isAt <- match_ TokenType.At ;;
        if isAt then
          expect TokenType.LParen "Expected '(' after '@'" ;;;
          paramType <- parseType ;;
          paramTok <- currentM ;;
          expect TokenType.Identifier "Expected parameter name" ;;;
          expect TokenType.RParen "Expected ')'" ;;;
          returnType <- parseType ;;
          expect TokenType.LBrace "Expected '{'" ;;;
          body <- parseBlock f [] ;;
          ret (AtFunctionNode (value paramTok) paramType returnType body)
        else
          isParen <- match_ TokenType.LParen ;;
          if isParen then
            expr <- parseExpression f ;;
            expect TokenType.RParen "Expected ')'" ;;;
            ret expr
          else if TokenType.eqb type_ TokenType.Identifier
                  || TokenType.eqb type_ TokenType.Tiu then
            advanceM ;;;
            ret (VarRefNode (value tok))
          else throw "Unexpected token in expression"
  end

with parsePostfix (fuel : nat) : M ExprNode :=
  match fuel with
  | O => fun _ => OutOfFuel
  | S f =>
      expr <- parsePrimary f ;;
      parsePostfix_loop f expr
  end

with parsePostfix_loop (fuel : nat) (expr : ExprNode) : M ExprNode :=
  match fuel with
  | O => fun _ => OutOfFuel
  | S f =>
      isCall <- match_ TokenType.LParen ;;
      if isCall then
        arg <- parseExpression f ;;
        expect TokenType.RParen "Expected ')'" ;;;
        parsePostfix_loop f (CallNode expr arg)
      else
        isDot <- match_ TokenType.Dot ;;
        if isDot then
          memberTok <- currentM ;;
          expect TokenType.Identifier "Expected member name" ;;;
          parsePostfix_loop f (MemberAccessNode expr (value memberTok))
        else ret expr
  end

with parseMultiplicative (fuel : nat) : M ExprNode :=
  match fuel with
  | O => fun _ => OutOfFuel
  | S f =>
      left <- parsePostfix f ;;
      parseMultiplicative_loop f left
  end

with parseMultiplicative_loop (fuel : nat) (left : ExprNode) : M ExprNode :=
  match fuel with
  | O => fun _ => OutOfFuel
  | S f =>
      tok <- currentM ;;
      match multiplicative_op (type tok) with
      | Some op =>
          advanceM ;;;
          right <- parsePostfix f ;;
          parseMultiplicative_loop f (BinaryOpNode op left right)
      | None => ret left
      end
  end

with parseAdditive (fuel : nat) : M ExprNode :=
  match fuel with
  | O => fun _ => OutOfFuel
  | S f =>
      left <- parseMultiplicative f ;;
      parseAdditive_loop f left
  end

with parseAdditive_loop (fuel : nat) (left : ExprNode) : M ExprNode :=
  match fuel with
  | O => fun _ => OutOfFuel
  | S f =>
      tok <- currentM ;;
      match additive_op (type tok) with
      | Some op =>
          advanceM ;;;
          right <- parseMultiplicative f ;;
          parseAdditive_loop f (BinaryOpNode op left right)
      | None => ret left
      end
  end

with parseComparison (fuel : nat) : M ExprNode :=
  match fuel with
  | O => fun _ => OutOfFuel
  | S f =>
      left <- parseAdditive f ;;
      parseComparison_loop f left
  end

with parseComparison_loop (fuel : nat) (left : ExprNode) : M ExprNode :=
  match fuel with
  | O => fun _ => OutOfFuel
  | S f =>
      tok <- currentM ;;
      match comparison_op (type tok) with
      | Some op =>
          advanceM ;;;
          right <- parseAdditive f ;;
          parseComparison_loop f (BinaryOpNode op left right)
      | None => ret left
      end
  end

with parseExpression (fuel : nat) : M ExprNode :=
  match fuel with
  | O => fun _ => OutOfFuel
  | S f => parseComparison f
  end

with parseBlock (fuel : nat) (body : list ASTNode) : M (list ASTNode) :=
  match fuel with
  | O => fun _ => OutOfFuel
  | S f =>
      closed <- match_ TokenType.RBrace ;;
      if closed then ret body
      else
        stmt <- parseStatement f ;;
        parseBlock f (body ++ [stmt])
  end

with parseStatement (fuel : nat) : M ASTNode :=
  match fuel with
  | O => fun _ => OutOfFuel
  | S f =>
      tok <- currentM ;;
      if is_type_keyword (type tok) then
        typeVariable <- parseType ;;
        nameTok <- currentM ;;
        expect TokenType.Identifier "Expected variable name" ;;;
        hasInit <- match_ TokenType.Assign ;;
        init <- (if hasInit
                 then e <- parseExpression f ;; ret (Some e)
                 else ret None) ;;
        expect TokenType.Semicolon "Expected ';'" ;;;
        ret (VarDeclNode (value nameTok) typeVariable init)
      else
      isFunkcio <- match_ TokenType.Funkcio ;;
      if isFunkcio then
        nameTok <- currentM ;;
        expect TokenType.Identifier "Expected function name" ;;;
        expect TokenType.LParen "Expected '('" ;;;
        paramType <- parseType ;;
        paramTok <- currentM ;;
        expect TokenType.Identifier "Expected parameter name" ;;;
        expect TokenType.RParen "Expected ')'" ;;;
        returnType <- parseType ;;
        expect TokenType.LBrace "Expected '{'" ;;;
        body <- parseBlock f [] ;;
        ret (FunctionDeclNode (value nameTok) (value paramTok)
                              paramType returnType body)
      else
      isReveni <- match_ TokenType.Reveni ;;
      if isReveni then
        value_ <- parseExpression f ;;
        expect TokenType.Semicolon "Expected ';'" ;;;
        ret (ReturnNode value_)
      else
      isSe <- match_ TokenType.Se ;;
      if isSe then
        expect TokenType.LParen "Expected '('" ;;;
        condition <- parseExpression f ;;
        expect TokenType.RParen "Expected ')'" ;;;
        expect TokenType.LBrace "Expected '{'" ;;;
        thenBody <- parseBlock f [] ;;
        hasElse <- match_ TokenType.Alie ;;
        elseBody <- (if hasElse
                     then expect TokenType.LBrace "Expected '{'" ;;;
                          parseBlock f []
                     else ret []) ;;
        ret (IfNode condition thenBody elseBody)
      else
      isDum <- match_ TokenType.Dum ;;
      if isDum then
        expect TokenType.LParen "Expected '('" ;;;
        condition <- parseExpression f ;;
        expect TokenType.RParen "Expected ')'" ;;;
        expect TokenType.LBrace "Expected '{" ;;;
        body <- parseBlock f [] ;;
        ret (WhileNode condition body)
      else
        expr <- parseExpression f ;;
        match expr with
        | VarRefNode name =>
            isAssign <- match_ TokenType.Assign ;;
            if isAssign then
              value_ <- parseExpression f ;;
              expect TokenType.Semicolon "Expected ';'" ;;;
              ret (AssignNode name value_)
            else
              expect TokenType.Semicolon "Expected ';'" ;;;
              ret (Expr expr)
        | _ =>
            expect TokenType.Semicolon "Expected ';'" ;;;
            ret (Expr expr)
        end
  end.

Fixpoint parse_loop (fuel : nat) (stmts : list ASTNode) : M (list ASTNode) :=
  match fuel with
  | O => fun _ => OutOfFuel
  | S f =>
      tok <- currentM ;;
      if negb (TokenType.eqb (type tok) TokenType.EndOfFile) then
        stmt <- parseStatement f ;;
        parse_loop f (stmts ++ [stmt])
      else ret stmts
  end.

(** [Parser(tokens)]. *)
Definition init (tokens : list Token) : t :=
  {| m_tokens := tokens; m_position := 0 |}.

(** [parse()]. *)
Definition parse (fuel : nat) : M ProgramNode :=
  stmts <- parse_loop fuel [] ;;
  ret (mkProgram stmts).

End Parser.

(** The driver's pipeline: [Parser(Tokenizer(src).tokenize()).parse()]. *)
Definition parse_source (fuel : nat) (src : string) : Parser.result ProgramNode :=
  match Tokenizer.tokenize src with
  | Some tokens => Parser.parse fuel (Parser.init tokens)
  | None => Parser.OutOfFuel
  end.

(** A grammar rule run on the tokens of a text. *)
Definition run_source {A : Type} (rule : Parser.M A) (src : string)
  : Parser.result A :=
  match Tokenizer.tokenize src with
  | Some tokens => rule (Parser.init tokens)
  | None => Parser.OutOfFuel
  end.

(** ** Notions used to state the properties *)

(** The characters the tokenizer's cursor has still to read. *)
Definition remaining (s : Tokenizer.t) : nat :=
  String.length (Tokenizer.m_source s) - Tokenizer.m_position s.

(** [moved s s'] : same text, cursor not moved back; [moved_on] : cursor moved
    by one character at least. *)
Definition moved (s s' : Tokenizer.t) : Prop :=
  Tokenizer.m_source s' = Tokenizer.m_source s /\
  Tokenizer.m_position s <= Tokenizer.m_position s'.

Definition moved_on (s s' : Tokenizer.t) : Prop :=
  Tokenizer.m_source s' = Tokenizer.m_source s /\
  Tokenizer.m_position s < Tokenizer.m_position s'.

(** [reads s text] : the cursor of [s] stands in front of [text], the rest of
    the source. *)
Definition reads (s : Tokenizer.t) (text : string) : Prop :=
  exists pre : string,
    Tokenizer.m_source s = (pre ++ text)%string /\
    Tokenizer.m_position s = String.length pre.

(** Every character of a text satisfies a test. *)
Fixpoint all_chars (f : ascii -> bool) (text : string) : bool :=
  match text with
  | EmptyString => true
  | String c text' => f c && all_chars f text'
  end.

(** The line and column a cursor that starts at line [l], column [c] has
    after it has gone over [text]. *)
Fixpoint cursor_after (text : string) (l c : Z) : Z * Z :=
  match text with
  | EmptyString => (l, c)
  | String a text' =>
      if Ascii.eqb a LF then cursor_after text' (l + 1) 0
      else cursor_after text' l (c + 1)
  end.

(** [le_res r r'] : the result [r] is [r'], unless the fuel ran out before
    [r] was known; [le_M] is the same for two runs of a rule from every
    cursor. *)
Definition le_res {A : Type} (r r' : Parser.result A) : Prop :=
  r = Parser.OutOfFuel \/ r = r'.

Definition le_M {A : Type} (m m' : Parser.M A) : Prop :=
  forall p, le_res (m p) (m' p).

(** [returns P m] : whenever the rule [m] returns, what it returns
    satisfies [P]. *)
Definition returns {A : Type} (P : A -> Prop) (m : Parser.M A) : Prop :=
  forall p a p', m p = Parser.Ok a p' -> P a.

(** The kinds of token a primary expression starts with. *)
Definition starts_primary (ty : TokenType.t) : bool :=
  match ty with
  | TokenType.Number | TokenType.String | TokenType.Vero | TokenType.Malvero
  | TokenType.At | TokenType.LParen | TokenType.Identifier | TokenType.Tiu => true
  | _ => false
  end.

(** No class declaration in an expression, a node, a list of nodes, an
    optional initializer. *)
Definition no_class_e (e : ExprNode) : Prop := expr_has_class e = false.
Definition no_class_n (n : ASTNode) : Prop := node_has_class n = false.
Definition no_class_l (l : list ASTNode) : Prop :=
  existsb node_has_class l = false.
Definition no_class_o (o : option ExprNode) : Prop :=
  match o with Some e => no_class_e e | None => True end.

(** One more unit of fuel, for all the rules at once. *)
Definition rules_step (f : nat) : Prop :=
  le_M (Parser.parsePrimary f) (Parser.parsePrimary (S f)) /\
  le_M (Parser.parsePostfix f) (Parser.parsePostfix (S f)) /\
  (forall e, le_M (Parser.parsePostfix_loop f e) (Parser.parsePostfix_loop (S f) e)) /\
  le_M (Parser.parseMultiplicative f) (Parser.parseMultiplicative (S f)) /\
  (forall e, le_M (Parser.parseMultiplicative_loop f e) (Parser.parseMultiplicative_loop (S f) e)) /\
  le_M (Parser.parseAdditive f) (Parser.parseAdditive (S f)) /\
  (forall e, le_M (Parser.parseAdditive_loop f e) (Parser.parseAdditive_loop (S f) e)) /\
  le_M (Parser.parseComparison f) (Parser.parseComparison (S f)) /\
  (forall e, le_M (Parser.parseComparison_loop f e) (Parser.parseComparison_loop (S f) e)) /\
  le_M (Parser.parseExpression f) (Parser.parseExpression (S f)) /\
  (forall b, le_M (Parser.parseBlock f b) (Parser.parseBlock (S f) b)) /\
  le_M (Parser.parseStatement f) (Parser.parseStatement (S f)).


(** What every rule returns is free of class declarations. *)
Definition rules_no_class (f : nat) : Prop :=
  returns no_class_e (Parser.parsePrimary f) /\
  returns no_class_e (Parser.parsePostfix f) /\
  (forall e, no_class_e e -> returns no_class_e (Parser.parsePostfix_loop f e)) /\
  returns no_class_e (Parser.parseMultiplicative f) /\
  (forall e, no_class_e e ->
             returns no_class_e (Parser.parseMultiplicative_loop f e)) /\
  returns no_class_e (Parser.parseAdditive f) /\
  (forall e, no_class_e e -> returns no_class_e (Parser.parseAdditive_loop f e)) /\
  returns no_class_e (Parser.parseComparison f) /\
  (forall e, no_class_e e -> returns no_class_e (Parser.parseComparison_loop f e)) /\
  returns no_class_e (Parser.parseExpression f) /\
  (forall b, no_class_l b -> returns no_class_l (Parser.parseBlock f b)) /\
  returns no_class_n (Parser.parseStatement f).

(** What the caller of a rule sees: the value returned or the [what()] of the
    exception, without the cursor. *)
Inductive outcome (A : Type) : Type :=
  | Returned (a : A)
  | Thrown (what : string)
  | NoFuel.

Arguments Returned {A} a.
Arguments Thrown {A} what.
Arguments NoFuel {A}.

Definition outcome_of {A : Type} (r : Parser.result A) : outcome A :=
  match r with
  | Parser.Ok a _ => Returned a
  | Parser.Throw w _ => Thrown w
  | Parser.OutOfFuel => NoFuel
  end.

(** The tokens of [a op1 b op2 c] for three names and two operator kinds,
    closed by the end-of-input token. *)
Definition infix_tokens (a : string) (op1 : TokenType.t) (b : string)
           (op2 : TokenType.t) (c : string) : list Token :=
  [ mkToken TokenType.Identifier a 1 0;
    mkToken op1 EmptyString 1 0;
    mkToken TokenType.Identifier b 1 0;
    mkToken op2 EmptyString 1 0;
    mkToken TokenType.Identifier c 1 0;
    mkToken TokenType.EndOfFile EmptyString 1 0 ].

(** The binary level of an operator token, from the three tables of the
    parser: 1 for a comparison, 2 for an additive, 3 for a multiplicative
    operator, with the operator of the node built. *)
Definition binary_level (ty : TokenType.t) : option (nat * OpType.t) :=
  match Parser.comparison_op ty, Parser.additive_op ty, Parser.multiplicative_op ty with
  | Some op, _, _ => Some (1, op)
  | None, Some op, _ => Some (2, op)
  | None, None, Some op => Some (3, op)
  | None, None, None => None
  end.

(** ** The accessors of the parser, and notions about its cursor *)

(** [getCurrentPosition()] and [getCurrentToken()], which the driver calls
    after a parse failure. *)
Definition getCurrentPosition (p : Parser.t) : nat := Parser.m_position p.

Definition getCurrentToken (p : Parser.t) : Token := Parser.current p.

(** [cursor_kept p p'] : from [p] to [p'] the tokens are the same, the cursor
    has not gone back, and it is below the number of tokens if it was. *)
Definition cursor_kept (p p' : Parser.t) : Prop :=
  Parser.m_tokens p' = Parser.m_tokens p /\
  Parser.m_position p <= Parser.m_position p' /\
  (Parser.m_position p < List.length (Parser.m_tokens p) ->
   Parser.m_position p' < List.length (Parser.m_tokens p)).

(** [keeps m] : the rule [m] keeps the cursor, whether it returns or
    throws. *)
Definition keeps {A : Type} (m : Parser.M A) : Prop :=
  forall p,
    match m p with
    | Parser.Ok _ p' | Parser.Throw _ p' => cursor_kept p p'
    | Parser.OutOfFuel => True
    end.

Definition rules_keep (f : nat) : Prop :=
  keeps (Parser.parsePrimary f) /\
  keeps (Parser.parsePostfix f) /\
  (forall e, keeps (Parser.parsePostfix_loop f e)) /\
  keeps (Parser.parseMultiplicative f) /\
  (forall e, keeps (Parser.parseMultiplicative_loop f e)) /\
  keeps (Parser.parseAdditive f) /\
  (forall e, keeps (Parser.parseAdditive_loop f e)) /\
  keeps (Parser.parseComparison f) /\
  (forall e, keeps (Parser.parseComparison_loop f e)) /\
  keeps (Parser.parseExpression f) /\
  (forall b, keeps (Parser.parseBlock f b)) /\
  keeps (Parser.parseStatement f).

(** The tokens left after the cursor, the last token not counted. *)
Definition tokens_left (p : Parser.t) : nat :=
  List.length (Parser.m_tokens p) - 1 - Parser.m_position p.

(** [before tokens r p] : [p] is a cursor on [tokens] with fewer than [r]
    tokens left. *)
Definition before (tokens : list Token) (r : nat) (p : Parser.t) : Prop :=
  Parser.m_tokens p = tokens /\
  Parser.m_position p < List.length tokens /\
  tokens_left p < r.

(** A vector of tokens closed by an end-of-input token. *)
Definition ends_with_eof (tokens : list Token) : Prop :=
  exists body eof,
    tokens = body ++ [eof] /\ type eof = TokenType.EndOfFile.

(** [runs P m Q] : from a cursor that satisfies [P] the rule [m] has fuel
    enough, and the cursor satisfies [Q] when it returns. *)
Definition runs {A : Type} (P : Parser.t -> Prop) (m : Parser.M A)
           (Q : A -> Parser.t -> Prop) : Prop :=
  forall p,
    P p ->
    match m p with
    | Parser.Ok a p' => Q a p'
    | Parser.Throw _ _ => True
    | Parser.OutOfFuel => False
    end.

(** Fuel enough for every rule: eight units for each token left and one for
    each rule between a statement and a primary expression.  A rule that
    returns has taken a token; a loop may take none. *)
Definition rules_run (tokens : list Token) (f : nat) : Prop :=
  (forall r, 8 * r + 1 <= f + 8 ->
     runs (before tokens r) (Parser.parsePrimary f)
          (fun _ => before tokens (r - 1))) /\
  (forall r, 8 * r + 2 <= f + 8 ->
     runs (before tokens r) (Parser.parsePostfix f)
          (fun _ => before tokens (r - 1))) /\
  (forall e r, 8 * r + 1 <= f + 8 ->
     runs (before tokens r) (Parser.parsePostfix_loop f e)
          (fun _ => before tokens r)) /\
  (forall r, 8 * r + 3 <= f + 8 ->
     runs (before tokens r) (Parser.parseMultiplicative f)
          (fun _ => before tokens (r - 1))) /\
  (forall e r, 8 * r + 1 <= f + 8 ->
     runs (before tokens r) (Parser.parseMultiplicative_loop f e)
          (fun _ => before tokens r)) /\
  (forall r, 8 * r + 4 <= f + 8 ->
     runs (before tokens r) (Parser.parseAdditive f)
          (fun _ => before tokens (r - 1))) /\
  (forall e r, 8 * r + 1 <= f + 8 ->
     runs (before tokens r) (Parser.parseAdditive_loop f e)
          (fun _ => before tokens r)) /\
  (forall r, 8 * r + 5 <= f + 8 ->
     runs (before tokens r) (Parser.parseComparison f)
          (fun _ => before tokens (r - 1))) /\
  (forall e r, 8 * r + 1 <= f + 8 ->
     runs (before tokens r) (Parser.parseComparison_loop f e)
          (fun _ => before tokens r)) /\
  (forall r, 8 * r + 6 <= f + 8 ->
     runs (before tokens r) (Parser.parseExpression f)
          (fun _ => before tokens (r - 1))) /\
  (forall b r, 8 * r <= f ->
     runs (before tokens r) (Parser.parseBlock f b)
          (fun _ => before tokens r)) /\
  (forall r, 8 * r + 7 <= f + 8 ->
     runs (before tokens r) (Parser.parseStatement f)
          (fun _ => before tokens (r - 1))).

(** A type as [parseType] builds it: one of the five keyword kinds, with no
    parameter type, no return type and no class name. *)
Definition plain_type (ty : Type_) : bool :=
  match ty with
  | mkType k None None EmptyString =>
      match k with
      | TypeKind.Entjera | TypeKind.Reala | TypeKind.Teksta
      | TypeKind.Bulea | TypeKind.Funkcia => true
      | _ => false
      end
  | _ => false
  end.

(** Every type written in a tree is plain. *)
Fixpoint expr_types_plain (e : ExprNode) : bool :=
  match e with
  | NumberLiteral _ _ | StringLiteral _ | BoolLiteral _ | VarRefNode _ => true
  | BinaryOpNode _ l r => expr_types_plain l && expr_types_plain r
  | CallNode f a => expr_types_plain f && expr_types_plain a
  | AtFunctionNode _ pt rt body =>
      plain_type pt && plain_type rt && forallb node_types_plain body
  | MemberAccessNode o _ => expr_types_plain o
  end
with node_types_plain (n : ASTNode) : bool :=
  match n with
  | Expr e => expr_types_plain e
  | VarDeclNode _ ty None => plain_type ty
  | VarDeclNode _ ty (Some e) => plain_type ty && expr_types_plain e
  | AssignNode _ v => expr_types_plain v
  | FunctionDeclNode _ _ pt rt body =>
      plain_type pt && plain_type rt && forallb node_types_plain body
  | ReturnNode v => expr_types_plain v
  | IfNode c th el =>
      expr_types_plain c && forallb node_types_plain th
      && forallb node_types_plain el
  | WhileNode c body => expr_types_plain c && forallb node_types_plain body
  | ClassDeclNode _ fields methods =>
      forallb node_types_plain fields && forallb node_types_plain methods
  end.

Definition plain_t (ty : Type_) : Prop := plain_type ty = true.
Definition plain_e (e : ExprNode) : Prop := expr_types_plain e = true.
Definition plain_n (n : ASTNode) : Prop := node_types_plain n = true.
Definition plain_l (l : list ASTNode) : Prop :=
  forallb node_types_plain l = true.
Definition plain_o (o : option ExprNode) : Prop :=
  match o with Some e => plain_e e | None => True end.

Definition rules_plain (f : nat) : Prop :=
  returns plain_e (Parser.parsePrimary f) /\
  returns plain_e (Parser.parsePostfix f) /\
  (forall e, plain_e e -> returns plain_e (Parser.parsePostfix_loop f e)) /\
  returns plain_e (Parser.parseMultiplicative f) /\
  (forall e, plain_e e -> returns plain_e (Parser.parseMultiplicative_loop f e)) /\
  returns plain_e (Parser.parseAdditive f) /\
  (forall e, plain_e e -> returns plain_e (Parser.parseAdditive_loop f e)) /\
  returns plain_e (Parser.parseComparison f) /\
  (forall e, plain_e e -> returns plain_e (Parser.parseComparison_loop f e)) /\
  returns plain_e (Parser.parseExpression f) /\
  (forall b, plain_l b -> returns plain_l (Parser.parseBlock f b)) /\
  returns plain_n (Parser.parseStatement f).

(** The kinds of the keyword table. *)
Definition is_keyword (ty : TokenType.t) : bool :=
  match ty with
  | TokenType.Funkcio | TokenType.Klaso | TokenType.Se | TokenType.Alie
  | TokenType.Dum | TokenType.Reveni | TokenType.Tiu | TokenType.Vero
  | TokenType.Malvero | TokenType.Entjera | TokenType.Reala | TokenType.Teksta
  | TokenType.Bulea | TokenType.Funkcia => true
  | _ => false
  end.

(** The tests of [readIdentifier] and of the main loop on a word, and the test
    of the loop of [skipComment]. *)
Definition word_start (c : ascii) : bool := isalpha c || Ascii.eqb c "_".
Definition word_char (c : ascii) : bool := isalnum c || Ascii.eqb c "_".
Definition comment_char (c : ascii) : bool :=
  negb (Ascii.eqb c LF || Ascii.eqb c NUL).

(** A text that is empty or starts with a character that fails a test. *)
Definition stops (f : ascii -> bool) (text : string) : Prop :=
  match text with
  | EmptyString => True
  | String c _ => f c = false
  end.

(** The kind that the keyword table gives a word. *)
Definition word_kind (word : string) : TokenType.t :=
  match map_find Id2TokenType word with
  | Some ty => ty
  | None => TokenType.Identifier
  end.

(** The four characters that start a one- or two-character operator, with the
    kind of the operator when [=] follows and when it does not. *)
Definition operator_kinds (c : ascii) : option (TokenType.t * TokenType.t) :=
  if Ascii.eqb c "=" then Some (TokenType.Equal, TokenType.Assign)
  else if Ascii.eqb c "!" then Some (TokenType.NotEqual, TokenType.Unknown)
  else if Ascii.eqb c "<" then Some (TokenType.LessEqual, TokenType.Less)
  else if Ascii.eqb c ">" then Some (TokenType.GreaterEqual, TokenType.Greater)
  else None.

(** The text that the body of a string literal stands for: a backslash and
    the character after it give the character of [escape], any other
    character but the quote and NUL gives itself.  [None] when the body has a
    bare quote or NUL, or ends with a backslash that has nothing after it. *)
Fixpoint decode (body : string) : option string :=
  match body with
  | EmptyString => Some EmptyString
  | String c body' =>
      if Ascii.eqb c BACKSLASH then
        match body' with
        | String x body'' =>
            match decode body'' with
            | Some v => Some (String (Tokenizer.escape x) v)
            | None => None
            end
        | EmptyString => None
        end
      else if Ascii.eqb c DQUOTE || Ascii.eqb c NUL then None
      else
        match decode body' with
        | Some v => Some (String c v)
        | None => None
        end
  end.

(** What may follow the body of a string literal: the closing quote, or the
    end of the text. *)
Definition closes (closing : string) : Prop :=
  match closing with
  | EmptyString => True
  | String c _ => c = DQUOTE
  end.

Definition after_closing (closing : string) : string :=
  match closing with
  | EmptyString => EmptyString
  | String _ rest => rest
  end.

(** The twelve characters that are a token by themselves. *)
Definition punctuation_kind (c : ascii) : option TokenType.t :=
  if Ascii.eqb c "+" then Some TokenType.Plus
  else if Ascii.eqb c "-" then Some TokenType.Minus
  else if Ascii.eqb c "*" then Some TokenType.Multiply
  else if Ascii.eqb c "/" then Some TokenType.Divide
  else if Ascii.eqb c "(" then Some TokenType.LParen
  else if Ascii.eqb c ")" then Some TokenType.RParen
  else if Ascii.eqb c "{" then Some TokenType.LBrace
  else if Ascii.eqb c "}" then Some TokenType.RBrace
  else if Ascii.eqb c ";" then Some TokenType.Semicolon
  else if Ascii.eqb c "," then Some TokenType.Comma
  else if Ascii.eqb c "@" then Some TokenType.At
  else if Ascii.eqb c "." then Some TokenType.Dot
  else None.

(** The test of the loop of [readNumber]. *)
Definition number_char (c : ascii) : bool := isdigit c || Ascii.eqb c ".".

(** ** [Type::createFunction], [Type::toString] and the name tables *)

Definition TypeKind_eqb (a b : TypeKind.t) : bool :=
  match a, b with
  | TypeKind.Entjera, TypeKind.Entjera => true
  | TypeKind.Reala, TypeKind.Reala => true
  | TypeKind.Teksta, TypeKind.Teksta => true
  | TypeKind.Bulea, TypeKind.Bulea => true
  | TypeKind.Funkcia, TypeKind.Funkcia => true
  | TypeKind.Klaso, TypeKind.Klaso => true
  | TypeKind.Void, TypeKind.Void => true
  | _, _ => false
  end.

(** The table [TypeKind2String], a [std::map] read with [at], which throws
    [std::out_of_range] on a key that is not there: [None]. *)
Definition TypeKind2String : list (TypeKind.t * string) :=
  [ (TypeKind.Entjera, "entjera");
    (TypeKind.Reala, "reala");
    (TypeKind.Teksta, "teksta");
    (TypeKind.Bulea, "bulea");
    (TypeKind.Funkcia, "funkcia");
    (TypeKind.Klaso, "klaso");
    (TypeKind.Void, "void") ].

Fixpoint at_ {K V : Type} (eqb : K -> K -> bool) (m : list (K * V)) (k : K)
  : option V :=
  match m with
  | [] => None
  | (k', v) :: m' => if eqb k' k then Some v else at_ eqb m' k
  end.

Definition createFunction (param ret : Type_) : Type_ :=
  mkType TypeKind.Funkcia (Some ret) (Some param) EmptyString.

(** [Type::toString()]; [None] when [at] throws. *)
Fixpoint Type_toString (ty : Type_) : option string :=
  match ty with
  | mkType kind returnType paramType className =>
      match TypeKind_eqb kind TypeKind.Funkcia, paramType, returnType with
      | true, Some param, Some ret =>
          match Type_toString param, Type_toString ret with
          | Some a, Some b => Some ("(" ++ a ++ " -> " ++ b ++ ")")%string
          | _, _ => None
          end
      | _, _, _ =>
          if TypeKind_eqb kind TypeKind.Klaso then Some className
          else at_ TypeKind_eqb TypeKind2String kind
      end
  end.

(** The table [TokenType2Stirng] that the formatter of [Token] reads with
    [at]. *)
Definition TokenType2Stirng : list (TokenType.t * string) :=
  [ (TokenType.Number, "Number");
    (TokenType.String, "String");
    (TokenType.Identifier, "Identifier");
    (TokenType.Funkcio, "Funkcio");
    (TokenType.Klaso, "Klaso");
    (TokenType.Se, "Se");
    (TokenType.Alie, "Alie");
    (TokenType.Dum, "Dum");
    (TokenType.Reveni, "Reveni");
    (TokenType.Tiu, "Tiu");
    (TokenType.Vero, "Vero");
    (TokenType.Malvero, "Malvero");
    (TokenType.Entjera, "Entjera");
    (TokenType.Reala, "Reala");
    (TokenType.Teksta, "Teksta");
    (TokenType.Bulea, "Bulea");
    (TokenType.Funkcia, "Funkcia");
    (TokenType.Plus, "Plus");
    (TokenType.Minus, "Minus");
    (TokenType.Multiply, "Multiply");
    (TokenType.Divide, "Divide");
    (TokenType.Assign, "Assign");
    (TokenType.Equal, "Equal");
    (TokenType.NotEqual, "NotEqual");
    (TokenType.Less, "Less");
    (TokenType.Greater, "Greater");
    (TokenType.LessEqual, "LessEqual");
    (TokenType.GreaterEqual, "GreaterEqual");
    (TokenType.LParen, "LParen");
    (TokenType.RParen, "RParen");
    (TokenType.LBrace, "LBrace");
    (TokenType.RBrace, "RBrace");
    (TokenType.Semicolon, "Semicolon");
    (TokenType.Comma, "Comma");
    (TokenType.At, "At");
    (TokenType.Dot, "Dot");
    (TokenType.EndOfFile, "EndOfFile");
    (TokenType.Unknown, "Unknown") ].

(** The formatter of [Token] with the specifications [%t] and [%v]: the name
    of the kind, and the text. *)
Definition format_t (token : Token) : option string :=
  at_ TokenType.eqb TokenType2Stirng (type token).

Definition format_v (token : Token) : option string := Some (value token).

(** A name with its first letter in lower case, to compare the names of the
    keyword kinds with the keywords. *)
Definition lower_first (name : string) : string :=
  match name with
  | EmptyString => EmptyString
  | String c name' =>
      String (if ((65 <=? code c) && (code c <=? 90))%N
              then ascii_of_N (code c + 32) else c) name'
  end.

(** A character that no rule of the main loop knows: no blank, digit, quote,
    letter, underscore, punctuation or operator character, and not NUL. *)
Definition unknown_char (c : ascii) : bool :=
  negb (isspace c || isdigit c || Ascii.eqb c DQUOTE || word_start c
        || Ascii.eqb c NUL)
  && match punctuation_kind c, operator_kinds c with
     | None, None => true
     | _, _ => false
     end.

(** * Properties of the tokenizer *)

Section TokenizerFacts.

Import Tokenizer.

Lemma get_Some_lt (n : nat) (src : string) (c : ascii) :
  String.get n src = Some c -> n < String.length src.
Proof.
  revert n; induction src as [|a src IH]; intros n H; simpl in *.
  - discriminate.
  - destruct n as [|n]; [lia|]. apply IH in H. lia.
Qed.

Lemma current_lt (s : t) :
  current s <> NUL -> m_position s < String.length (m_source s).
Proof.
  unfold current. destruct (String.get _ _) eqn:E.
  - intros _. eapply get_Some_lt; eauto.
  - intros H; now elim H.
Qed.

Lemma advance_source (s : t) : m_source (advance s) = m_source s.
Proof. unfold advance; destruct (Ascii.eqb _ _); reflexivity. Qed.

Lemma advance_position (s : t) : m_position (advance s) = S (m_position s).
Proof. unfold advance; destruct (Ascii.eqb _ _); reflexivity. Qed.

Lemma remaining_advance (s : t) :
  current s <> NUL -> S (remaining (advance s)) = remaining s.
Proof.
  intros H. apply current_lt in H. unfold remaining.
  rewrite advance_source, advance_position. lia.
Qed.

Lemma remaining_le (s s' : t) :
  m_source s' = m_source s -> m_position s <= m_position s' ->
  remaining s' <= remaining s.
Proof. unfold remaining; intros -> ?; lia. Qed.

Lemma isspace_not_NUL (c : ascii) : isspace c = true -> c <> NUL.
Proof. intros H ->; discriminate H. Qed.

Lemma isdigit_not_NUL (c : ascii) : isdigit c = true -> c <> NUL.
Proof. intros H ->; discriminate H. Qed.

Lemma eqb_NUL_false (c : ascii) : Ascii.eqb c NUL = false -> c <> NUL.
Proof. intros H ->; discriminate H. Qed.

(** ** Every inner loop comes back, with the cursor no further left *)

Lemma moved_refl (s : t) : moved s s.
Proof. split; [reflexivity | lia]. Qed.

Lemma moved_advance (s : t) : moved_on s (advance s).
Proof. split; [apply advance_source | rewrite advance_position; lia]. Qed.

Lemma moved_on_moved (s s' : t) : moved_on s s' -> moved s s'.
Proof. intros [? ?]; split; [assumption | lia]. Qed.

Lemma moved_trans (s1 s2 s3 : t) : moved s1 s2 -> moved s2 s3 -> moved s1 s3.
Proof. intros [E1 L1] [E2 L2]; split; [congruence | lia]. Qed.

Lemma moved_on_l (s1 s2 s3 : t) : moved_on s1 s2 -> moved s2 s3 -> moved_on s1 s3.
Proof. intros [E1 L1] [E2 L2]; split; [congruence | lia]. Qed.

Lemma skipWhitespace_loop_total (fuel : nat) :
  forall (b : bool) (s : t),
    remaining s < fuel ->
    exists b' s',
      skipWhitespace_loop fuel b s = Some (b', s') /\
      ((b' = b /\ s' = s) \/ (b' = true /\ moved_on s s')).
Proof.
  induction fuel as [|fuel IH]; intros b s Hr; [lia|].
  simpl. destruct (isspace (current s)) eqn:E.
  - apply isspace_not_NUL in E.
    destruct (IH true (advance s)) as (b' & s' & -> & Hs).
    { pose proof (remaining_advance s E). lia. }
    exists b', s'. split; [reflexivity|]. right.
    destruct Hs as [[-> ->] | [-> Hm]].
    + split; [reflexivity | apply moved_advance].
    + split; [reflexivity|].
      eapply moved_on_l; [apply moved_advance | now apply moved_on_moved].
  - exists b, s. split; [reflexivity | now left].
Qed.

Lemma skipComment_loop_total (fuel : nat) :
  forall (b : bool) (s : t),
    remaining s < fuel ->
    exists b' s',
      skipComment_loop fuel b s = Some (b', s') /\
      ((b' = b /\ s' = s) \/ (b' = true /\ moved_on s s')).
Proof.
  induction fuel as [|fuel IH]; intros b s Hr; [lia|].
  simpl.
  destruct (negb (Ascii.eqb (current s) LF || Ascii.eqb (current s) NUL)) eqn:E.
  - assert (Hn : current s <> NUL).
    { apply negb_true_iff, orb_false_iff in E. now apply eqb_NUL_false. }
    destruct (IH true (advance s)) as (b' & s' & -> & Hs).
    { pose proof (remaining_advance s Hn). lia. }
    exists b', s'. split; [reflexivity|]. right.
    destruct Hs as [[-> ->] | [-> Hm]].
    + split; [reflexivity | apply moved_advance].
    + split; [reflexivity|].
      eapply moved_on_l; [apply moved_advance | now apply moved_on_moved].
  - exists b, s. split; [reflexivity | now left].
Qed.

Lemma skipComment_total (fuel : nat) (s : t) :
  remaining s < fuel ->
  exists b' s',
    skipComment fuel s = Some (b', s') /\
    ((b' = false /\ s' = s) \/ (b' = true /\ moved_on s s')).
Proof.
  intros Hr. unfold skipComment.
  destruct (Ascii.eqb (current s) "/" && Ascii.eqb (peek 1 s) "/").
  - now apply skipComment_loop_total.
  - exists false, s. split; [reflexivity | now left].
Qed.

Lemma readNumber_loop_total (fuel : nat) :
  forall (number : string) (isFloat : bool) (s : t),
    remaining s < fuel ->
    exists number' s',
      readNumber_loop fuel number isFloat s = Some (number', s') /\ moved s s'.
Proof.
  induction fuel as [|fuel IH]; intros number isFloat s Hr; [lia|].
  simpl.
  assert (Hstep : forall n' fl,
    current s <> NUL ->
    exists number' s',
      readNumber_loop fuel n' fl (advance s) = Some (number', s') /\ moved s s').
  { intros n' fl Hn.
    destruct (IH n' fl (advance s)) as (number' & s' & -> & Hm).
    { pose proof (remaining_advance s Hn). lia. }
    exists number', s'. split; [reflexivity|].
    eapply moved_trans; [apply moved_on_moved, moved_advance | exact Hm]. }
  destruct (isdigit (current s)) eqn:Ed; simpl.
  - destruct (Ascii.eqb (current s) ".") eqn:Edot.
    + apply Ascii.eqb_eq in Edot. rewrite Edot in Ed. discriminate Ed.
    + apply Hstep. now apply isdigit_not_NUL.
  - destruct (Ascii.eqb (current s) ".") eqn:Edot.
    + destruct isFloat.
      * exists number, s. split; [reflexivity | apply moved_refl].
      * apply Hstep. apply Ascii.eqb_eq in Edot. rewrite Edot. discriminate.
    + exists number, s. split; [reflexivity | apply moved_refl].
Qed.

Lemma readString_loop_total (fuel : nat) :
  forall (str : string) (s : t),
    remaining s < fuel ->
    exists str' s',
      readString_loop fuel str s = Some (str', s') /\ moved s s'.
Proof.
  induction fuel as [|fuel IH]; intros str s Hr; [lia|].
  simpl.
  destruct (negb (Ascii.eqb (current s) DQUOTE || Ascii.eqb (current s) NUL)) eqn:E.
  - assert (Hn : current s <> NUL).
    { apply negb_true_iff, orb_false_iff in E. now apply eqb_NUL_false. }
    pose proof (remaining_advance s Hn) as Hra.
    destruct (Ascii.eqb (current s) BACKSLASH).
    + destruct (IH (push_char str (escape (current (advance s))))
                   (advance (advance s))) as (str' & s' & -> & Hm).
      { assert (Hle : remaining (advance (advance s)) <= remaining (advance s)).
        { apply remaining_le; [apply advance_source|].
          rewrite (advance_position (advance s)). lia. }
        lia. }
      exists str', s'. split; [reflexivity|].
      eapply moved_trans; [apply moved_on_moved, moved_advance|].
      eapply moved_trans; [apply moved_on_moved, moved_advance | exact Hm].
    + destruct (IH (push_char str (current s)) (advance s))
        as (str' & s' & -> & Hm); [lia|].
      exists str', s'. split; [reflexivity|].
      eapply moved_trans; [apply moved_on_moved, moved_advance | exact Hm].
  - exists str, s. split; [reflexivity | apply moved_refl].
Qed.

Lemma readIdentifier_loop_total (fuel : nat) :
  forall (id : string) (s : t),
    remaining s < fuel ->
    exists id' s',
      readIdentifier_loop fuel id s = Some (id', s') /\ moved s s'.
Proof.
  induction fuel as [|fuel IH]; intros id s Hr; [lia|].
  simpl.
  destruct (isalnum (current s) || Ascii.eqb (current s) "_") eqn:E.
  - assert (Hn : current s <> NUL).
    { intros Hc. rewrite Hc in E. discriminate E. }
    destruct (IH (push_char id (current s)) (advance s))
      as (id' & s' & -> & Hm).
    { pose proof (remaining_advance s Hn). lia. }
    exists id', s'. split; [reflexivity|].
    eapply moved_trans; [apply moved_on_moved, moved_advance | exact Hm].
  - exists id, s. split; [reflexivity | apply moved_refl].
Qed.

(** ** The text in front of the cursor *)

Lemma append_assoc_s (a b c : string) : ((a ++ b) ++ c = a ++ (b ++ c))%string.
Proof. induction a as [|x a IH]; simpl; [reflexivity | now rewrite IH]. Qed.

Lemma append_nil_r (a : string) : (a ++ EmptyString)%string = a.
Proof. induction a as [|x a IH]; simpl; [reflexivity | now rewrite IH]. Qed.

Lemma length_append_s (a b : string) :
  String.length (a ++ b)%string = String.length a + String.length b.
Proof. induction a as [|x a IH]; simpl; [reflexivity | now rewrite IH]. Qed.

Lemma get_append_length (pre text : string) :
  String.get (String.length pre) (pre ++ text)%string = String.get 0 text.
Proof. induction pre as [|x pre IH]; simpl; [reflexivity | exact IH]. Qed.

Lemma get_append_length_S (pre text : string) :
  String.get (String.length pre + 1) (pre ++ text)%string = String.get 1 text.
Proof. induction pre as [|x pre IH]; simpl; [reflexivity | exact IH]. Qed.

Lemma reads_init (src : string) : reads (init src) src.
Proof. exists EmptyString. split; reflexivity. Qed.

Lemma reads_current (s : t) (c : ascii) (text : string) :
  reads s (String c text) -> current s = c.
Proof.
  intros (pre & Hs & Hp). unfold current.
  now rewrite Hs, Hp, get_append_length.
Qed.

Lemma reads_current_end (s : t) : reads s EmptyString -> current s = NUL.
Proof.
  intros (pre & Hs & Hp). unfold current.
  now rewrite Hs, Hp, get_append_length.
Qed.

Lemma reads_peek (s : t) (c d : ascii) (text : string) :
  reads s (String c (String d text)) -> peek 1 s = d.
Proof.
  intros (pre & Hs & Hp). unfold peek.
  now rewrite Hs, Hp, get_append_length_S.
Qed.

Lemma reads_advance (s : t) (c : ascii) (text : string) :
  reads s (String c text) -> reads (advance s) text.
Proof.
  intros (pre & Hs & Hp). exists (pre ++ String c EmptyString)%string.
  rewrite advance_source, advance_position, Hs, Hp, append_assoc_s,
    length_append_s.
  split; [reflexivity | simpl; lia].
Qed.

Lemma reads_remaining (s : t) (text : string) :
  reads s text -> remaining s = String.length text.
Proof.
  intros (pre & Hs & Hp). unfold remaining.
  rewrite Hs, Hp, length_append_s. lia.
Qed.

Lemma advance_line_column (s : t) :
  (m_line (advance s), m_column (advance s)) =
  if Ascii.eqb (current s) LF then (m_line s + 1, 0)%Z
  else (m_line s, m_column s + 1)%Z.
Proof. unfold advance. destruct (Ascii.eqb (current s) LF); reflexivity. Qed.

Lemma advance_line (s : t) :
  Ascii.eqb (current s) LF = false ->
  m_line (advance s) = m_line s /\ m_column (advance s) = (m_column s + 1)%Z.
Proof. intros E. unfold advance. rewrite E. split; reflexivity. Qed.

(** A run of blanks that ends the text is skipped whole. *)
Lemma skipWhitespace_loop_run (ws : string) :
  all_chars isspace ws = true ->
  forall (fuel : nat) (b : bool) (s : t),
    reads s ws -> String.length ws < fuel ->
    exists s',
      skipWhitespace_loop fuel b s =
        Some (match ws with EmptyString => b | _ => true end, s') /\
      reads s' EmptyString /\
      (m_line s', m_column s') = cursor_after ws (m_line s) (m_column s).
Proof.
  induction ws as [|c ws IH]; intros Hall fuel b s Hs Hf;
    (destruct fuel as [|fuel]; [simpl in Hf; lia|]); simpl.
  - rewrite (reads_current_end s Hs). simpl. exists s. auto.
  - cbn [all_chars] in Hall. apply andb_true_iff in Hall as [Hc Hall].
    rewrite (reads_current s c ws Hs), Hc.
    destruct (IH Hall fuel true (advance s)) as (s' & E & Hr & Hpos).
    { eapply reads_advance; eauto. }
    { simpl in Hf. lia. }
    exists s'. split; [|split; [exact Hr|]].
    + rewrite E. now destruct ws.
    + rewrite Hpos. pose proof (advance_line_column s) as Ha.
      rewrite (reads_current s c ws Hs) in Ha.
      destruct (Ascii.eqb c LF); inversion Ha; reflexivity.
Qed.

(** A run of digits is read whole into the number. *)
Lemma readNumber_loop_digits (ds : string) :
  all_chars isdigit ds = true ->
  forall (s : t) (rest : string),
    reads s (ds ++ rest)%string ->
    exists s',
      reads s' rest /\ m_line s' = m_line s /\
      m_column s' = (m_column s + Z.of_nat (String.length ds))%Z /\
      forall fuel number isFloat,
        readNumber_loop (String.length ds + fuel) number isFloat s =
        readNumber_loop fuel (number ++ ds)%string isFloat s'.
Proof.
  induction ds as [|d ds IH]; intros Hall s rest Hs.
  - exists s. split; [exact Hs|]. split; [reflexivity|]. split; [simpl; lia|].
    intros. now rewrite append_nil_r.
  - cbn [all_chars] in Hall. apply andb_true_iff in Hall as [Hd Hall].
    simpl in Hs. pose proof (reads_current s d _ Hs) as Hc.
    assert (Hdot : Ascii.eqb d "." = false).
    { destruct (Ascii.eqb d ".") eqn:E; [|reflexivity].
      apply Ascii.eqb_eq in E. rewrite E in Hd. discriminate Hd. }
    assert (Hlf : Ascii.eqb (current s) LF = false).
    { rewrite Hc. destruct (Ascii.eqb d LF) eqn:E; [|reflexivity].
      apply Ascii.eqb_eq in E. rewrite E in Hd. discriminate Hd. }
    destruct (advance_line s Hlf) as [Hl Hcol].
    destruct (IH Hall (advance s) rest (reads_advance s d _ Hs))
      as (s' & Hr & Hl' & Hcol' & Hloop).
    exists s'. split; [exact Hr|]. split; [congruence|]. split.
    + rewrite Hcol', Hcol. simpl String.length. lia.
    + intros fuel number isFloat. simpl. rewrite Hc, Hd, Hdot. simpl.
      rewrite Hloop. unfold push_char. now rewrite append_assoc_s.
Qed.

(** [readNumber] on digits, a dot, digits and a second dot. *)
Lemma readNumber_two_dots (fuel : nat) (s : t) (ds1 ds2 rest : string) :
  all_chars isdigit ds1 = true -> all_chars isdigit ds2 = true ->
  reads s (ds1 ++ String "." (ds2 ++ String "." rest))%string ->
  String.length ds1 + String.length ds2 + 2 <= fuel ->
  exists s',
    readNumber fuel s =
      Some (mkToken TokenType.Number (ds1 ++ String "." ds2)%string
                    (m_line s) (m_column s), s') /\
    reads s' (String "." rest) /\ m_line s' = m_line s /\
    m_column s' =
      (m_column s + Z.of_nat (String.length ds1 + 1 + String.length ds2))%Z.
Proof.
  intros H1 H2 Hs Hf.
  destruct (readNumber_loop_digits ds1 H1 s _ Hs) as (s1 & Hr1 & Hl1 & Hc1 & Hloop1).
  pose proof (reads_current s1 _ _ Hr1) as Hcur1.
  assert (Hlf1 : Ascii.eqb (current s1) LF = false) by now rewrite Hcur1.
  destruct (advance_line s1 Hlf1) as [Hla Hca].
  destruct (readNumber_loop_digits ds2 H2 (advance s1) _ (reads_advance _ _ _ Hr1))
    as (s2 & Hr2 & Hl2 & Hc2 & Hloop2).
  pose proof (reads_current s2 _ _ Hr2) as Hcur2.
  exists s2. split; [|split; [exact Hr2|split; [congruence|lia]]].
  unfold readNumber.
  replace fuel with
    (String.length ds1 +
       S (String.length ds2 + S (fuel - String.length ds1 - String.length ds2 - 2)))
    by lia.
  rewrite Hloop1. cbn [readNumber_loop]. rewrite Hcur1. simpl.
  rewrite Hloop2. cbn [readNumber_loop]. rewrite Hcur2. simpl.
  unfold push_char. rewrite append_assoc_s. simpl. now rewrite Hl2, Hla, Hl1.
Qed.

(** The turn of the main loop on a dot. *)
Lemma tokenize_body_dot (fuel : nat) (tokens : list Token) (s : t) (rest : string) :
  reads s (String "." rest) -> 1 <= fuel ->
  tokenize_body fuel tokens s =
    Some (tokens ++ [mkToken TokenType.Dot "." (m_line s) (m_column s)],
          advance s).
Proof.
  intros Hs Hf. pose proof (reads_current s _ _ Hs) as Hc.
  destruct fuel as [|fuel]; [lia|].
  unfold tokenize_body, skipWhitespace, skipComment, punctuation.
  cbn [skipWhitespace_loop]. repeat (rewrite Hc; simpl). reflexivity.
Qed.

Lemma isdigit_facts (c : ascii) :
  isdigit c = true ->
  isspace c = false /\ Ascii.eqb c "/" = false /\ Ascii.eqb c NUL = false.
Proof.
  destruct c as [[] [] [] [] [] [] [] []]; intros H;
    first [discriminate H | repeat split].
Qed.

(** The turn of the main loop on digits, a dot, digits and a second dot. *)
Lemma tokenize_body_two_dots (fuel : nat) (tokens : list Token) (s : t)
      (d : ascii) (ds1 ds2 rest : string) :
  all_chars isdigit (String d ds1) = true -> all_chars isdigit ds2 = true ->
  reads s (String d ds1 ++ String "." (ds2 ++ String "." rest))%string ->
  String.length ds1 + String.length ds2 + 3 <= fuel ->
  exists s',
    tokenize_body fuel tokens s =
      Some (tokens ++ [mkToken TokenType.Number (String d ds1 ++ String "." ds2)%string
                               (m_line s) (m_column s)], s') /\
    reads s' (String "." rest) /\ m_line s' = m_line s /\
    m_column s' =
      (m_column s + Z.of_nat (String.length (String d ds1) + 1 + String.length ds2))%Z.
Proof.
  intros H1 H2 Hs Hf.
  destruct (readNumber_two_dots fuel s (String d ds1) ds2 rest H1 H2 Hs)
    as (s' & E & Hr & Hl & Hc).
  { simpl. lia. }
  exists s'. split; [|auto].
  pose proof (reads_current s d _ Hs) as Hcur.
  cbn [all_chars] in H1. apply andb_true_iff in H1 as [Hd _].
  destruct (isdigit_facts d Hd) as (Hsp & Hsl & _).
  destruct fuel as [|fuel]; [lia|].
  unfold tokenize_body, skipWhitespace, skipComment.
  cbn [skipWhitespace_loop]. rewrite Hcur, Hsp. cbv beta iota.
  rewrite Hcur, Hsl. cbv beta iota. cbn [andb]. cbv beta iota.
  rewrite Hcur, Hd, E. reflexivity.
Qed.

(** ** The three readers and the operator switch *)

Lemma readNumber_total (fuel : nat) (s : t) :
  isdigit (current s) = true -> remaining s < fuel ->
  exists tok s',
    readNumber fuel s = Some (tok, s') /\ moved_on s s' /\
    type tok = TokenType.Number.
Proof.
  intros Ed Hr. unfold readNumber.
  destruct fuel as [|fuel]; [lia|]. simpl. rewrite Ed. simpl.
  destruct (Ascii.eqb (current s) ".") eqn:Edot.
  { apply Ascii.eqb_eq in Edot. rewrite Edot in Ed. discriminate Ed. }
  apply isdigit_not_NUL in Ed.
  destruct (readNumber_loop_total fuel
              (push_char EmptyString (current s)) false (advance s))
    as (number & s' & -> & Hm).
  { pose proof (remaining_advance s Ed). lia. }
  eexists _, s'. split; [reflexivity|]. split; [|reflexivity].
  eapply moved_on_l; [apply moved_advance | exact Hm].
Qed.

Lemma readString_total (fuel : nat) (s : t) :
  current s <> NUL -> remaining s < fuel ->
  exists tok s',
    readString fuel s = Some (tok, s') /\ moved_on s s' /\
    type tok = TokenType.String.
Proof.
  intros Hn Hr. unfold readString.
  destruct (readString_loop_total fuel EmptyString (advance s))
    as (str & s1 & -> & Hm).
  { pose proof (remaining_advance s Hn). lia. }
  eexists _, _. split; [reflexivity|]. split; [|reflexivity].
  eapply moved_on_l; [apply moved_advance|].
  eapply moved_trans; [exact Hm|].
  destruct (Ascii.eqb (current s1) DQUOTE).
  - apply moved_on_moved, moved_advance.
  - apply moved_refl.
Qed.

Lemma Id2TokenType_not_eof (id : string) (ty : TokenType.t) :
  map_find Id2TokenType id = Some ty ->
  ty <> TokenType.EndOfFile /\ ty <> TokenType.Unknown.
Proof.
  unfold Id2TokenType, map_find.
  repeat match goal with
         | |- context [String.eqb ?a ?b] => destruct (String.eqb a b)
         end;
    intros H; inversion H; subst; split; discriminate.
Qed.

Lemma readIdentifier_total (fuel : nat) (s : t) :
  isalpha (current s) || Ascii.eqb (current s) "_" = true ->
  remaining s < fuel ->
  exists tok s',
    readIdentifier fuel s = Some (tok, s') /\ moved_on s s' /\
    type tok <> TokenType.EndOfFile /\ type tok <> TokenType.Unknown.
Proof.
  intros Ea Hr. unfold readIdentifier.
  destruct fuel as [|fuel]; [lia|]. cbn [readIdentifier_loop].
  assert (Eal : isalnum (current s) || Ascii.eqb (current s) "_" = true).
  { unfold isalnum. apply orb_true_iff in Ea. destruct Ea as [-> | ->].
    - reflexivity.
    - apply orb_true_r. }
  rewrite Eal.
  assert (Hn : current s <> NUL).
  { intros Hc. rewrite Hc in Ea. discriminate Ea. }
  destruct (readIdentifier_loop_total fuel
              (push_char EmptyString (current s)) (advance s))
    as (id & s' & -> & Hm).
  { pose proof (remaining_advance s Hn). lia. }
  eexists _, s'. split; [reflexivity|]. split.
  - eapply moved_on_l; [apply moved_advance | exact Hm].
  - cbn [type]. destruct (map_find Id2TokenType id) eqn:Ef.
    + now apply Id2TokenType_not_eof in Ef.
    + split; discriminate.
Qed.

Lemma punctuation_spec (s : t) :
  forall ty v s3,
    punctuation s = (ty, v, s3) ->
    ty <> TokenType.EndOfFile /\ moved s s3 /\ m_line s3 = m_line s /\
    (ty = TokenType.Unknown -> v = String (current s) EmptyString /\ s3 = s).
Proof.
  intros ty v s3. unfold punctuation.
  assert (Hadv : Ascii.eqb (current s) LF = false -> m_line (advance s) = m_line s).
  { intros E. unfold advance. now rewrite E. }
  repeat match goal with
         | |- context [if Ascii.eqb (current s) ?c then _ else _] =>
             let E := fresh "E" in
             destruct (Ascii.eqb (current s) c) eqn:E;
             [ apply Ascii.eqb_eq in E | ]
         end;
    try destruct (Ascii.eqb (peek 1 s) "=");
    intros H; inversion H; subst;
    (split; [discriminate|]);
    (split; [first [apply moved_refl | apply moved_on_moved, moved_advance]|]);
    (split; [first [reflexivity | apply Hadv;
                    match goal with E : current s = _ |- _ => rewrite E; reflexivity end]|]);
    intros Hu; first [discriminate Hu | split; reflexivity].
Qed.

(** ** One turn of the main loop, and the loop *)

Lemma tokenize_body_total (fuel : nat) (tokens : list Token) (s : t) :
  current s <> NUL -> remaining s < fuel ->
  exists tokens' s',
    tokenize_body fuel tokens s = Some (tokens', s') /\ moved_on s s' /\
    (tokens' = tokens \/
     exists tok, tokens' = tokens ++ [tok] /\ type tok <> TokenType.EndOfFile).
Proof.
  intros Hn Hr. unfold tokenize_body, skipWhitespace.
  destruct (skipWhitespace_loop_total fuel false s Hr)
    as (b & s1 & -> & [[-> ->] | [-> Hm]]).
  2: { exists tokens, s1. repeat split; try apply Hm. now left. }
  destruct (skipComment_total fuel s Hr)
    as (b & s2 & -> & [[-> ->] | [-> Hm]]).
  2: { exists tokens, s2. repeat split; try apply Hm. now left. }
  destruct (isdigit (current s)) eqn:Ed.
  { destruct (readNumber_total fuel s Ed Hr) as (tok & s' & -> & Hm & Ht).
    exists (tokens ++ [tok]), s'. split; [reflexivity|]. split; [exact Hm|].
    right. exists tok. split; [reflexivity|]. rewrite Ht. discriminate. }
  destruct (Ascii.eqb (current s) DQUOTE) eqn:Eq.
  { destruct (readString_total fuel s Hn Hr) as (tok & s' & -> & Hm & Ht).
    exists (tokens ++ [tok]), s'. split; [reflexivity|]. split; [exact Hm|].
    right. exists tok. split; [reflexivity|]. rewrite Ht. discriminate. }
  destruct (isalpha (current s) || Ascii.eqb (current s) "_") eqn:Ea.
  { destruct (readIdentifier_total fuel s Ea Hr) as (tok & s' & -> & Hm & Ht & _).
    exists (tokens ++ [tok]), s'. split; [reflexivity|]. split; [exact Hm|].
    right. exists tok. split; [reflexivity | exact Ht]. }
  destruct (punctuation s) as [[ty v] s3] eqn:Ep.
  destruct (punctuation_spec s ty v s3 Ep) as (Ht & Hm & _).
  eexists _, _. split; [reflexivity|]. split.
  - destruct Hm as [Hsrc Hpos]. split.
    + rewrite advance_source. exact Hsrc.
    + rewrite advance_position. lia.
  - right. eexists. split; [reflexivity | exact Ht].
Qed.

Lemma tokenize_loop_total (fuel : nat) :
  forall (tokens : list Token) (s : t),
    remaining s + 2 <= fuel ->
    exists tl s',
      tokenize_loop fuel tokens s = Some (tokens ++ tl, s') /\
      current s' = NUL /\ moved s s' /\
      Forall (fun tok => type tok <> TokenType.EndOfFile) tl.
Proof.
  induction fuel as [|fuel IH]; intros tokens s Hr; [lia|].
  simpl. destruct (Ascii.eqb (current s) NUL) eqn:E; simpl.
  - apply Ascii.eqb_eq in E. exists [], s. rewrite app_nil_r.
    split; [reflexivity|]. split; [exact E|]. split; [apply moved_refl|].
    constructor.
  - apply eqb_NUL_false in E.
    destruct (tokenize_body_total fuel tokens s E) as (tokens' & s1 & -> & Hm & Ht);
      [lia|].
    assert (Hr1 : remaining s1 + 2 <= fuel).
    { pose proof (current_lt s E). destruct Hm as [Hsrc Hpos].
      unfold remaining in *. rewrite Hsrc. lia. }
    destruct (IH tokens' s1 Hr1) as (tl & s' & -> & Hc & Hm' & Hf).
    apply moved_on_moved in Hm.
    destruct Ht as [-> | (tok & -> & Htok)].
    + exists tl, s'. split; [reflexivity|]. split; [exact Hc|].
      split; [eapply moved_trans; eauto | exact Hf].
    + exists (tok :: tl), s'. rewrite <- app_assoc. simpl.
      split; [reflexivity|]. split; [exact Hc|].
      split; [eapply moved_trans; eauto | now constructor].
Qed.

(** ** More fuel never changes a result *)

Ltac loop_mono IH :=
  let fuel' := fresh "fuel'" in
  let Hle := fresh "Hle" in
  let H := fresh "H" in
  intros fuel' Hle H;
  destruct fuel' as [|fuel']; [lia|];
  simpl in H |- *;
  repeat match goal with
         | |- context [if ?c then _ else _] => destruct c
         end;
  first [exact H | apply IH; [lia | exact H]].

Lemma skipWhitespace_loop_mono (fuel : nat) :
  forall b s r fuel',
    fuel <= fuel' -> skipWhitespace_loop fuel b s = Some r ->
    skipWhitespace_loop fuel' b s = Some r.
Proof.
  induction fuel as [|fuel IH]; intros b s r; [discriminate 2|]. loop_mono IH.
Qed.

Lemma skipComment_loop_mono (fuel : nat) :
  forall b s r fuel',
    fuel <= fuel' -> skipComment_loop fuel b s = Some r ->
    skipComment_loop fuel' b s = Some r.
Proof.
  induction fuel as [|fuel IH]; intros b s r; [discriminate 2|]. loop_mono IH.
Qed.

Lemma readNumber_loop_mono (fuel : nat) :
  forall n fl s r fuel',
    fuel <= fuel' -> readNumber_loop fuel n fl s = Some r ->
    readNumber_loop fuel' n fl s = Some r.
Proof.
  induction fuel as [|fuel IH]; intros n fl s r; [discriminate 2|]. loop_mono IH.
Qed.

Lemma readString_loop_mono (fuel : nat) :
  forall str s r fuel',
    fuel <= fuel' -> readString_loop fuel str s = Some r ->
    readString_loop fuel' str s = Some r.
Proof.
  induction fuel as [|fuel IH]; intros str s r; [discriminate 2|]. loop_mono IH.
Qed.

Lemma readIdentifier_loop_mono (fuel : nat) :
  forall id s r fuel',
    fuel <= fuel' -> readIdentifier_loop fuel id s = Some r ->
    readIdentifier_loop fuel' id s = Some r.
Proof.
  induction fuel as [|fuel IH]; intros id s r; [discriminate 2|]. loop_mono IH.
Qed.

Lemma tokenize_body_mono (fuel fuel' : nat) (tokens : list Token) (s : t) r :
  fuel <= fuel' -> tokenize_body fuel tokens s = Some r ->
  tokenize_body fuel' tokens s = Some r.
Proof.
  intros Hle. unfold tokenize_body, skipWhitespace, skipComment,
    readNumber, readString, readIdentifier.
  destruct (skipWhitespace_loop fuel false s) as [[b s1]|] eqn:E1; [|discriminate].
  rewrite (skipWhitespace_loop_mono _ _ _ _ _ Hle E1).
  destruct b; [trivial|].
  destruct (Ascii.eqb (current s1) "/" && Ascii.eqb (peek 1 s1) "/").
  - destruct (skipComment_loop fuel false s1) as [[b s2]|] eqn:E2; [|discriminate].
    rewrite (skipComment_loop_mono _ _ _ _ _ Hle E2).
    destruct b; [trivial|].
    destruct (isdigit (current s2)).
    { destruct (readNumber_loop fuel _ _ s2) as [[? ?]|] eqn:E3; [|discriminate].
      now rewrite (readNumber_loop_mono _ _ _ _ _ _ Hle E3). }
    destruct (Ascii.eqb (current s2) DQUOTE).
    { destruct (readString_loop fuel _ _) as [[? ?]|] eqn:E3; [|discriminate].
      now rewrite (readString_loop_mono _ _ _ _ _ Hle E3). }
    destruct (isalpha (current s2) || Ascii.eqb (current s2) "_"); [|trivial].
    destruct (readIdentifier_loop fuel _ _) as [[? ?]|] eqn:E3; [|discriminate].
    now rewrite (readIdentifier_loop_mono _ _ _ _ _ Hle E3).
  - destruct (isdigit (current s1)).
    { destruct (readNumber_loop fuel _ _ s1) as [[? ?]|] eqn:E3; [|discriminate].
      now rewrite (readNumber_loop_mono _ _ _ _ _ _ Hle E3). }
    destruct (Ascii.eqb (current s1) DQUOTE).
    { destruct (readString_loop fuel _ _) as [[? ?]|] eqn:E3; [|discriminate].
      now rewrite (readString_loop_mono _ _ _ _ _ Hle E3). }
    destruct (isalpha (current s1) || Ascii.eqb (current s1) "_"); [|trivial].
    destruct (readIdentifier_loop fuel _ _) as [[? ?]|] eqn:E3; [|discriminate].
    now rewrite (readIdentifier_loop_mono _ _ _ _ _ Hle E3).
Qed.

Lemma tokenize_loop_mono (fuel : nat) :
  forall tokens s r fuel',
    fuel <= fuel' -> tokenize_loop fuel tokens s = Some r ->
    tokenize_loop fuel' tokens s = Some r.
Proof.
  induction fuel as [|fuel IH]; intros tokens s r fuel' Hle H; [discriminate H|].
  destruct fuel' as [|fuel']; [lia|]. simpl in H |- *.
  destruct (negb (Ascii.eqb (current s) NUL)); [|exact H].
  destruct (tokenize_body fuel tokens s) as [[tokens1 s1]|] eqn:E; [|discriminate].
  rewrite (tokenize_body_mono fuel fuel' tokens s _ ltac:(lia) E).
  apply IH; [lia | exact H].
Qed.

Lemma tokenize_fuel_mono (fuel fuel' : nat) (src : string) (toks : list Token) :
  fuel <= fuel' -> tokenize_fuel fuel src = Some toks ->
  tokenize_fuel fuel' src = Some toks.
Proof.
  intros Hle. unfold tokenize_fuel.
  destruct (tokenize_loop fuel [] (init src)) as [[tokens s]|] eqn:E; [|discriminate].
  now rewrite (tokenize_loop_mono _ _ _ _ _ Hle E).
Qed.

Lemma tokenize_total (src : string) :
  exists tl s',
    tokenize_loop (String.length src + 2) [] (init src) = Some (tl, s') /\
    current s' = NUL /\
    Forall (fun tok => type tok <> TokenType.EndOfFile) tl /\
    tokenize src =
      Some (tl ++ [mkToken TokenType.EndOfFile EmptyString (m_line s') (m_column s')]).
Proof.
  destruct (tokenize_loop_total (String.length src + 2) [] (init src))
    as (tl & s' & E & Hc & _ & Hf).
  { unfold remaining, init; simpl. lia. }
  simpl in E. exists tl, s'. split; [exact E|]. split; [exact Hc|].
  split; [exact Hf|]. unfold tokenize, tokenize_fuel. now rewrite E.
Qed.

(** Whatever fuel gives a result gives the result of [tokenize]. *)
Lemma tokenize_fuel_tokenize (fuel : nat) (src : string) (toks : list Token) :
  tokenize_fuel fuel src = Some toks -> tokenize src = Some toks.
Proof.
  intros H. destruct (tokenize_total src) as (tl & s' & _ & _ & _ & E).
  destruct (Nat.le_ge_cases fuel (String.length src + 2)) as [Hle | Hge].
  - exact (tokenize_fuel_mono _ _ _ _ Hle H).
  - pose proof (tokenize_fuel_mono _ _ _ _ Hge E) as E'. congruence.
Qed.

(** ** What a pushed token can be *)

Lemma skipWhitespace_loop_false (fuel : nat) :
  forall b s s',
    skipWhitespace_loop fuel b s = Some (false, s') -> b = false /\ s' = s.
Proof.
  induction fuel as [|fuel IH]; intros b s s' H; [discriminate H|].
  simpl in H. destruct (isspace (current s)).
  - apply IH in H. destruct H as [H _]. discriminate H.
  - inversion H. auto.
Qed.

Lemma skipComment_loop_false (fuel : nat) :
  forall b s s',
    skipComment_loop fuel b s = Some (false, s') -> b = false /\ s' = s.
Proof.
  induction fuel as [|fuel IH]; intros b s s' H; [discriminate H|].
  simpl in H.
  destruct (negb (Ascii.eqb (current s) LF || Ascii.eqb (current s) NUL)).
  - apply IH in H. destruct H as [H _]. discriminate H.
  - inversion H. auto.
Qed.

Lemma app_one_neq {A : Type} (l : list A) (a : A) : l <> l ++ [a].
Proof.
  intros H. apply (f_equal (@List.length A)) in H.
  rewrite length_app in H. simpl in H. lia.
Qed.

Lemma app_one_inj {A : Type} (l : list A) (a b : A) :
  l ++ [a] = l ++ [b] -> a = b.
Proof. intros H. apply app_inv_head in H. now inversion H. Qed.

(** A turn that pushes a token has skipped nothing, and the token is the one
    of a reader or of the operator switch. *)
Lemma tokenize_body_pushed (fuel : nat) (tokens : list Token) (s s' : t)
      (tok : Token) :
  tokenize_body fuel tokens s = Some (tokens ++ [tok], s') ->
  (isdigit (current s) = true /\ readNumber fuel s = Some (tok, s')) \/
  (Ascii.eqb (current s) DQUOTE = true /\ readString fuel s = Some (tok, s')) \/
  (isalpha (current s) || Ascii.eqb (current s) "_" = true /\
   readIdentifier fuel s = Some (tok, s')) \/
  (exists ty v s3,
      punctuation s = (ty, v, s3) /\
      tok = mkToken ty v (m_line s3) (m_column s) /\ s' = advance s3).
Proof.
  unfold tokenize_body, skipWhitespace, skipComment.
  destruct (skipWhitespace_loop fuel false s) as [[[|] s1]|] eqn:E1;
    try discriminate.
  { intros H. inversion H as [[H1 H2]]. now apply app_one_neq in H1. }
  apply skipWhitespace_loop_false in E1 as [_ ->].
  assert (Hcom : forall r,
    (if Ascii.eqb (current s) "/" && Ascii.eqb (peek 1 s) "/"
     then skipComment_loop fuel false s else Some (false, s)) = Some r ->
    fst r = true \/ r = (false, s)).
  { intros [b s2] H. destruct b; [now left | right].
    destruct (Ascii.eqb (current s) "/" && Ascii.eqb (peek 1 s) "/").
    - apply skipComment_loop_false in H as [_ ->]. reflexivity.
    - now inversion H. }
  destruct (if Ascii.eqb (current s) "/" && Ascii.eqb (peek 1 s) "/"
            then skipComment_loop fuel false s else Some (false, s))
    as [[b s2]|] eqn:E2; try discriminate.
  destruct (Hcom _ eq_refl) as [Hb | Hb]; simpl in Hb.
  { subst b. intros H. inversion H as [[H1 H2]]. now apply app_one_neq in H1. }
  inversion Hb; subst b s2.
  destruct (isdigit (current s)).
  { destruct (readNumber fuel s) as [[tok0 s3]|]; try discriminate.
    intros H. inversion H as [[H1 H2]]. apply app_one_inj in H1. subst.
    left. auto. }
  destruct (Ascii.eqb (current s) DQUOTE).
  { destruct (readString fuel s) as [[tok0 s3]|]; try discriminate.
    intros H. inversion H as [[H1 H2]]. apply app_one_inj in H1. subst.
    right; left. auto. }
  destruct (isalpha (current s) || Ascii.eqb (current s) "_").
  { destruct (readIdentifier fuel s) as [[tok0 s3]|]; try discriminate.
    intros H. inversion H as [[H1 H2]]. apply app_one_inj in H1. subst.
    right; right; left. auto. }
  destruct (punctuation s) as [[ty v] s3].
  intros H. inversion H as [[H1 H2]]. apply app_one_inj in H1. subst.
  right; right; right. exists ty, v, s3. auto.
Qed.

Lemma readNumber_type (fuel : nat) (s s' : t) (tok : Token) :
  readNumber fuel s = Some (tok, s') -> type tok = TokenType.Number.
Proof.
  unfold readNumber. destruct (readNumber_loop _ _ _ _) as [[? ?]|];
    intros H; inversion H; reflexivity.
Qed.

Lemma readString_type (fuel : nat) (s s' : t) (tok : Token) :
  readString fuel s = Some (tok, s') -> type tok = TokenType.String.
Proof.
  unfold readString. destruct (readString_loop _ _ _) as [[? ?]|];
    intros H; inversion H; reflexivity.
Qed.

Lemma readIdentifier_type (fuel : nat) (s s' : t) (tok : Token) :
  readIdentifier fuel s = Some (tok, s') ->
  type tok <> TokenType.EndOfFile /\ type tok <> TokenType.Unknown.
Proof.
  unfold readIdentifier.
  destruct (readIdentifier_loop _ _ _) as [[id ?]|]; [|discriminate].
  destruct (map_find Id2TokenType id) eqn:Ef;
    intros H; injection H as Ht _; subst tok; cbn [type].
  - now apply Id2TokenType_not_eof in Ef.
  - split; discriminate.
Qed.

End TokenizerFacts.

(** * Properties of the parser *)

Section ParserFacts.

Import Parser.

(** ** More fuel never changes a result *)

Lemma le_res_refl {A : Type} (r : result A) : le_res r r.
Proof. now right. Qed.

Lemma le_res_trans {A : Type} (r1 r2 r3 : result A) :
  le_res r1 r2 -> le_res r2 r3 -> le_res r1 r3.
Proof.
  intros [-> | ->]; [now left|]. intros H; exact H.
Qed.

Lemma le_M_refl {A : Type} (m : M A) : le_M m m.
Proof. intros p. apply le_res_refl. Qed.

Lemma le_M_trans {A : Type} (m1 m2 m3 : M A) :
  le_M m1 m2 -> le_M m2 m3 -> le_M m1 m3.
Proof. intros H1 H2 p. eapply le_res_trans; [apply H1 | apply H2]. Qed.

Lemma le_M_bottom {A : Type} (m : M A) : le_M (fun _ => OutOfFuel) m.
Proof. intros p. now left. Qed.

Lemma bind_le {A B : Type} (m m' : M A) (k k' : A -> M B) :
  le_M m m' -> (forall a, le_M (k a) (k' a)) -> le_M (bind m k) (bind m' k').
Proof.
  intros Hm Hk p. unfold bind.
  destruct (Hm p) as [-> | ->]; [now left|].
  destruct (m' p) as [a p' | w p' |]; [apply Hk | now right | now right].
Qed.

Ltac mono :=
  repeat first
    [ apply le_M_refl
    | match goal with H : le_M ?m _ |- le_M ?m _ => exact H end
    | match goal with H : forall _, le_M _ _ |- le_M _ _ => apply H end
    | apply bind_le; [| intro]
    | match goal with
      | |- le_M (if ?c then _ else _) _ => destruct c
      | |- le_M (match ?x with _ => _ end) _ => destruct x
      end ].

Lemma rules_step_all (f : nat) : rules_step f.
Proof.
  induction f as [|f IH].
  - repeat split; intros; apply le_M_bottom.
  - destruct IH as (I1 & I2 & I3 & I4 & I5 & I6 & I7 & I8 & I9 & I10 & I11 & I12).
    repeat split; intros.
    + cbn [parsePrimary]. mono.
    + cbn [parsePostfix]. mono.
    + cbn [parsePostfix_loop]. mono.
    + cbn [parseMultiplicative]. mono.
    + cbn [parseMultiplicative_loop]. mono.
    + cbn [parseAdditive]. mono.
    + cbn [parseAdditive_loop]. mono.
    + cbn [parseComparison]. mono.
    + cbn [parseComparison_loop]. mono.
    + cbn [parseExpression]. mono.
    + cbn [parseBlock]. mono.
    + cbn [parseStatement]. mono.
Qed.

Lemma le_M_run {A : Type} (m m' : M A) (p : t) (r : result A) :
  le_M m m' -> m p = r -> r <> OutOfFuel -> m' p = r.
Proof. intros H E Hr. destruct (H p) as [H' | H']; congruence. Qed.

Lemma parseExpression_mono (f f' : nat) :
  f <= f' -> le_M (parseExpression f) (parseExpression f').
Proof.
  induction 1 as [|f' _ IH]; [apply le_M_refl|].
  eapply le_M_trans; [exact IH | apply (rules_step_all f')].
Qed.

Lemma parsePrimary_mono (f f' : nat) :
  f <= f' -> le_M (parsePrimary f) (parsePrimary f').
Proof.
  induction 1 as [|f' _ IH]; [apply le_M_refl|].
  eapply le_M_trans; [exact IH | apply (rules_step_all f')].
Qed.

Lemma parseStatement_mono (f f' : nat) :
  f <= f' -> le_M (parseStatement f) (parseStatement f').
Proof.
  induction 1 as [|f' _ IH]; [apply le_M_refl|].
  eapply le_M_trans; [exact IH | apply (rules_step_all f')].
Qed.

Lemma parse_loop_step (f : nat) :
  forall stmts, le_M (parse_loop f stmts) (parse_loop (S f) stmts).
Proof.
  induction f as [|f IH]; intros stmts; [apply le_M_bottom|].
  pose proof (rules_step_all f) as (_ & _ & _ & _ & _ & _ & _ & _ & _ & _ & _ & I12).
  cbn [parse_loop]. mono.
Qed.

Lemma parse_mono (f f' : nat) : f <= f' -> le_M (parse f) (parse f').
Proof.
  induction 1 as [|f' _ IH]; [apply le_M_refl|].
  eapply le_M_trans; [exact IH|].
  unfold parse. apply bind_le; [apply parse_loop_step | intro; apply le_M_refl].
Qed.

(** ** Inversion of the monad *)

Lemma bind_Ok {A B : Type} (m : M A) (k : A -> M B) (p p' : t) (b : B) :
  bind m k p = Ok b p' ->
  exists a p1, m p = Ok a p1 /\ k a p1 = Ok b p'.
Proof.
  unfold bind. destruct (m p) as [a p1 | |]; try discriminate.
  intros H. now exists a, p1.
Qed.

Lemma TokenType_eqb_eq (a b : TokenType.t) :
  TokenType.eqb a b = true <-> a = b.
Proof.
  split.
  - destruct a, b; intros H; first [reflexivity | discriminate H].
  - intros <-. now destruct a.
Qed.

Lemma TokenType_eqb_refl (a : TokenType.t) : TokenType.eqb a a = true.
Proof. now apply TokenType_eqb_eq. Qed.

Lemma TokenType_eqb_neq (a b : TokenType.t) :
  a <> b -> TokenType.eqb a b = false.
Proof.
  intros H. destruct (TokenType.eqb a b) eqn:E; [|reflexivity].
  apply TokenType_eqb_eq in E. contradiction.
Qed.

(** ** [match] and [expect] *)

Lemma match_true (ty : TokenType.t) (p : t) :
  type (current p) = ty -> match_ ty p = Ok true (advance p).
Proof. intros <-. unfold match_. now rewrite TokenType_eqb_refl. Qed.

Lemma match_false (ty : TokenType.t) (p : t) :
  type (current p) <> ty -> match_ ty p = Ok false p.
Proof. intros H. unfold match_. now rewrite TokenType_eqb_neq. Qed.

Lemma expect_true (ty : TokenType.t) (message : string) (p : t) :
  type (current p) = ty -> expect ty message p = Ok tt (advance p).
Proof. intros H. unfold expect, bind. now rewrite (match_true ty p H). Qed.

Lemma expect_false (ty : TokenType.t) (message : string) (p : t) :
  type (current p) <> ty ->
  expect ty message p =
    Throw (message ++ " at line " ++ to_string (line (current p))) p.
Proof. intros H. unfold expect, bind. now rewrite (match_false ty p H). Qed.

Lemma starts_primary_not_keyword (ty : TokenType.t) :
  starts_primary ty = true ->
  is_type_keyword ty = false /\ ty <> TokenType.Funkcio /\
  ty <> TokenType.Reveni /\ ty <> TokenType.Se /\ ty <> TokenType.Dum.
Proof.
  destruct ty; intros H; try discriminate H; repeat split; discriminate.
Qed.

(** ** A rule that returns an expression started on a token that starts one *)

Lemma parsePrimary_first (f : nat) (p p' : t) (e : ExprNode) :
  parsePrimary f p = Ok e p' -> starts_primary (type (current p)) = true.
Proof.
  destruct f as [|f]; [discriminate|].
  cbn [parsePrimary]. unfold bind, currentM, match_. cbv beta iota zeta.
  destruct (type (current p)) eqn:Et; try reflexivity; intros H;
    do 3 (cbn [TokenType.eqb orb] in H; rewrite ?Et in H); discriminate H.
Qed.

Lemma parsePostfix_first (f : nat) (p p' : t) (e : ExprNode) :
  parsePostfix f p = Ok e p' -> starts_primary (type (current p)) = true.
Proof.
  destruct f as [|f]; [discriminate|]. cbn [parsePostfix]. intros H.
  apply bind_Ok in H as (a & p1 & H & _). eapply parsePrimary_first; eauto.
Qed.

Lemma parseMultiplicative_first (f : nat) (p p' : t) (e : ExprNode) :
  parseMultiplicative f p = Ok e p' -> starts_primary (type (current p)) = true.
Proof.
  destruct f as [|f]; [discriminate|]. cbn [parseMultiplicative]. intros H.
  apply bind_Ok in H as (a & p1 & H & _). eapply parsePostfix_first; eauto.
Qed.

Lemma parseAdditive_first (f : nat) (p p' : t) (e : ExprNode) :
  parseAdditive f p = Ok e p' -> starts_primary (type (current p)) = true.
Proof.
  destruct f as [|f]; [discriminate|]. cbn [parseAdditive]. intros H.
  apply bind_Ok in H as (a & p1 & H & _). eapply parseMultiplicative_first; eauto.
Qed.

Lemma parseComparison_first (f : nat) (p p' : t) (e : ExprNode) :
  parseComparison f p = Ok e p' -> starts_primary (type (current p)) = true.
Proof.
  destruct f as [|f]; [discriminate|]. cbn [parseComparison]. intros H.
  apply bind_Ok in H as (a & p1 & H & _). eapply parseAdditive_first; eauto.
Qed.

Lemma parseExpression_first (f : nat) (p p' : t) (e : ExprNode) :
  parseExpression f p = Ok e p' -> starts_primary (type (current p)) = true.
Proof.
  destruct f as [|f]; [discriminate|]. cbn [parseExpression].
  apply parseComparison_first.
Qed.

(** ** No rule builds a class declaration *)

Lemma returns_ret {A : Type} (P : A -> Prop) (a : A) : P a -> returns P (ret a).
Proof. intros H p a' p' E. inversion E. now subst. Qed.

Lemma returns_throw {A : Type} (P : A -> Prop) (w : string) :
  returns P (throw w).
Proof. intros p a p' E. discriminate E. Qed.

Lemma returns_bottom {A : Type} (P : A -> Prop) :
  returns P (fun _ => OutOfFuel).
Proof. intros p a p' E. discriminate E. Qed.

Lemma returns_bind {A B : Type} (P : A -> Prop) (Q : B -> Prop)
      (m : M A) (k : A -> M B) :
  returns P m -> (forall a, P a -> returns Q (k a)) -> returns Q (bind m k).
Proof.
  intros Hm Hk p b p' E. apply bind_Ok in E as (a & p1 & E1 & E2).
  eapply Hk; [eapply Hm|]; eauto.
Qed.

Lemma returns_bind_any {A B : Type} (Q : B -> Prop) (m : M A) (k : A -> M B) :
  (forall a, returns Q (k a)) -> returns Q (bind m k).
Proof.
  intros Hk. apply (returns_bind (fun _ => True)); [|auto].
  intros p a p' _. exact I.
Qed.

Lemma no_class_snoc (body : list ASTNode) (stmt : ASTNode) :
  no_class_l body -> no_class_n stmt -> no_class_l (body ++ [stmt]).
Proof.
  unfold no_class_l, no_class_n. intros Hb Hs.
  rewrite existsb_app, Hb. simpl. now rewrite Hs.
Qed.

Lemma no_class_nil : no_class_l [].
Proof. reflexivity. Qed.

Ltac close_no_class :=
  unfold no_class_o in *; unfold no_class_e, no_class_n, no_class_l in *;
  simpl in *;
  repeat match goal with
         | H : _ = false |- _ => rewrite H; clear H
         end;
  auto.

Ltac no_class :=
  repeat first
    [ apply returns_throw
    | apply returns_ret; first [assumption | exact I | solve [close_no_class]]
    | match goal with
      | H : returns _ ?m |- returns _ ?m => exact H
      | H : forall e, _ -> returns _ (?m e) |- returns _ (?m ?x) =>
          apply H; first [assumption | apply no_class_nil
                         | apply no_class_snoc; assumption
                         | solve [close_no_class]]
      | H : returns ?P ?m |- returns _ (bind ?m _) =>
          apply (returns_bind P); [exact H | intros ? ?]
      | H : forall e, _ -> returns ?P (?m e) |- returns _ (bind (?m ?x) _) =>
          apply (returns_bind P);
          [apply H; first [assumption | apply no_class_nil] | intros ? ?]
      | |- returns _ (bind (if ?c then _ else _) _) => fail 1
      | |- returns _ (bind _ _) => apply returns_bind_any; intro
      | |- returns _ (if ?c then _ else _) => destruct c
      | |- returns _ (match ?x with _ => _ end) => destruct x
      end ].

Lemma rules_no_class_all (f : nat) : rules_no_class f.
Proof.
  induction f as [|f IH].
  - repeat split; intros; apply returns_bottom.
  - destruct IH as (I1 & I2 & I3 & I4 & I5 & I6 & I7 & I8 & I9 & I10 & I11 & I12).
    repeat split; intros.
    + cbn [parsePrimary]. no_class.
    + cbn [parsePostfix]. no_class.
    + cbn [parsePostfix_loop]. no_class.
    + cbn [parseMultiplicative]. no_class.
    + cbn [parseMultiplicative_loop]. no_class.
    + cbn [parseAdditive]. no_class.
    + cbn [parseAdditive_loop]. no_class.
    + cbn [parseComparison]. no_class.
    + cbn [parseComparison_loop]. no_class.
    + cbn [parseExpression]. no_class.
    + cbn [parseBlock]. no_class.
    + cbn [parseStatement]. no_class.
      * apply (returns_bind no_class_o).
        { destruct a2; no_class. }
        intros init Hinit. no_class. apply returns_ret.
        destruct init; close_no_class.
      * apply (returns_bind no_class_l).
        { destruct a5; no_class. }
        intros elseBody HelseBody. no_class.
Qed.

Lemma parse_loop_no_class (f : nat) :
  forall stmts, no_class_l stmts -> returns no_class_l (parse_loop f stmts).
Proof.
  induction f as [|f IH]; intros stmts Hs; [apply returns_bottom|].
  pose proof (rules_no_class_all f)
    as (_ & _ & _ & _ & _ & _ & _ & _ & _ & _ & _ & I12).
  cbn [parse_loop]. no_class.
Qed.

(** ** Results on a text, with more fuel *)

Lemma outcome_more_fuel {A : Type} (m m' : M A) (p : t) (o : outcome A) :
  le_M m m' -> outcome_of (m p) = o -> o <> NoFuel -> outcome_of (m' p) = o.
Proof.
  intros H E Ho. destruct (H p) as [H' | H'].
  - rewrite H' in E. simpl in E. congruence.
  - now rewrite <- H'.
Qed.

Lemma parse_source_more_fuel (f f' : nat) (src : string) (o : outcome ProgramNode) :
  f <= f' -> outcome_of (parse_source f src) = o -> o <> NoFuel ->
  outcome_of (parse_source f' src) = o.
Proof.
  intros Hf. unfold parse_source. destruct (Tokenizer.tokenize src); [|trivial].
  apply outcome_more_fuel. now apply parse_mono.
Qed.

Lemma parseExpression_source_more_fuel (f f' : nat) (src : string)
      (o : outcome ExprNode) :
  f <= f' -> outcome_of (run_source (parseExpression f) src) = o -> o <> NoFuel ->
  outcome_of (run_source (parseExpression f') src) = o.
Proof.
  intros Hf. unfold run_source. destruct (Tokenizer.tokenize src); [|trivial].
  apply outcome_more_fuel. now apply parseExpression_mono.
Qed.

Lemma parsePrimary_source_more_fuel (f f' : nat) (src : string)
      (o : outcome ExprNode) :
  f <= f' -> outcome_of (run_source (parsePrimary f) src) = o -> o <> NoFuel ->
  outcome_of (run_source (parsePrimary f') src) = o.
Proof.
  intros Hf. unfold run_source. destruct (Tokenizer.tokenize src); [|trivial].
  apply outcome_more_fuel. now apply parsePrimary_mono.
Qed.

End ParserFacts.

(** * The claims about the tokenizer *)

(** C6.  A second [.] met while a number is read ends the number there: on
    digits, a dot, digits and a second dot, the turn of the main loop pushes a
    Number token whose text is the digits, the first dot and the digits, and
    leaves the cursor on the second dot; the next turn pushes that dot as a Dot
    token.  So the tokens of a text that starts this way start with the Number
    token followed at once by the Dot token. *)
Theorem C6_second_dot_ends_number :
  forall (d : ascii) (ds1 ds2 rest : string),
    all_chars isdigit (String d ds1) = true ->
    all_chars isdigit ds2 = true ->
    let text := (String d ds1 ++ String "." (ds2 ++ String "." rest))%string in
    let number_text := (String d ds1 ++ String "." ds2)%string in
    let width := Z.of_nat (String.length number_text) in
    (forall (fuel : nat) (tokens : list Token) (s : Tokenizer.t),
        reads s text ->
        String.length ds1 + String.length ds2 + 3 <= fuel ->
        let number :=
          mkToken TokenType.Number number_text
                  (Tokenizer.m_line s) (Tokenizer.m_column s) in
        let dot :=
          mkToken TokenType.Dot "."
                  (Tokenizer.m_line s) (Tokenizer.m_column s + width) in
        exists s1,
          Tokenizer.tokenize_body fuel tokens s = Some (tokens ++ [number], s1) /\
          reads s1 (String "." rest) /\
          Tokenizer.tokenize_body fuel (tokens ++ [number]) s1 =
            Some ((tokens ++ [number]) ++ [dot], Tokenizer.advance s1)) /\
    (exists tl,
        Tokenizer.tokenize text =
          Some (mkToken TokenType.Number number_text 1 0
                :: mkToken TokenType.Dot "." 1 width :: tl)).
Proof.
  intros d ds1 ds2 rest H1 H2 text number_text width.
  assert (Hw : width =
               Z.of_nat (String.length (String d ds1) + 1 + String.length ds2)).
  { unfold width, number_text. rewrite length_append_s. simpl. f_equal. lia. }
  assert (Hstate : forall fuel tokens s,
    reads s text -> String.length ds1 + String.length ds2 + 3 <= fuel ->
    exists s1,
      Tokenizer.tokenize_body fuel tokens s =
        Some (tokens ++ [mkToken TokenType.Number number_text
                           (Tokenizer.m_line s) (Tokenizer.m_column s)], s1) /\
      reads s1 (String "." rest) /\
      Tokenizer.tokenize_body fuel
        (tokens ++ [mkToken TokenType.Number number_text
                      (Tokenizer.m_line s) (Tokenizer.m_column s)]) s1 =
        Some ((tokens ++ [mkToken TokenType.Number number_text
                            (Tokenizer.m_line s) (Tokenizer.m_column s)]) ++
              [mkToken TokenType.Dot "." (Tokenizer.m_line s)
                       (Tokenizer.m_column s + width)],
              Tokenizer.advance s1)).
  { intros fuel tokens s Hs Hf.
    destruct (tokenize_body_two_dots fuel tokens s d ds1 ds2 rest H1 H2 Hs Hf)
      as (s1 & E & Hr & Hl & Hc).
    exists s1. split; [exact E|]. split; [exact Hr|].
    rewrite (tokenize_body_dot fuel _ s1 rest Hr) by lia.
    now rewrite Hl, Hc, Hw. }
  split; [exact Hstate|].
  pose (L := String.length text).
  assert (HL : L = String.length ds1 + String.length ds2 + 3 + String.length rest).
  { unfold L, text. rewrite length_append_s. simpl. rewrite length_append_s.
    simpl. lia. }
  destruct (tokenize_body_two_dots (S L) [] (Tokenizer.init text)
              d ds1 ds2 rest H1 H2 (reads_init text))
    as (s1 & E1 & Hr1 & Hl & Hc); [lia|].
  cbn [Tokenizer.init Tokenizer.m_line Tokenizer.m_column app] in E1, Hl, Hc.
  rewrite <- Hw in Hc. fold number_text in E1.
  pose proof (tokenize_body_dot L
                [mkToken TokenType.Number number_text 1 0] s1 rest Hr1) as E2.
  rewrite Hl, Hc in E2. cbn [app Z.add] in E2.
  destruct (tokenize_loop_total L
              [mkToken TokenType.Number number_text 1 0;
               mkToken TokenType.Dot "." 1 width]
              (Tokenizer.advance s1))
    as (tl & s' & E3 & _).
  { rewrite (reads_remaining _ rest); [lia|]. eapply reads_advance; eauto. }
  exists (tl ++ [mkToken TokenType.EndOfFile EmptyString
                   (Tokenizer.m_line s') (Tokenizer.m_column s')]).
  unfold Tokenizer.tokenize, Tokenizer.tokenize_fuel. fold L.
  replace (L + 2) with (S (S L)) by lia.
  cbn [Tokenizer.tokenize_loop].
  rewrite (reads_current _ _ _ (reads_init text)).
  cbn [all_chars] in H1. apply andb_true_iff in H1 as [Hd _].
  destruct (isdigit_facts d Hd) as (_ & _ & ->). cbn [negb].
  rewrite E1, (reads_current _ _ _ Hr1).
  change (negb (Ascii.eqb "." NUL)) with true. cbv beta iota.
  rewrite E2 by lia. rewrite E3. reflexivity.
Qed.

Lemma C6_second_dot_ends_number_witness :
  all_chars isdigit "3" = true /\ all_chars isdigit "14" = true /\
  exists tl,
    Tokenizer.tokenize "3.14.5" =
      Some (mkToken TokenType.Number "3.14" 1 0
            :: mkToken TokenType.Dot "." 1 4 :: tl).
Proof.
  split; [reflexivity|]. split; [reflexivity|].
  exact (proj2 (C6_second_dot_ends_number "3" EmptyString "14" "5"
                  eq_refl eq_refl)).
Defined.

(** C7.  The tokens of every text are the tokens pushed by the main loop, none
    of which is an end-of-input token, followed by one end-of-input token at
    the line and column of the cursor when the loop ends (on a character NUL:
    the end of the text, or a NUL in it).  When the text is made of blanks
    only, that end-of-input token is the one token, at the line and column
    reached after all the blanks. *)
Theorem C7_one_eof_at_the_end :
  (forall src : string,
      exists body s',
        Tokenizer.tokenize_loop (String.length src + 2) [] (Tokenizer.init src) =
          Some (body, s') /\
        Tokenizer.current s' = NUL /\
        Forall (fun tok => type tok <> TokenType.EndOfFile) body /\
        Tokenizer.tokenize src =
          Some (body ++ [mkToken TokenType.EndOfFile EmptyString
                           (Tokenizer.m_line s') (Tokenizer.m_column s')])) /\
  (forall src : string,
      all_chars isspace src = true ->
      Tokenizer.tokenize src =
        Some [mkToken TokenType.EndOfFile EmptyString
                (fst (cursor_after src 1 0)) (snd (cursor_after src 1 0))]).
Proof.
  split; [exact tokenize_total|].
  intros src Hws.
  unfold Tokenizer.tokenize, Tokenizer.tokenize_fuel.
  replace (String.length src + 2) with (S (S (String.length src))) by lia.
  cbn [Tokenizer.tokenize_loop].
  destruct src as [|c src].
  - reflexivity.
  - rewrite (reads_current _ _ _ (reads_init (String c src))).
    pose proof Hws as Hc. cbn [all_chars] in Hc.
    apply andb_true_iff in Hc as [Hc _].
    destruct (Ascii.eqb c NUL) eqn:E.
    { apply Ascii.eqb_eq in E. subst c. discriminate Hc. }
    cbn [negb]. unfold Tokenizer.tokenize_body, Tokenizer.skipWhitespace.
    destruct (skipWhitespace_loop_run (String c src) Hws
                (S (String.length (String c src))) false
                (Tokenizer.init (String c src)) (reads_init _))
      as (s' & -> & Hr & Hpos); [lia|].
    cbn [Tokenizer.tokenize_loop]. rewrite (reads_current_end s' Hr).
    cbn [Ascii.eqb negb]. change (negb (Ascii.eqb NUL NUL)) with false.
    cbv beta iota. cbn [app].
    cbn [Tokenizer.init Tokenizer.m_line Tokenizer.m_column] in Hpos.
    rewrite <- Hpos. reflexivity.
Qed.

Lemma C7_one_eof_at_the_end_witness :
  all_chars isspace (String " " (String LF (String TAB " "))) = true /\
  Tokenizer.tokenize (String " " (String LF (String TAB " "))) =
    Some [mkToken TokenType.EndOfFile EmptyString 2 2].
Proof.
  split; [reflexivity|].
  exact (proj2 C7_one_eof_at_the_end
               (String " " (String LF (String TAB " "))) eq_refl).
Defined.

(** C8.  [tokenize] comes back on every text: with fuel for two turns more
    than the text has characters the main loop ends, and more fuel gives the
    same tokens; the tokenizer has no failing outcome.  Every turn of the main
    loop moves the cursor at least one character to the right.  A token of
    kind Unknown is pushed for a single character, which is its text, and the
    cursor goes one character on. *)
Theorem C8_tokenize_terminates :
  (forall (src : string) (fuel : nat),
      String.length src + 2 <= fuel ->
      exists toks,
        Tokenizer.tokenize_fuel fuel src = Some toks /\
        Tokenizer.tokenize src = Some toks) /\
  (forall (fuel : nat) (tokens : list Token) (s : Tokenizer.t),
      Tokenizer.current s <> NUL ->
      remaining s < fuel ->
      exists tokens' s',
        Tokenizer.tokenize_body fuel tokens s = Some (tokens', s') /\
        Tokenizer.m_source s' = Tokenizer.m_source s /\
        Tokenizer.m_position s < Tokenizer.m_position s') /\
  (forall (fuel : nat) (tokens : list Token) (s s' : Tokenizer.t) (tok : Token),
      Tokenizer.tokenize_body fuel tokens s = Some (tokens ++ [tok], s') ->
      type tok = TokenType.Unknown ->
      tok = mkToken TokenType.Unknown (String (Tokenizer.current s) EmptyString)
                    (Tokenizer.m_line s) (Tokenizer.m_column s) /\
      s' = Tokenizer.advance s).
Proof.
  split; [|split].
  - intros src fuel Hf.
    destruct (tokenize_total src) as (tl & s' & _ & _ & _ & E).
    eexists. split; [|exact E].
    eapply tokenize_fuel_mono; [exact Hf | exact E].
  - intros fuel tokens s Hn Hr.
    destruct (tokenize_body_total fuel tokens s Hn Hr)
      as (tokens' & s' & E & [Hsrc Hpos] & _).
    exists tokens', s'. auto.
  - intros fuel tokens s s' tok H Hu.
    apply tokenize_body_pushed in H
      as [[_ H] | [[_ H] | [[_ H] | (ty & v & s3 & Hp & -> & ->)]]].
    + apply readNumber_type in H. congruence.
    + apply readString_type in H. congruence.
    + apply readIdentifier_type in H as [_ H]. contradiction.
    + cbn [type] in Hu. subst ty.
      destruct (punctuation_spec s _ _ _ Hp) as (_ & _ & _ & Hv).
      destruct (Hv eq_refl) as [-> ->]. auto.
Qed.

Lemma C8_tokenize_terminates_witness :
  (String.length "#" + 2 <= 3 /\
   exists toks,
     Tokenizer.tokenize_fuel 3 "#" = Some toks /\
     Tokenizer.tokenize "#" = Some toks) /\
  (Tokenizer.current (Tokenizer.init "#") <> NUL /\
   remaining (Tokenizer.init "#") < 2 /\
   exists tokens' s',
     Tokenizer.tokenize_body 2 [] (Tokenizer.init "#") = Some (tokens', s') /\
     Tokenizer.m_source s' = "#" /\ 0 < Tokenizer.m_position s') /\
  (Tokenizer.tokenize_body 2 [] (Tokenizer.init "#") =
     Some ([] ++ [mkToken TokenType.Unknown "#" 1 0],
           Tokenizer.advance (Tokenizer.init "#")) /\
   mkToken TokenType.Unknown "#" 1 0 =
     mkToken TokenType.Unknown
             (String (Tokenizer.current (Tokenizer.init "#")) EmptyString) 1 0 /\
   Tokenizer.advance (Tokenizer.init "#") = Tokenizer.advance (Tokenizer.init "#")).
Proof.
  split; [|split].
  - split; [simpl; lia|].
    exact (proj1 C8_tokenize_terminates "#" 3 (le_n 3)).
  - assert (Hn : Tokenizer.current (Tokenizer.init "#") <> NUL) by discriminate.
    assert (Hr : remaining (Tokenizer.init "#") < 2) by (cbv; lia).
    split; [exact Hn|]. split; [exact Hr|].
    exact (proj1 (proj2 C8_tokenize_terminates) 2 [] (Tokenizer.init "#") Hn Hr).
  - split; [reflexivity|].
    exact (proj2 (proj2 C8_tokenize_terminates) 2 [] (Tokenizer.init "#") _
             (mkToken TokenType.Unknown "#" 1 0) eq_refl eq_refl).
Defined.

(** C3 (the code departs from it).  The String token that [readString]
    returns has the column the cursor had on the opening quote and the line
    the cursor has when the string has been read, not the line of the opening
    quote.  On the five characters quote, a, newline, b, quote, whose first
    character is at line 1, column 0, the String token has line 2, column
    0. *)
Theorem C3_string_token_has_the_line_of_its_end :
  (forall (fuel : nat) (s s' : Tokenizer.t) (tok : Token),
      Tokenizer.readString fuel s = Some (tok, s') ->
      column tok = Tokenizer.m_column s /\ line tok = Tokenizer.m_line s') /\
  (let src :=
     String DQUOTE (String "a" (String LF (String "b" (String DQUOTE EmptyString)))) in
   Tokenizer.current (Tokenizer.init src) = DQUOTE /\
   Tokenizer.m_line (Tokenizer.init src) = 1%Z /\
   Tokenizer.m_column (Tokenizer.init src) = 0%Z /\
   Tokenizer.tokenize src =
     Some [mkToken TokenType.String (String "a" (String LF "b")) 2 0;
           mkToken TokenType.EndOfFile EmptyString 2 2]).
Proof.
  split.
  - intros fuel s s' tok. unfold Tokenizer.readString.
    destruct (Tokenizer.readString_loop fuel EmptyString (Tokenizer.advance s))
      as [[str s1]|]; [|discriminate].
    intros H. inversion H; subst. split; reflexivity.
  - repeat split.
Qed.

Lemma C3_string_token_has_the_line_of_its_end_witness :
  let src :=
    String DQUOTE (String "a" (String LF (String "b" (String DQUOTE EmptyString)))) in
  let s' := Tokenizer.mk src 5 2 2 in
  let tok := mkToken TokenType.String (String "a" (String LF "b")) 2 0 in
  Tokenizer.readString 6 (Tokenizer.init src) = Some (tok, s') /\
  column tok = Tokenizer.m_column (Tokenizer.init src) /\
  line tok = Tokenizer.m_line s'.
Proof.
  intros src s' tok.
  assert (H : Tokenizer.readString 6 (Tokenizer.init src) = Some (tok, s'))
    by reflexivity.
  split; [exact H|].
  exact (proj1 C3_string_token_has_the_line_of_its_end 6 _ _ _ H).
Defined.

(** * The claims about the parser *)

(** C9.  In the tree that [parse()] returns, for any tokens and from any
    cursor, no class declaration occurs, at the top or inside a body. *)
Theorem C9_no_class_declaration :
  forall (fuel : nat) (p p' : Parser.t) (prog : ProgramNode),
    Parser.parse fuel p = Parser.Ok prog p' ->
    existsb node_has_class (statements prog) = false.
Proof.
  intros fuel p p' prog H. unfold Parser.parse in H.
  apply bind_Ok in H as (stmts & p1 & H1 & H2).
  apply (parse_loop_no_class fuel [] no_class_nil) in H1.
  unfold Parser.ret in H2. inversion H2; subst. exact H1.
Qed.

Lemma C9_no_class_declaration_witness :
  let tokens :=
    [ mkToken TokenType.Identifier "x" 1 0;
      mkToken TokenType.Assign "=" 1 2;
      mkToken TokenType.Number "1" 1 4;
      mkToken TokenType.Semicolon ";" 1 5;
      mkToken TokenType.EndOfFile EmptyString 1 6 ] in
  let prog := mkProgram [AssignNode "x" (NumberLiteral (QArith_base.Qmake 1 1) false)] in
  let p' := {| Parser.m_tokens := tokens; Parser.m_position := 4 |} in
  Parser.parse 20 (Parser.init tokens) = Parser.Ok prog p' /\
  existsb node_has_class (statements prog) = false.
Proof.
  intros tokens prog p'.
  assert (H : Parser.parse 20 (Parser.init tokens) = Parser.Ok prog p')
    by (vm_compute; reflexivity).
  split; [exact H | exact (C9_no_class_declaration 20 _ p' prog H)].
Defined.

(** C5.  [parseStatement] returns an assignment to [name] only when its
    leading expression is the bare variable reference [name] and the token
    after it is [=].  When the leading expression is anything else (a call, a
    member access) and the token after it is [=], [parseStatement] throws,
    the [;] it expects being absent.  So does [parse()] on [f(x) = 1;]. *)
Theorem C5_assignment_targets_are_bare_names :
  (forall (f : nat) (p p' : Parser.t) (name : string) (v : ExprNode),
      Parser.parseStatement (S f) p = Parser.Ok (AssignNode name v) p' ->
      exists p1,
        Parser.parseExpression f p = Parser.Ok (VarRefNode name) p1 /\
        type (Parser.current p1) = TokenType.Assign) /\
  (forall (f : nat) (p p1 : Parser.t) (e : ExprNode),
      Parser.parseExpression f p = Parser.Ok e p1 ->
      (forall name, e <> VarRefNode name) ->
      type (Parser.current p1) = TokenType.Assign ->
      Parser.parseStatement (S f) p =
        Parser.Throw ("Expected ';' at line " ++ to_string (line (Parser.current p1)))
                     p1) /\
  (forall fuel : nat,
      20 <= fuel ->
      outcome_of (parse_source fuel "f(x) = 1;") = Thrown "Expected ';' at line 1").
Proof.
  split; [|split].
  - intros f p p' name v H.
    cbn [Parser.parseStatement] in H.
    unfold Parser.bind, Parser.currentM, Parser.match_, Parser.expect,
      Parser.parseType, Parser.advanceM, Parser.ret, Parser.throw in H.
    repeat match type of H with
           | context [match ?x with _ => _ end] =>
               destruct x eqn:?; cbv beta iota in H; try discriminate H
           end.
    inversion H; subst; clear H.
    repeat match goal with
           | E : (if ?c then _ else _) = _ |- _ =>
               destruct c eqn:?; inversion E; subst; clear E
           end.
    eexists; split; [eassumption|]. now apply TokenType_eqb_eq.
  - intros f p p1 e He Hv Ha.
    pose proof (parseExpression_first f p p1 e He) as Hs.
    apply starts_primary_not_keyword in Hs as (Hk & H1 & H2 & H3 & H4).
    assert (Hsemi : type (Parser.current p1) <> TokenType.Semicolon)
      by (rewrite Ha; discriminate).
    cbn [Parser.parseStatement]. unfold Parser.bind, Parser.currentM.
    cbv beta iota zeta. rewrite Hk. cbv beta iota.
    rewrite (match_false _ _ H1). cbv beta iota.
    rewrite (match_false _ _ H2). cbv beta iota.
    rewrite (match_false _ _ H3). cbv beta iota.
    rewrite (match_false _ _ H4). cbv beta iota.
    rewrite He.
    destruct e; try (exfalso; eapply Hv; reflexivity);
      cbv beta iota; now rewrite (expect_false _ _ _ Hsemi).
  - intros fuel Hf.
    apply (parse_source_more_fuel 20 fuel _ _ Hf); [|discriminate].
    vm_compute. reflexivity.
Qed.

Lemma C5_assignment_targets_are_bare_names_witness :
  let call_tokens :=
    [ mkToken TokenType.Identifier "f" 1 0;
      mkToken TokenType.LParen "(" 1 1;
      mkToken TokenType.Identifier "x" 1 2;
      mkToken TokenType.RParen ")" 1 3;
      mkToken TokenType.Assign "=" 1 5;
      mkToken TokenType.Number "1" 1 7;
      mkToken TokenType.Semicolon ";" 1 8;
      mkToken TokenType.EndOfFile EmptyString 1 9 ] in
  let assign_tokens :=
    [ mkToken TokenType.Identifier "x" 1 0;
      mkToken TokenType.Assign "=" 1 2;
      mkToken TokenType.Number "1" 1 4;
      mkToken TokenType.Semicolon ";" 1 5;
      mkToken TokenType.EndOfFile EmptyString 1 6 ] in
  (Parser.parseStatement 21 (Parser.init assign_tokens) =
     Parser.Ok (AssignNode "x" (NumberLiteral (QArith_base.Qmake 1 1) false))
               (Parser.mk assign_tokens 4) /\
   exists p1,
     Parser.parseExpression 20 (Parser.init assign_tokens) =
       Parser.Ok (VarRefNode "x") p1 /\
     type (Parser.current p1) = TokenType.Assign) /\
  (Parser.parseExpression 20 (Parser.init call_tokens) =
     Parser.Ok (CallNode (VarRefNode "f") (VarRefNode "x")) (Parser.mk call_tokens 4) /\
   type (Parser.current (Parser.mk call_tokens 4)) = TokenType.Assign /\
   Parser.parseStatement 21 (Parser.init call_tokens) =
     Parser.Throw "Expected ';' at line 1" (Parser.mk call_tokens 4)) /\
  (20 <= 20 /\
   outcome_of (parse_source 20 "f(x) = 1;") = Thrown "Expected ';' at line 1").
Proof.
  intros call_tokens assign_tokens.
  pose proof C5_assignment_targets_are_bare_names as (Ha & Hb & Hc).
  split; [|split].
  - assert (H : Parser.parseStatement 21 (Parser.init assign_tokens) =
                Parser.Ok (AssignNode "x" (NumberLiteral (QArith_base.Qmake 1 1) false))
                          (Parser.mk assign_tokens 4))
      by (vm_compute; reflexivity).
    split; [exact H | exact (Ha 20 _ _ _ _ H)].
  - assert (H : Parser.parseExpression 20 (Parser.init call_tokens) =
                Parser.Ok (CallNode (VarRefNode "f") (VarRefNode "x"))
                          (Parser.mk call_tokens 4))
      by (vm_compute; reflexivity).
    split; [exact H|]. split; [reflexivity|].
    exact (Hb 20 _ _ _ H ltac:(discriminate) eq_refl).
  - split; [apply le_n | exact (Hc 20 (le_n 20))].
Defined.

(** C10.  [parsePrimary] on [(], an expression and [)] returns the node of
    the inner expression itself.  So [(x) = 1;] is parsed as the assignment
    to [x] that [x = 1;] gives. *)
Theorem C10_parentheses_leave_no_trace :
  (forall (f : nat) (p p1 : Parser.t) (e : ExprNode),
      type (Parser.current p) = TokenType.LParen ->
      Parser.parseExpression f (Parser.advance p) = Parser.Ok e p1 ->
      type (Parser.current p1) = TokenType.RParen ->
      Parser.parsePrimary (S f) p = Parser.Ok e (Parser.advance p1)) /\
  (forall fuel : nat,
      20 <= fuel ->
      let assignment :=
        mkProgram [AssignNode "x" (NumberLiteral (QArith_base.Qmake 1 1) false)] in
      outcome_of (parse_source fuel "(x) = 1;") = Returned assignment /\
      outcome_of (parse_source fuel "x = 1;") = Returned assignment).
Proof.
  split.
  - intros f p p1 e Hl He Hr.
    cbn [Parser.parsePrimary]. unfold Parser.bind, Parser.currentM.
    cbv beta iota zeta. rewrite Hl. cbn [TokenType.eqb]. cbv beta iota.
    rewrite (match_false TokenType.At p) by (rewrite Hl; discriminate).
    cbv beta iota. rewrite (match_true _ p Hl). cbv beta iota.
    rewrite He. now rewrite (expect_true _ _ p1 Hr).
  - intros fuel Hf assignment. split.
    + apply (parse_source_more_fuel 20 fuel _ _ Hf); [|discriminate].
      vm_compute. reflexivity.
    + apply (parse_source_more_fuel 20 fuel _ _ Hf); [|discriminate].
      vm_compute. reflexivity.
Qed.

Lemma C10_parentheses_leave_no_trace_witness :
  let tokens :=
    [ mkToken TokenType.LParen "(" 1 0;
      mkToken TokenType.Identifier "x" 1 1;
      mkToken TokenType.RParen ")" 1 2;
      mkToken TokenType.EndOfFile EmptyString 1 3 ] in
  (type (Parser.current (Parser.mk tokens 0)) = TokenType.LParen /\
   Parser.parseExpression 10 (Parser.advance (Parser.mk tokens 0)) =
     Parser.Ok (VarRefNode "x") (Parser.mk tokens 2) /\
   type (Parser.current (Parser.mk tokens 2)) = TokenType.RParen /\
   Parser.parsePrimary 11 (Parser.mk tokens 0) =
     Parser.Ok (VarRefNode "x") (Parser.advance (Parser.mk tokens 2))) /\
  (20 <= 20 /\
   outcome_of (parse_source 20 "(x) = 1;") =
     Returned (mkProgram [AssignNode "x" (NumberLiteral (QArith_base.Qmake 1 1) false)]) /\
   outcome_of (parse_source 20 "x = 1;") =
     Returned (mkProgram [AssignNode "x" (NumberLiteral (QArith_base.Qmake 1 1) false)])).
Proof.
  intros tokens.
  pose proof C10_parentheses_leave_no_trace as (Ha & Hb).
  split.
  - assert (He : Parser.parseExpression 10 (Parser.advance (Parser.mk tokens 0)) =
                 Parser.Ok (VarRefNode "x") (Parser.mk tokens 2))
      by (vm_compute; reflexivity).
    split; [reflexivity|]. split; [exact He|]. split; [reflexivity|].
    exact (Ha 10 (Parser.mk tokens 0) (Parser.mk tokens 2) _ eq_refl He eq_refl).
  - split; [apply le_n | exact (Hb 20 (le_n 20))].
Defined.

(** C1 (the code departs from it).  The integer flag that [parsePrimary] gives
    a number literal is [contains('.')] of the token's text: it is set when
    the text has a [.], and clear when it has none.  The literal of [42] has
    the flag clear, the literal of [3.14] has it set. *)
Theorem C1_integer_flag_is_set_by_a_dot :
  (forall (f : nat) (p : Parser.t) (v : double),
      type (Parser.current p) = TokenType.Number ->
      stod (value (Parser.current p)) = Some v ->
      Parser.parsePrimary (S f) p =
        Parser.Ok (NumberLiteral v (contains (value (Parser.current p)) "."))
                  (Parser.advance p)) /\
  Tokenizer.tokenize "42" =
    Some [mkToken TokenType.Number "42" 1 0;
          mkToken TokenType.EndOfFile EmptyString 1 2] /\
  Tokenizer.tokenize "3.14" =
    Some [mkToken TokenType.Number "3.14" 1 0;
          mkToken TokenType.EndOfFile EmptyString 1 4] /\
  (forall fuel : nat,
      1 <= fuel ->
      outcome_of (run_source (Parser.parsePrimary fuel) "42") =
        Returned (NumberLiteral (QArith_base.Qmake 42 1) false) /\
      outcome_of (run_source (Parser.parsePrimary fuel) "3.14") =
        Returned (NumberLiteral (QArith_base.Qmake 314 100) true)).
Proof.
  split; [|split; [reflexivity | split; [reflexivity|]]].
  - intros f p v Ht Hv.
    cbn [Parser.parsePrimary]. unfold Parser.bind, Parser.currentM.
    cbv beta iota zeta. rewrite Ht, Hv. reflexivity.
  - intros fuel Hf. split.
    + apply (parsePrimary_source_more_fuel 1 fuel _ _ Hf); [|discriminate].
      vm_compute. reflexivity.
    + apply (parsePrimary_source_more_fuel 1 fuel _ _ Hf); [|discriminate].
      vm_compute. reflexivity.
Qed.

Lemma C1_integer_flag_is_set_by_a_dot_witness :
  let p := Parser.init [mkToken TokenType.Number "42" 1 0;
                        mkToken TokenType.EndOfFile EmptyString 1 2] in
  type (Parser.current p) = TokenType.Number /\
  stod (value (Parser.current p)) = Some (QArith_base.Qmake 42 1) /\
  Parser.parsePrimary 1 p =
    Parser.Ok (NumberLiteral (QArith_base.Qmake 42 1) false) (Parser.advance p) /\
  outcome_of (run_source (Parser.parsePrimary 1) "3.14") =
    Returned (NumberLiteral (QArith_base.Qmake 314 100) true).
Proof.
  intros p.
  pose proof C1_integer_flag_is_set_by_a_dot as (Ha & _ & _ & Hb).
  split; [reflexivity|]. split; [reflexivity|]. split.
  - exact (Ha 0 p _ eq_refl eq_refl).
  - exact (proj2 (Hb 1 (le_n 1))).
Defined.

(** C2 (the code departs from it).  Of the three kinds of parse failure only
    the one raised by [expect] has the line in its text, the line of the
    token found in place of the expected one.  The text of the exception that
    [parseType] throws on a token that is no type keyword is [Expected type],
    and the text of the one that [parsePrimary] throws on a token that starts
    no expression is [Unexpected token in expression]: neither has a line,
    whatever the line of the token. *)
Theorem C2_only_expect_reports_the_line :
  (forall (ty : TokenType.t) (message : string) (p : Parser.t),
      type (Parser.current p) <> ty ->
      Parser.expect ty message p =
        Parser.Throw (message ++ " at line " ++ to_string (line (Parser.current p))) p) /\
  (forall p : Parser.t,
      Parser.is_type_keyword (type (Parser.current p)) = false ->
      Parser.parseType p = Parser.Throw "Expected type" (Parser.advance p)) /\
  (forall (f : nat) (p : Parser.t),
      starts_primary (type (Parser.current p)) = false ->
      Parser.parsePrimary (S f) p =
        Parser.Throw "Unexpected token in expression" p) /\
  (forall fuel : nat,
      20 <= fuel ->
      outcome_of (parse_source fuel ("entjera" ++ String LF "x")) =
        Thrown "Expected ';' at line 2" /\
      outcome_of (parse_source fuel ("funkcio f(" ++ String LF "x y) entjera { }")) =
        Thrown "Expected type" /\
      outcome_of (parse_source fuel ("x = " ++ String LF ";")) =
        Thrown "Unexpected token in expression").
Proof.
  split; [exact expect_false|]. split; [|split].
  - intros p H. unfold Parser.parseType, Parser.bind, Parser.currentM, Parser.advanceM.
    destruct (type (Parser.current p)); try discriminate H; reflexivity.
  - intros f p H.
    cbn [Parser.parsePrimary]. unfold Parser.bind, Parser.currentM.
    cbv beta iota zeta.
    destruct (type (Parser.current p)) eqn:Et; try discriminate H;
      cbn [TokenType.eqb orb]; cbv beta iota;
      (rewrite (match_false TokenType.At p) by (rewrite Et; discriminate));
      cbv beta iota;
      (rewrite (match_false TokenType.LParen p) by (rewrite Et; discriminate));
      reflexivity.
  - intros fuel Hf. repeat split;
      (apply (parse_source_more_fuel 20 fuel _ _ Hf); [|discriminate]);
      vm_compute; reflexivity.
Qed.

Lemma C2_only_expect_reports_the_line_witness :
  let tokens :=
    [ mkToken TokenType.Semicolon ";" 7 0;
      mkToken TokenType.EndOfFile EmptyString 7 1 ] in
  (type (Parser.current (Parser.init tokens)) <> TokenType.RParen /\
   Parser.expect TokenType.RParen "Expected ')'" (Parser.init tokens) =
     Parser.Throw "Expected ')' at line 7" (Parser.init tokens)) /\
  (Parser.is_type_keyword (type (Parser.current (Parser.init tokens))) = false /\
   Parser.parseType (Parser.init tokens) =
     Parser.Throw "Expected type" (Parser.mk tokens 1)) /\
  (starts_primary (type (Parser.current (Parser.init tokens))) = false /\
   Parser.parsePrimary 1 (Parser.init tokens) =
     Parser.Throw "Unexpected token in expression" (Parser.init tokens)) /\
  (20 <= 20 /\
   outcome_of (parse_source 20 ("x = " ++ String LF ";")) =
     Thrown "Unexpected token in expression").
Proof.
  intros tokens.
  pose proof C2_only_expect_reports_the_line as (Ha & Hb & Hc & Hd).
  split; [|split; [|split]].
  - assert (H : type (Parser.current (Parser.init tokens)) <> TokenType.RParen)
      by discriminate.
    split; [exact H | exact (Ha _ "Expected ')'" _ H)].
  - split; [reflexivity | exact (Hb (Parser.init tokens) eq_refl)].
  - split; [reflexivity | exact (Hc 0 (Parser.init tokens) eq_refl)].
  - split; [apply le_n | exact (proj2 (proj2 (Hd 20 (le_n 20))))].
Defined.

(** C4.  Between three operands, the second of two binary operators takes the
    middle operand only when its level is higher than the level of the first
    (a multiplicative operator after an additive one, either after a
    comparison); with two operators of one level, or a lower one second, the
    first operation is the left operand of the second.  So every level
    associates to the left and a multiplication binds tighter than an
    addition: [1 + 2 * 3] is the addition of 1 and of the product of 2 and 3,
    and [1 - 2 - 3] is the subtraction of 3 from the difference of 1 and 2. *)
Theorem C4_precedence_and_left_associativity :
  (forall (a b c : string) (ty1 ty2 : TokenType.t) (l1 l2 : nat)
          (op1 op2 : OpType.t) (fuel : nat),
      binary_level ty1 = Some (l1, op1) ->
      binary_level ty2 = Some (l2, op2) ->
      12 <= fuel ->
      outcome_of (Parser.parseExpression fuel
                    (Parser.init (infix_tokens a ty1 b ty2 c))) =
        Returned
          (if (l1 <? l2)%nat
           then BinaryOpNode op1 (VarRefNode a)
                             (BinaryOpNode op2 (VarRefNode b) (VarRefNode c))
           else BinaryOpNode op2
                             (BinaryOpNode op1 (VarRefNode a) (VarRefNode b))
                             (VarRefNode c))) /\
  (forall fuel : nat,
      12 <= fuel ->
      let lit (n : Z) := NumberLiteral (QArith_base.Qmake n 1) false in
      outcome_of (run_source (Parser.parseExpression fuel) "1 + 2 * 3") =
        Returned (BinaryOpNode OpType.Add (lit 1%Z)
                               (BinaryOpNode OpType.Mul (lit 2%Z) (lit 3%Z))) /\
      outcome_of (run_source (Parser.parseExpression fuel) "1 - 2 - 3") =
        Returned (BinaryOpNode OpType.Sub
                               (BinaryOpNode OpType.Sub (lit 1%Z) (lit 2%Z)) (lit 3%Z)) /\
      outcome_of (parse_source fuel "1 + 2 * 3;") =
        Returned (mkProgram
                    [Expr (BinaryOpNode OpType.Add (lit 1%Z)
                                        (BinaryOpNode OpType.Mul (lit 2%Z) (lit 3%Z)))]) /\
      outcome_of (parse_source fuel "1 - 2 - 3;") =
        Returned (mkProgram
                    [Expr (BinaryOpNode OpType.Sub
                                        (BinaryOpNode OpType.Sub (lit 1%Z) (lit 2%Z))
                                        (lit 3%Z))])).
Proof.
  split.
  - intros a b c ty1 ty2 l1 l2 op1 op2 fuel H1 H2 Hf.
    apply (outcome_more_fuel (Parser.parseExpression 12));
      [now apply parseExpression_mono | | discriminate].
    destruct ty1; try discriminate H1; destruct ty2; try discriminate H2;
      inversion H1; inversion H2; subst; vm_compute; reflexivity.
  - intros fuel Hf lit. repeat split.
    + apply (parseExpression_source_more_fuel 12 fuel _ _ Hf); [|discriminate].
      vm_compute. reflexivity.
    + apply (parseExpression_source_more_fuel 12 fuel _ _ Hf); [|discriminate].
      vm_compute. reflexivity.
    + apply (parse_source_more_fuel 12 fuel _ _ Hf); [|discriminate].
      vm_compute. reflexivity.
    + apply (parse_source_more_fuel 12 fuel _ _ Hf); [|discriminate].
      vm_compute. reflexivity.
Qed.

Lemma C4_precedence_and_left_associativity_witness :
  (binary_level TokenType.Plus = Some (2, OpType.Add) /\
   binary_level TokenType.Multiply = Some (3, OpType.Mul) /\
   12 <= 12 /\
   outcome_of (Parser.parseExpression 12
                 (Parser.init (infix_tokens "a" TokenType.Plus "b"
                                            TokenType.Multiply "c"))) =
     Returned (BinaryOpNode OpType.Add (VarRefNode "a")
                 (BinaryOpNode OpType.Mul (VarRefNode "b") (VarRefNode "c")))) /\
  (12 <= 12 /\
   outcome_of (run_source (Parser.parseExpression 12) "1 - 2 - 3") =
     Returned (BinaryOpNode OpType.Sub
                 (BinaryOpNode OpType.Sub
                    (NumberLiteral (QArith_base.Qmake 1 1) false)
                    (NumberLiteral (QArith_base.Qmake 2 1) false))
                 (NumberLiteral (QArith_base.Qmake 3 1) false))).
Proof.
  pose proof C4_precedence_and_left_associativity as (Ha & Hb).
  split.
  - split; [reflexivity|]. split; [reflexivity|]. split; [apply le_n|].
    exact (Ha "a" "b" "c" TokenType.Plus TokenType.Multiply 2 3
              OpType.Add OpType.Mul 12 eq_refl eq_refl (le_n 12)).
  - split; [apply le_n|].
    exact (proj1 (proj2 (Hb 12 (le_n 12)))).
Defined.

(** * Further properties of the parser *)

Section ParserCursor.

Import Parser.

(** ** The cursor stays inside the tokens *)

Lemma cursor_kept_refl (p : t) : cursor_kept p p.
Proof. unfold cursor_kept. auto. Qed.

Lemma cursor_kept_trans (p1 p2 p3 : t) :
  cursor_kept p1 p2 -> cursor_kept p2 p3 -> cursor_kept p1 p3.
Proof.
  unfold cursor_kept. intros (E1 & L1 & B1) (E2 & L2 & B2).
  rewrite E1 in *. repeat split; [congruence | lia | auto].
Qed.

Lemma cursor_kept_advance (p : t) : cursor_kept p (advance p).
Proof.
  unfold cursor_kept, advance.
  destruct (m_position p <? List.length (m_tokens p) - 1)%nat eqn:E; simpl.
  - apply Nat.ltb_lt in E. repeat split; lia.
  - auto.
Qed.

Lemma keeps_ret {A : Type} (a : A) : keeps (ret a).
Proof. intros p. apply cursor_kept_refl. Qed.

Lemma keeps_throw {A : Type} (w : string) : keeps (@throw A w).
Proof. intros p. apply cursor_kept_refl. Qed.

Lemma keeps_bottom {A : Type} : keeps (fun _ : t => @OutOfFuel A).
Proof. intros p. exact I. Qed.

Lemma keeps_bind {A B : Type} (m : M A) (k : A -> M B) :
  keeps m -> (forall a, keeps (k a)) -> keeps (bind m k).
Proof.
  intros Hm Hk p. unfold bind. specialize (Hm p).
  destruct (m p) as [a p1 | w p1 |]; [|exact Hm | exact I].
  specialize (Hk a p1).
  destruct (k a p1) as [b p2 | w p2 |]; [| | exact I];
    eapply cursor_kept_trans; eauto.
Qed.

Lemma keeps_currentM : keeps currentM.
Proof. intros p. apply cursor_kept_refl. Qed.

Lemma keeps_advanceM : keeps advanceM.
Proof. intros p. apply cursor_kept_advance. Qed.

Lemma keeps_match (ty : TokenType.t) : keeps (match_ ty).
Proof.
  intros p. unfold match_. destruct (TokenType.eqb _ _).
  - apply cursor_kept_advance.
  - apply cursor_kept_refl.
Qed.

Lemma keeps_expect (ty : TokenType.t) (message : string) :
  keeps (expect ty message).
Proof.
  unfold expect. apply keeps_bind; [apply keeps_match|].
  intros [|]; [apply keeps_ret|].
  apply keeps_bind; [apply keeps_currentM | intro; apply keeps_throw].
Qed.

Lemma keeps_parseType : keeps parseType.
Proof.
  unfold parseType. apply keeps_bind; [apply keeps_currentM | intro tok].
  apply keeps_bind; [apply keeps_advanceM | intros _].
  destruct (type tok); first [apply keeps_ret | apply keeps_throw].
Qed.

Ltac keep :=
  repeat first
    [ apply keeps_ret | apply keeps_throw | apply keeps_currentM
    | apply keeps_advanceM | apply keeps_match | apply keeps_expect
    | apply keeps_parseType
    | match goal with
      | H : keeps ?m |- keeps ?m => exact H
      | H : forall _, keeps _ |- keeps _ => apply H
      end
    | apply keeps_bind; [| intro]
    | match goal with
      | |- keeps (if ?c then _ else _) => destruct c
      | |- keeps (match ?x with _ => _ end) => destruct x
      end ].

Lemma rules_keep_all (f : nat) : rules_keep f.
Proof.
  induction f as [|f IH].
  - repeat split; intros; apply keeps_bottom.
  - destruct IH as (I1 & I2 & I3 & I4 & I5 & I6 & I7 & I8 & I9 & I10 & I11 & I12).
    repeat split; intros.
    + cbn [parsePrimary]. keep.
    + cbn [parsePostfix]. keep.
    + cbn [parsePostfix_loop]. keep.
    + cbn [parseMultiplicative]. keep.
    + cbn [parseMultiplicative_loop]. keep.
    + cbn [parseAdditive]. keep.
    + cbn [parseAdditive_loop]. keep.
    + cbn [parseComparison]. keep.
    + cbn [parseComparison_loop]. keep.
    + cbn [parseExpression]. keep.
    + cbn [parseBlock]. keep.
    + cbn [parseStatement]. keep.
Qed.

Lemma keeps_parse_loop (f : nat) : forall stmts, keeps (parse_loop f stmts).
Proof.
  induction f as [|f IH]; intros stmts; [apply keeps_bottom|].
  pose proof (rules_keep_all f)
    as (_ & _ & _ & _ & _ & _ & _ & _ & _ & _ & _ & I12).
  cbn [parse_loop]. keep.
Qed.

Lemma keeps_parse (f : nat) : keeps (parse f).
Proof.
  unfold parse. apply keeps_bind; [apply keeps_parse_loop | intro; apply keeps_ret].
Qed.

(** X1.  Whatever [parse()] does on a vector with a token in it, it leaves the
    tokens as they were and the cursor on one of them: when it has returned
    and when it has thrown, [getCurrentPosition()] is below the number of
    tokens and [getCurrentToken()] is a token of the vector. *)
Theorem parse_keeps_cursor_inside :
  forall (fuel : nat) (tokens : list Token),
    tokens <> [] ->
    match parse fuel (init tokens) with
    | Ok _ p' | Throw _ p' =>
        m_tokens p' = tokens /\
        getCurrentPosition p' < List.length tokens /\
        In (getCurrentToken p') tokens
    | OutOfFuel => True
    end.
Proof.
  intros fuel tokens Hne.
  pose proof (keeps_parse fuel (init tokens)) as H.
  assert (Hlen : 0 < List.length tokens)
    by (destruct tokens; [contradiction | simpl; lia]).
  assert (Hin : forall p', cursor_kept (init tokens) p' ->
            m_tokens p' = tokens /\
            getCurrentPosition p' < List.length tokens /\
            In (getCurrentToken p') tokens).
  { intros p' (E & _ & B). simpl in E, B. specialize (B Hlen).
    split; [exact E|]. split; [exact B|].
    unfold getCurrentToken, current. rewrite E. now apply nth_In. }
  destruct (parse fuel (init tokens)); auto.
Qed.

End ParserCursor.

(** * The parser comes back on tokens closed by an end-of-input token *)

Section ParserTermination.

Import Parser.

Variable tokens : list Token.
Hypothesis closed : ends_with_eof tokens.

Lemma nth_last_eof (d : Token) :
  type (nth (List.length tokens - 1) tokens d) = TokenType.EndOfFile.
Proof.
  destruct closed as (body & eof & -> & E).
  rewrite length_app. simpl.
  replace (List.length body + 1 - 1) with (List.length body) by lia.
  now rewrite nth_middle.
Qed.

(** A token that is not the end of input is not the last one. *)
Lemma not_eof_not_last (r : nat) (p : t) :
  before tokens r p -> type (current p) <> TokenType.EndOfFile ->
  m_position p < List.length tokens - 1.
Proof.
  intros (E & B & _) H.
  destruct (Nat.eq_dec (m_position p) (List.length tokens - 1)) as [Heq|]; [|lia].
  exfalso. apply H. unfold current. rewrite E, Heq. apply nth_last_eof.
Qed.

Lemma before_advance (r : nat) (p : t) :
  before tokens r p -> type (current p) <> TokenType.EndOfFile ->
  before tokens (r - 1) (advance p).
Proof.
  intros Hb H. pose proof (not_eof_not_last r p Hb H) as Hlt.
  destruct Hb as (E & B & L). unfold advance. rewrite E.
  destruct (Nat.ltb_spec (m_position p) (List.length tokens - 1)); [|lia].
  unfold before, tokens_left in *. simpl. rewrite E in *.
  repeat split; lia.
Qed.

Lemma before_weaken (r r' : nat) (p : t) :
  before tokens r p -> r <= r' -> before tokens r' p.
Proof. intros (E & B & L) H. repeat split; auto. lia. Qed.

(** ** The rules of the triples *)

Lemma runs_ret {A : Type} (P : t -> Prop) (Q : A -> t -> Prop) (a : A) :
  (forall p, P p -> Q a p) -> runs P (ret a) Q.
Proof. intros H p Hp. now apply H. Qed.

Lemma runs_throw {A : Type} (P : t -> Prop) (Q : A -> t -> Prop) (w : string) :
  runs P (throw w) Q.
Proof. intros p Hp. exact I. Qed.

Lemma runs_bind {A B : Type} (P : t -> Prop) (Mid : A -> t -> Prop)
      (Q : B -> t -> Prop) (m : M A) (k : A -> M B) :
  runs P m Mid -> (forall a, runs (Mid a) (k a) Q) -> runs P (bind m k) Q.
Proof.
  intros Hm Hk p Hp. unfold bind. specialize (Hm p Hp).
  destruct (m p) as [a p1 | w p1 |]; [|exact I | exact Hm].
  exact (Hk a p1 Hm).
Qed.

Lemma runs_pre {A : Type} (P P' : t -> Prop) (Q : A -> t -> Prop) (m : M A) :
  (forall p, P p -> P' p) -> runs P' m Q -> runs P m Q.
Proof. intros H Hm p Hp. apply Hm. now apply H. Qed.

Lemma runs_post {A : Type} (P : t -> Prop) (Q Q' : A -> t -> Prop) (m : M A) :
  (forall a p, Q a p -> Q' a p) -> runs P m Q -> runs P m Q'.
Proof.
  intros H Hm p Hp. specialize (Hm p Hp).
  destruct (m p); auto.
Qed.

(** [currentM], with the cursor it was read at. *)
Lemma runs_current {B : Type} (P : t -> Prop) (Q : B -> t -> Prop)
      (k : Token -> M B) :
  (forall p0, P p0 -> runs (fun p => p = p0) (k (current p0)) Q) ->
  runs P (bind currentM k) Q.
Proof.
  intros H p Hp. unfold bind, currentM. exact (H p Hp p eq_refl).
Qed.

Lemma runs_at {A : Type} (P : t -> Prop) (Q : A -> t -> Prop) (m : M A) (p0 : t) :
  P p0 -> runs P m Q -> runs (fun p => p = p0) m Q.
Proof. intros Hp Hm p ->. now apply Hm. Qed.

Lemma runs_advance_at {B : Type} (r : nat) (Q : B -> t -> Prop) (k : M B) (p0 : t) :
  before tokens r p0 -> type (current p0) <> TokenType.EndOfFile ->
  runs (before tokens (r - 1)) k Q ->
  runs (fun p => p = p0) (bind advanceM (fun _ => k)) Q.
Proof.
  intros Hb Ht Hk p ->. unfold bind, advanceM.
  apply Hk. now apply before_advance.
Qed.

Lemma runs_match (r : nat) (ty : TokenType.t) :
  ty <> TokenType.EndOfFile ->
  runs (before tokens r) (match_ ty)
       (fun b => if b then before tokens (r - 1) else before tokens r).
Proof.
  intros Hty p Hp. unfold match_.
  destruct (TokenType.eqb (type (current p)) ty) eqn:E; [|exact Hp].
  apply TokenType_eqb_eq in E. apply before_advance; [exact Hp | congruence].
Qed.

(** [match], with the cursor it has left alone. *)
Lemma runs_match_at (r : nat) (ty : TokenType.t) (p0 : t) :
  before tokens r p0 -> ty <> TokenType.EndOfFile ->
  runs (fun p => p = p0) (match_ ty)
       (fun b => if b then before tokens (r - 1) else fun p => p = p0).
Proof.
  intros Hp Hty p ->. unfold match_.
  destruct (TokenType.eqb (type (current p0)) ty) eqn:E; [|reflexivity].
  apply TokenType_eqb_eq in E. apply before_advance; [exact Hp | congruence].
Qed.

Lemma runs_current_at {B : Type} (Q : B -> t -> Prop) (k : Token -> M B) (p0 : t) :
  runs (fun p => p = p0) (k (current p0)) Q ->
  runs (fun p => p = p0) (bind currentM k) Q.
Proof. intros H p ->. unfold bind, currentM. now apply H. Qed.

Lemma runs_expect (r : nat) (ty : TokenType.t) (message : string) :
  ty <> TokenType.EndOfFile ->
  runs (before tokens r) (expect ty message) (fun _ => before tokens (r - 1)).
Proof.
  intros Hty. unfold expect.
  eapply runs_bind; [now apply runs_match|].
  intros [|]; [apply runs_ret; auto|].
  apply runs_current. intros p0 _. apply runs_throw.
Qed.

Lemma runs_parseType (r : nat) :
  runs (before tokens r) parseType (fun _ => before tokens (r - 1)).
Proof.
  unfold parseType. apply runs_current. intros p0 Hp0.
  destruct (TokenType.eqb (type (current p0)) TokenType.EndOfFile) eqn:E.
  - apply TokenType_eqb_eq in E. rewrite E.
    intros p ->. exact I.
  - assert (Hne : type (current p0) <> TokenType.EndOfFile).
    { intros H. rewrite H in E. discriminate E. }
    apply (runs_advance_at r _ _ p0 Hp0 Hne).
    destruct (type (current p0)); first [apply runs_ret; auto | apply runs_throw].
Qed.

(** ** Every rule has fuel enough *)

Lemma before_zero {A : Type} (m : M A) (Q : A -> t -> Prop) :
  runs (before tokens 0) m Q.
Proof. intros p (_ & _ & H). lia. Qed.

Ltac not_eof :=
  let H := fresh in
  intros H; rewrite H in *; discriminate.

Ltac weaken :=
  intros; subst; cbv beta in *;
  first [ eassumption
        | eapply before_weaken; [eassumption | lia] ].

Ltac run :=
  repeat first
    [ apply runs_throw
    | apply runs_ret; solve [weaken]
    | match goal with
      | Hp : before tokens ?r ?p0 |- runs (fun p => p = ?p0) ?m _ =>
          first
            [ apply (runs_advance_at r _ _ p0 Hp); [not_eof|]
            | eapply runs_bind;
              [apply (runs_match_at r _ p0 Hp); discriminate
              | intros [|]; cbv beta iota]
            | apply runs_current_at; cbv beta zeta
            | match m with
              | (if ?c then _ else _) => destruct c eqn:?
              | (match ?x with _ => _ end) => destruct x eqn:?
              end
            | apply (runs_at (before tokens r) _ _ p0 Hp) ]
      end
    | eapply runs_bind; [apply runs_match; discriminate | intros [|]; cbv beta iota]
    | eapply runs_bind; [apply runs_expect; discriminate | intro; cbv beta]
    | eapply runs_bind; [apply runs_parseType | intro; cbv beta]
    | apply runs_current; intros ? ?; cbv beta zeta
    | match goal with
      | H : forall r, _ -> runs (before tokens r) ?m _ |- runs _ (bind ?m _) _ =>
          eapply runs_bind; [apply H; lia | intro; cbv beta]
      | H : forall e r, _ -> runs (before tokens r) (?m e) _
        |- runs _ (bind (?m _) _) _ =>
          eapply runs_bind; [apply H; lia | intro; cbv beta]
      | H : forall r, _ -> runs (before tokens r) ?m _ |- runs _ ?m _ =>
          eapply runs_post; [| apply H; lia]; solve [weaken]
      | H : forall e r, _ -> runs (before tokens r) (?m e) _ |- runs _ (?m _) _ =>
          eapply runs_post; [| apply H; lia]; solve [weaken]
      | |- runs _ (if ?c then _ else _) _ => destruct c eqn:?
      | |- runs _ (match ?x with _ => _ end) _ => destruct x eqn:?
      | |- runs (before tokens ?x) (bind _ _) _ =>
          apply (runs_bind _ (fun _ => before tokens x)); [| intro; cbv beta]
      end ].

Lemma rules_run_all (f : nat) : rules_run tokens f.
Proof.
  induction f as [|f IH].
  - repeat split; intros;
      (replace r with 0 by lia); apply before_zero.
  - destruct IH as (I1 & I2 & I3 & I4 & I5 & I6 & I7 & I8 & I9 & I10 & I11 & I12).
    repeat split; intros.
    + cbn [parsePrimary]. run.
    + cbn [parsePostfix]. run.
    + cbn [parsePostfix_loop]. run.
    + cbn [parseMultiplicative]. run.
    + cbn [parseMultiplicative_loop]. run.
    + cbn [parseAdditive]. run.
    + cbn [parseAdditive_loop]. run.
    + cbn [parseComparison]. run.
    + cbn [parseComparison_loop]. run.
    + cbn [parseExpression]. run.
    + cbn [parseBlock]. run.
    + cbn [parseStatement]. run.
Qed.

Lemma runs_parse_loop (f : nat) :
  forall stmts r,
    8 * r <= f ->
    runs (before tokens r) (parse_loop f stmts) (fun _ => before tokens r).
Proof.
  induction f as [|f IH]; intros stmts r H.
  - replace r with 0 by lia. apply before_zero.
  - pose proof (rules_run_all f)
      as (_ & _ & _ & _ & _ & _ & _ & _ & _ & _ & _ & I12).
    cbn [parse_loop]. run.
Qed.

Lemma runs_parse (f : nat) :
  8 * List.length tokens <= f ->
  parse f (init tokens) <> OutOfFuel.
Proof.
  intros H.
  assert (Hinit : before tokens (List.length tokens) (init tokens)).
  { destruct closed as (body & eof & E & _).
    unfold before, tokens_left, init. simpl.
    rewrite E, length_app. simpl. repeat split; lia. }
  pose proof (runs_parse_loop f [] _ H (init tokens) Hinit) as Hr.
  unfold parse, bind.
  destruct (parse_loop f [] (init tokens)); [discriminate | discriminate | destruct Hr].
Qed.

End ParserTermination.

Section ParserTerminationFacts.

Import Parser.

(** X2.  On a vector of tokens closed by an end-of-input token, [parse()]
    comes back, with a tree or with an exception: fuel for eight steps a token
    is always enough, so the recursion of the rules and their loops end. *)
Theorem parse_comes_back :
  forall (tokens : list Token) (fuel : nat),
    ends_with_eof tokens ->
    8 * List.length tokens <= fuel ->
    parse fuel (init tokens) <> OutOfFuel.
Proof. intros tokens fuel Hc Hf. now apply runs_parse. Qed.

Lemma parse_comes_back_witness :
  let tokens :=
    [ mkToken TokenType.LParen "(" 1 0;
      mkToken TokenType.Identifier "x" 1 1;
      mkToken TokenType.EndOfFile EmptyString 1 2 ] in
  ends_with_eof tokens /\ 8 * List.length tokens <= 24 /\
  parse 24 (init tokens) <> OutOfFuel.
Proof.
  intros tokens.
  assert (Hc : ends_with_eof tokens).
  { exists [ mkToken TokenType.LParen "(" 1 0;
             mkToken TokenType.Identifier "x" 1 1 ],
           (mkToken TokenType.EndOfFile EmptyString 1 2).
    split; reflexivity. }
  split; [exact Hc|]. split; [simpl; lia|].
  exact (parse_comes_back tokens 24 Hc (le_n 24)).
Defined.

(** ** A vector that ends with an opening parenthesis *)

Lemma advance_last (p : t) :
  m_position p = List.length (m_tokens p) - 1 -> advance p = p.
Proof.
  intros H. unfold advance.
  destruct (Nat.ltb_spec (m_position p) (List.length (m_tokens p) - 1));
    [lia | reflexivity].
Qed.

Lemma stuck_rules (p : t) :
  m_position p = List.length (m_tokens p) - 1 ->
  type (current p) = TokenType.LParen ->
  forall f,
    parsePrimary f p = OutOfFuel /\ parsePostfix f p = OutOfFuel /\
    parseMultiplicative f p = OutOfFuel /\ parseAdditive f p = OutOfFuel /\
    parseComparison f p = OutOfFuel /\ parseExpression f p = OutOfFuel /\
    parseStatement f p = OutOfFuel.
Proof.
  intros Hlast Hty f. pose proof (advance_last p Hlast) as Hadv.
  induction f as [|f (I1 & I2 & I3 & I4 & I5 & I6 & I7)].
  - repeat split.
  - repeat split.
    + cbn [parsePrimary]. unfold bind, currentM. cbv beta iota zeta.
      rewrite Hty. cbn [TokenType.eqb]. cbv beta iota.
      rewrite (match_false TokenType.At p) by (rewrite Hty; discriminate).
      cbv beta iota. rewrite (match_true _ p Hty), Hadv. cbv beta iota.
      now rewrite I6.
    + cbn [parsePostfix]. unfold bind. now rewrite I1.
    + cbn [parseMultiplicative]. unfold bind. now rewrite I2.
    + cbn [parseAdditive]. unfold bind. now rewrite I3.
    + cbn [parseComparison]. unfold bind. now rewrite I4.
    + cbn [parseExpression]. exact I5.
    + cbn [parseStatement]. unfold bind, currentM. cbv beta iota zeta.
      rewrite Hty. cbn [is_type_keyword]. cbv beta iota.
      rewrite (match_false TokenType.Funkcio p) by (rewrite Hty; discriminate).
      cbv beta iota.
      rewrite (match_false TokenType.Reveni p) by (rewrite Hty; discriminate).
      cbv beta iota.
      rewrite (match_false TokenType.Se p) by (rewrite Hty; discriminate).
      cbv beta iota.
      rewrite (match_false TokenType.Dum p) by (rewrite Hty; discriminate).
      cbv beta iota. now rewrite I6.
Qed.

(** X3.  With the cursor on the last token of a vector and that token an
    opening parenthesis (no end-of-input token closes the vector),
    [parsePrimary] matches the parenthesis without moving and calls
    [parseExpression] on the same token again: the rules and [parse()] never
    come back, whatever the fuel. *)
Theorem parse_never_comes_back_on_last_lparen :
  forall (p : t) (fuel : nat),
    m_position p = List.length (m_tokens p) - 1 ->
    type (current p) = TokenType.LParen ->
    parsePrimary fuel p = OutOfFuel /\
    parseExpression fuel p = OutOfFuel /\
    parseStatement fuel p = OutOfFuel /\
    parse fuel p = OutOfFuel.
Proof.
  intros p fuel Hlast Hty.
  destruct (stuck_rules p Hlast Hty fuel) as (I1 & _ & _ & _ & _ & I6 & I7).
  repeat split; auto.
  unfold parse, bind. destruct fuel as [|f]; [reflexivity|].
  cbn [parse_loop]. unfold bind, currentM. rewrite Hty. cbn [TokenType.eqb negb].
  cbv beta iota.
  destruct (stuck_rules p Hlast Hty f) as (_ & _ & _ & _ & _ & _ & ->).
  reflexivity.
Qed.

Lemma parse_never_comes_back_on_last_lparen_witness :
  let p := init [ mkToken TokenType.Identifier "f" 1 0;
                  mkToken TokenType.LParen "(" 1 1 ] in
  m_position (advance p) = List.length (m_tokens (advance p)) - 1 /\
  type (current (advance p)) = TokenType.LParen /\
  parse 1000 (advance p) = OutOfFuel.
Proof.
  intros p. split; [reflexivity|]. split; [reflexivity|].
  exact (proj2 (proj2 (proj2
    (parse_never_comes_back_on_last_lparen (advance p) 1000 eq_refl eq_refl)))).
Defined.

(** ** Where [parse()] stops *)

Lemma parse_loop_stops_on_eof (f : nat) :
  forall stmts p stmts' p',
    parse_loop f stmts p = Ok stmts' p' ->
    type (current p') = TokenType.EndOfFile /\
    exists more, stmts' = stmts ++ more.
Proof.
  induction f as [|f IH]; intros stmts p stmts' p' H; [discriminate H|].
  cbn [parse_loop] in H. unfold bind at 1 in H. unfold currentM in H.
  destruct (TokenType.eqb (type (current p)) TokenType.EndOfFile) eqn:E;
    cbn [negb] in H; cbv beta iota in H.
  - inversion H; subst. apply TokenType_eqb_eq in E. split; [exact E|].
    exists []. now rewrite app_nil_r.
  - apply bind_Ok in H as (stmt & p1 & _ & H).
    apply IH in H as (Heof & more & ->). split; [exact Heof|].
    exists (stmt :: more). now rewrite <- app_assoc.
Qed.

(** X4.  When [parse()] returns a tree, the cursor is on an end-of-input
    token: the loop of [parse()] stops on the first end-of-input token that
    follows a statement, and on nothing else. *)
Theorem parse_returns_on_eof :
  forall (fuel : nat) (p p' : t) (prog : ProgramNode),
    parse fuel p = Ok prog p' ->
    type (getCurrentToken p') = TokenType.EndOfFile.
Proof.
  intros fuel p p' prog H. unfold parse in H.
  apply bind_Ok in H as (stmts & p1 & H1 & H2).
  unfold ret in H2. inversion H2; subst.
  now apply parse_loop_stops_on_eof in H1 as [H1 _].
Qed.

Lemma parse_returns_on_eof_witness :
  let tokens :=
    [ mkToken TokenType.Identifier "x" 1 0;
      mkToken TokenType.Semicolon ";" 1 1;
      mkToken TokenType.EndOfFile EmptyString 1 2;
      mkToken TokenType.Identifier "y" 2 0 ] in
  parse 20 (init tokens) = Ok (mkProgram [Expr (VarRefNode "x")]) (mk tokens 2) /\
  type (getCurrentToken (mk tokens 2)) = TokenType.EndOfFile.
Proof.
  intros tokens.
  assert (H : parse 20 (init tokens) =
              Ok (mkProgram [Expr (VarRefNode "x")]) (mk tokens 2))
    by (vm_compute; reflexivity).
  split; [exact H | exact (parse_returns_on_eof 20 _ _ _ H)].
Defined.

End ParserTerminationFacts.

(** * Further properties of the tokenizer *)

Section TokenizerCount.

Import Tokenizer.

Lemma tokenize_loop_count (fuel : nat) :
  forall (tokens : list Token) (s : t),
    remaining s + 2 <= fuel ->
    exists tl s',
      tokenize_loop fuel tokens s = Some (tokens ++ tl, s') /\
      List.length tl <= remaining s.
Proof.
  induction fuel as [|fuel IH]; intros tokens s Hr; [lia|].
  simpl. destruct (Ascii.eqb (current s) NUL) eqn:E; simpl.
  - exists [], s. rewrite app_nil_r. split; [reflexivity | simpl; lia].
  - apply eqb_NUL_false in E.
    destruct (tokenize_body_total fuel tokens s E) as (tokens' & s1 & -> & Hm & Ht);
      [lia|].
    assert (Hr1 : remaining s1 < remaining s).
    { pose proof (current_lt s E). destruct Hm as [Hsrc Hpos].
      unfold remaining in *. rewrite Hsrc. lia. }
    destruct (IH tokens' s1) as (tl & s' & -> & Hc); [lia|].
    destruct Ht as [-> | (tok & -> & _)].
    + exists tl, s'. split; [reflexivity | lia].
    + exists (tok :: tl), s'. rewrite <- app_assoc. simpl.
      split; [reflexivity | lia].
Qed.

(** X5.  A text gives at most one token a character, and the end-of-input
    token. *)
Theorem tokenize_count :
  forall (src : string) (toks : list Token),
    tokenize src = Some toks ->
    List.length toks <= String.length src + 1.
Proof.
  intros src toks H. unfold tokenize, tokenize_fuel in H.
  destruct (tokenize_loop_count (String.length src + 2) [] (init src))
    as (tl & s' & E & Hc).
  { unfold remaining, init. simpl. lia. }
  rewrite E in H. inversion H; subst.
  rewrite length_app. simpl in *.
  unfold remaining, init in Hc. simpl in Hc. lia.
Qed.

Lemma tokenize_count_witness :
  tokenize "a+b" =
    Some [ mkToken TokenType.Identifier "a" 1 0;
           mkToken TokenType.Plus "+" 1 1;
           mkToken TokenType.Identifier "b" 1 2;
           mkToken TokenType.EndOfFile EmptyString 1 3 ] /\
  4 <= String.length "a+b" + 1.
Proof.
  assert (H : tokenize "a+b" =
    Some [ mkToken TokenType.Identifier "a" 1 0;
           mkToken TokenType.Plus "+" 1 1;
           mkToken TokenType.Identifier "b" 1 2;
           mkToken TokenType.EndOfFile EmptyString 1 3 ]) by reflexivity.
  split; [exact H | exact (tokenize_count "a+b" _ H)].
Defined.

End TokenizerCount.

(** X6.  The driver's pipeline comes back on every text: the tokens of a text
    are closed by an end-of-input token, so [parse()] on them returns a tree
    or throws, with fuel for eight steps a character. *)
Theorem parse_source_comes_back :
  forall (src : string) (fuel : nat),
    8 * (String.length src + 1) <= fuel ->
    outcome_of (parse_source fuel src) <> NoFuel.
Proof.
  intros src fuel Hf.
  destruct (tokenize_total src) as (tl & s' & _ & _ & _ & E).
  pose proof (tokenize_count src _ E) as Hc.
  unfold parse_source. rewrite E.
  assert (Hclosed : ends_with_eof
            (tl ++ [mkToken TokenType.EndOfFile EmptyString
                      (Tokenizer.m_line s') (Tokenizer.m_column s')])).
  { eexists _, _. split; reflexivity. }
  pose proof (parse_comes_back _ fuel Hclosed ltac:(lia)) as Hp.
  destruct (Parser.parse fuel _); [discriminate | discriminate | now elim Hp].
Qed.

Lemma parse_source_comes_back_witness :
  8 * (String.length "f(" + 1) <= 24 /\
  outcome_of (parse_source 24 "f(") <> NoFuel.
Proof.
  split; [simpl; lia|].
  exact (parse_source_comes_back "f(" 24 (le_n 24)).
Defined.

(** * The types the parser writes *)

Section ParserTypes.

Import Parser.

Lemma returns_parseType : returns plain_t parseType.
Proof.
  intros p ty p'. unfold parseType, bind, currentM, advanceM.
  destruct (type (current p)); intros H; inversion H; reflexivity.
Qed.

Lemma plain_snoc (body : list ASTNode) (stmt : ASTNode) :
  plain_l body -> plain_n stmt -> plain_l (body ++ [stmt]).
Proof.
  unfold plain_l, plain_n. intros Hb Hs.
  rewrite forallb_app, Hb. simpl. now rewrite Hs.
Qed.

Lemma plain_nil : plain_l [].
Proof. reflexivity. Qed.

Ltac close_plain :=
  unfold plain_o in *; unfold plain_t, plain_e, plain_n, plain_l in *;
  cbn [expr_types_plain node_types_plain] in *;
  repeat match goal with
         | H : _ = true |- _ => rewrite H; clear H
         end;
  auto.

Ltac plain :=
  repeat first
    [ apply returns_throw
    | apply returns_ret; first [assumption | exact I | solve [close_plain]]
    | match goal with
      | H : returns _ ?m |- returns _ ?m => exact H
      | H : forall e, _ -> returns _ (?m e) |- returns _ (?m ?x) =>
          apply H; first [assumption | apply plain_nil
                         | apply plain_snoc; assumption
                         | solve [close_plain]]
      | |- returns _ (bind parseType _) =>
          apply (returns_bind plain_t); [exact returns_parseType | intros ? ?]
      | H : returns ?P ?m |- returns _ (bind ?m _) =>
          apply (returns_bind P); [exact H | intros ? ?]
      | H : forall e, _ -> returns ?P (?m e) |- returns _ (bind (?m ?x) _) =>
          apply (returns_bind P);
          [apply H; first [assumption | apply plain_nil] | intros ? ?]
      | |- returns _ (bind (if ?c then _ else _) _) => fail 1
      | |- returns _ (bind _ _) => apply returns_bind_any; intro
      | |- returns _ (if ?c then _ else _) => destruct c
      | |- returns _ (match ?x with _ => _ end) => destruct x
      end ].

Lemma rules_plain_all (f : nat) : rules_plain f.
Proof.
  induction f as [|f IH].
  - repeat split; intros; apply returns_bottom.
  - destruct IH as (I1 & I2 & I3 & I4 & I5 & I6 & I7 & I8 & I9 & I10 & I11 & I12).
    repeat split; intros.
    + cbn [parsePrimary]. plain.
    + cbn [parsePostfix]. plain.
    + cbn [parsePostfix_loop]. plain.
    + cbn [parseMultiplicative]. plain.
    + cbn [parseMultiplicative_loop]. plain.
    + cbn [parseAdditive]. plain.
    + cbn [parseAdditive_loop]. plain.
    + cbn [parseComparison]. plain.
    + cbn [parseComparison_loop]. plain.
    + cbn [parseExpression]. plain.
    + cbn [parseBlock]. plain.
    + cbn [parseStatement]. plain.
      * apply (returns_bind plain_o).
        { match goal with |- returns _ (if ?c then _ else _) => destruct c end;
            plain. }
        intros init Hinit. plain. apply returns_ret.
        destruct init; close_plain.
      * apply (returns_bind plain_l).
        { match goal with |- returns _ (if ?c then _ else _) => destruct c end;
            plain. }
        intros elseBody HelseBody. plain.
Qed.

Lemma parse_loop_plain (f : nat) :
  forall stmts, plain_l stmts -> returns plain_l (parse_loop f stmts).
Proof.
  induction f as [|f IH]; intros stmts Hs; [apply returns_bottom|].
  pose proof (rules_plain_all f)
    as (_ & _ & _ & _ & _ & _ & _ & _ & _ & _ & _ & I12).
  cbn [parse_loop]. plain.
Qed.

(** X7.  Every type written in a tree that [parse()] returns is one of the
    five kinds entjera, reala, teksta, bulea, funkcia, with no parameter
    type, no return type and no class name: the parser never builds a
    function type with its two parts ([Type::createFunction] is never
    called), a class type or the void type. *)
Theorem parse_writes_plain_types :
  forall (fuel : nat) (p p' : t) (prog : ProgramNode),
    parse fuel p = Ok prog p' ->
    forallb node_types_plain (statements prog) = true.
Proof.
  intros fuel p p' prog H. unfold parse in H.
  apply bind_Ok in H as (stmts & p1 & H1 & H2).
  apply (parse_loop_plain fuel [] plain_nil) in H1.
  unfold ret in H2. inversion H2; subst. exact H1.
Qed.

End ParserTypes.

(** * Tokens: where they start, and the text of a number *)

Section TokenizerTokens.

Import Tokenizer.

Lemma not_LF_line (s : t) :
  Ascii.eqb (current s) LF = false -> m_line (advance s) = m_line s.
Proof. intros H. now apply advance_line in H as [H _]. Qed.

Lemma isdigit_not_LF (c : ascii) :
  isdigit c || Ascii.eqb c "." = true -> Ascii.eqb c LF = false.
Proof.
  destruct (Ascii.eqb c LF) eqn:E; [|reflexivity].
  apply Ascii.eqb_eq in E. subst c. discriminate.
Qed.

Lemma isalnum_not_LF (c : ascii) :
  isalnum c || Ascii.eqb c "_" = true -> Ascii.eqb c LF = false.
Proof.
  destruct (Ascii.eqb c LF) eqn:E; [|reflexivity].
  apply Ascii.eqb_eq in E. subst c. discriminate.
Qed.

Lemma readNumber_loop_line (fuel : nat) :
  forall number isFloat s number' s',
    readNumber_loop fuel number isFloat s = Some (number', s') ->
    m_line s' = m_line s /\
    exists more, number' = (number ++ more)%string.
Proof.
  induction fuel as [|fuel IH]; intros number isFloat s number' s' H;
    [discriminate H|].
  cbn [readNumber_loop] in H.
  assert (Hstop : Some (number, s) = Some (number', s') ->
                  m_line s' = m_line s /\
                  exists more, number' = (number ++ more)%string).
  { intros E. inversion E; subst. split; [reflexivity|].
    exists EmptyString. now rewrite append_nil_r. }
  assert (Hgo : forall fl,
    isdigit (current s) || Ascii.eqb (current s) "." = true ->
    readNumber_loop fuel (push_char number (current s)) fl (advance s) =
      Some (number', s') ->
    m_line s' = m_line s /\ exists more, number' = (number ++ more)%string).
  { intros fl Hc E. apply IH in E as (Hl & more & ->).
    rewrite Hl, (not_LF_line s (isdigit_not_LF _ Hc)). split; [reflexivity|].
    exists (String (current s) more). unfold push_char.
    now rewrite append_assoc_s. }
  destruct (isdigit (current s) || Ascii.eqb (current s) ".") eqn:Ec; [|auto].
  destruct (Ascii.eqb (current s) "."); [destruct isFloat|]; eauto.
Qed.

Lemma readIdentifier_loop_line (fuel : nat) :
  forall id s id' s',
    readIdentifier_loop fuel id s = Some (id', s') -> m_line s' = m_line s.
Proof.
  induction fuel as [|fuel IH]; intros id s id' s' H; [discriminate H|].
  cbn [readIdentifier_loop] in H.
  destruct (isalnum (current s) || Ascii.eqb (current s) "_") eqn:Ec.
  - apply IH in H. rewrite H. apply not_LF_line. now apply isalnum_not_LF.
  - now inversion H.
Qed.

(** X8.  A turn of the main loop that pushes a token has skipped no blank and
    no comment, so it starts on the first character of the token.  The token
    has the column of that character; it has the line of that character
    too, unless it is a String token (whose line is the line where it
    ends). *)
Theorem token_position :
  forall (fuel : nat) (tokens : list Token) (s s' : t) (tok : Token),
    tokenize_body fuel tokens s = Some (tokens ++ [tok], s') ->
    column tok = m_column s /\
    (type tok <> TokenType.String -> line tok = m_line s).
Proof.
  intros fuel tokens s s' tok H.
  apply tokenize_body_pushed in H
    as [[_ H] | [[_ H] | [[_ H] | (ty & v & s3 & Hp & -> & ->)]]].
  - unfold readNumber in H.
    destruct (readNumber_loop fuel EmptyString false s) as [[n s1]|] eqn:E;
      [|discriminate].
    inversion H; subst. apply readNumber_loop_line in E as [E _].
    split; [reflexivity | intros _; exact E].
  - pose proof (readString_type _ _ _ _ H) as Ht. unfold readString in H.
    destruct (readString_loop fuel EmptyString (advance s)) as [[str s1]|];
      [|discriminate].
    inversion H; subst. split; [reflexivity | intros Hn; now elim Hn].
  - unfold readIdentifier in H.
    destruct (readIdentifier_loop fuel EmptyString s) as [[id s1]|] eqn:E;
      [|discriminate].
    inversion H; subst. apply readIdentifier_loop_line in E.
    split; [reflexivity | intros _; exact E].
  - destruct (punctuation_spec s _ _ _ Hp) as (_ & _ & Hl & _).
    split; [reflexivity | intros _; exact Hl].
Qed.

Lemma token_position_witness :
  let s := mk ("a" ++ String LF "  xy z") 4 2 2 in
  let tok := mkToken TokenType.Identifier "xy" 2 2 in
  tokenize_body 9 [] s = Some ([] ++ [tok], mk ("a" ++ String LF "  xy z") 6 2 4) /\
  column tok = m_column s /\
  (type tok <> TokenType.String -> line tok = m_line s).
Proof.
  intros s tok.
  assert (H : tokenize_body 9 [] s =
              Some ([] ++ [tok], mk ("a" ++ String LF "  xy z") 6 2 4))
    by reflexivity.
  split; [exact H | exact (token_position 9 [] s _ tok H)].
Defined.

(** ** The text of a Number token *)

Lemma read_digits_count (text : string) :
  forall acc n v n' rest,
    read_digits text acc n = (v, n', rest) -> n <= n'.
Proof.
  induction text as [|c text IH]; intros acc n v n' rest H; simpl in H.
  - inversion H. lia.
  - destruct (isdigit c).
    + apply IH in H. lia.
    + inversion H. lia.
Qed.

Lemma stod_digit_first (d : ascii) (text : string) :
  isdigit d = true -> exists v, stod (String d text) = Some v.
Proof.
  intros Hd. unfold stod. cbn [read_digits]. rewrite Hd.
  destruct (read_digits text _ 1) as [[ip ni] rest] eqn:E.
  apply read_digits_count in E.
  destruct rest as [|c rest].
  - destruct ni; [lia | eexists; reflexivity].
  - destruct (Ascii.eqb c ".") eqn:Ec.
    + apply Ascii.eqb_eq in Ec. subst c.
      destruct (read_digits rest ip 0) as [[v nf] r'].
      destruct (ni + nf =? 0)%nat eqn:E0.
      * apply Nat.eqb_eq in E0. lia.
      * eexists; reflexivity.
    + assert (Hn : exists v, (if (ni =? 0)%nat then None
                              else Some (QArith_base.Qmake ip 1)) = Some v).
      { destruct ni; [lia | eexists; reflexivity]. }
      destruct c as [[] [] [] [] [] [] [] []]; try exact Hn; discriminate Ec.
Qed.

Lemma readNumber_text (fuel : nat) (s s' : t) (tok : Token) :
  isdigit (current s) = true ->
  readNumber fuel s = Some (tok, s') ->
  exists more, value tok = String (current s) more.
Proof.
  intros Hd. unfold readNumber.
  destruct fuel as [|fuel]; [discriminate|]. cbn [readNumber_loop].
  rewrite Hd. cbn [orb].
  destruct (Ascii.eqb (current s) ".") eqn:Edot.
  { apply Ascii.eqb_eq in Edot. rewrite Edot in Hd. discriminate Hd. }
  destruct (readNumber_loop fuel _ false (advance s)) as [[n s1]|] eqn:E;
    [|discriminate].
  intros H. inversion H; subst. apply readNumber_loop_line in E as (_ & more & ->).
  exists more. reflexivity.
Qed.

Lemma Id2TokenType_keyword (id : string) (ty : TokenType.t) :
  map_find Id2TokenType id = Some ty -> is_keyword ty = true.
Proof.
  unfold Id2TokenType, map_find.
  repeat match goal with
         | |- context [String.eqb ?a ?b] => destruct (String.eqb a b)
         end;
    intros H; inversion H; reflexivity.
Qed.

Lemma readIdentifier_kind (fuel : nat) (s s' : t) (tok : Token) :
  readIdentifier fuel s = Some (tok, s') ->
  type tok = TokenType.Identifier \/ is_keyword (type tok) = true.
Proof.
  unfold readIdentifier.
  destruct (readIdentifier_loop _ _ _) as [[id ?]|]; [|discriminate].
  destruct (map_find Id2TokenType id) eqn:Ef;
    intros H; injection H as Ht _; subst tok; cbn [type].
  - right. now apply Id2TokenType_keyword in Ef.
  - now left.
Qed.

Lemma punctuation_never_a_word (s : t) :
  forall ty v s3,
    punctuation s = (ty, v, s3) ->
    ty <> TokenType.Number /\ ty <> TokenType.String /\
    ty <> TokenType.Identifier /\ is_keyword ty = false.
Proof.
  intros ty v s3. unfold punctuation.
  repeat match goal with
         | |- context [if Ascii.eqb (current s) ?c then _ else _] =>
             destruct (Ascii.eqb (current s) c)
         end;
    try destruct (Ascii.eqb (peek 1 s) "=");
    intros H; inversion H; subst; repeat split; discriminate.
Qed.

(** The tokens that the main loop pushes all satisfy what each pushed token
    satisfies. *)
Lemma tokenize_body_shape (fuel : nat) (tokens : list Token) (s s' : t)
      (tokens' : list Token) :
  tokenize_body fuel tokens s = Some (tokens', s') ->
  tokens' = tokens \/ exists tok, tokens' = tokens ++ [tok].
Proof.
  unfold tokenize_body.
  destruct (skipWhitespace fuel s) as [[[|] s1]|]; try discriminate.
  { intros H. inversion H. now left. }
  destruct (skipComment fuel s1) as [[[|] s2]|]; try discriminate.
  { intros H. inversion H. now left. }
  destruct (isdigit (current s2)).
  { destruct (readNumber fuel s2) as [[tok s3]|]; [|discriminate].
    intros H. inversion H. right. now exists tok. }
  destruct (Ascii.eqb (current s2) DQUOTE).
  { destruct (readString fuel s2) as [[tok s3]|]; [|discriminate].
    intros H. inversion H. right. now exists tok. }
  destruct (isalpha (current s2) || Ascii.eqb (current s2) "_").
  { destruct (readIdentifier fuel s2) as [[tok s3]|]; [|discriminate].
    intros H. inversion H. right. eexists; reflexivity. }
  destruct (punctuation s2) as [[ty v] s3].
  intros H. inversion H. right. eexists; reflexivity.
Qed.

Lemma tokenize_loop_Forall (P : Token -> Prop) :
  (forall fuel tokens s s' tok,
      tokenize_body fuel tokens s = Some (tokens ++ [tok], s') -> P tok) ->
  forall fuel tokens s tokens' s',
    Forall P tokens ->
    tokenize_loop fuel tokens s = Some (tokens', s') ->
    Forall P tokens'.
Proof.
  intros HP. induction fuel as [|fuel IH]; intros tokens s tokens' s' Hf H;
    [discriminate H|].
  cbn [tokenize_loop] in H.
  destruct (negb (Ascii.eqb (current s) NUL)).
  - destruct (tokenize_body fuel tokens s) as [[tokens1 s1]|] eqn:E;
      [|discriminate].
    apply IH in H; [exact H|].
    destruct (tokenize_body_shape _ _ _ _ _ E) as [-> | [tok ->]]; [exact Hf|].
    apply Forall_app. split; [exact Hf|]. constructor; [|constructor].
    eapply HP; eauto.
  - inversion H; subst. exact Hf.
Qed.

(** X9.  The text of every Number token that [tokenize] gives starts with a
    digit, so [std::stod] finds digits to convert in it: on the tokens of a
    text [parsePrimary] never gets [std::invalid_argument] from [stod]. *)
Theorem number_tokens_have_a_value :
  forall (src : string) (toks : list Token) (tok : Token),
    tokenize src = Some toks ->
    In tok toks ->
    type tok = TokenType.Number ->
    exists d more v,
      value tok = String d more /\ isdigit d = true /\
      stod (value tok) = Some v.
Proof.
  intros src toks tok H Hin Hty.
  set (P := fun tok : Token =>
              type tok = TokenType.Number ->
              exists d more v,
                value tok = String d more /\ isdigit d = true /\
                stod (value tok) = Some v).
  assert (Hall : Forall P toks).
  { unfold tokenize, tokenize_fuel in H.
    destruct (tokenize_loop _ [] (init src)) as [[tl s']|] eqn:E; [|discriminate].
    inversion H; subst. apply Forall_app. split.
    - eapply (tokenize_loop_Forall P); [| constructor | exact E].
      intros fuel tokens s s1 tok0 Hb Ht.
      apply tokenize_body_pushed in Hb
        as [[Hd Hb] | [[_ Hb] | [[_ Hb] | (ty & v & s3 & Hp & -> & ->)]]].
      + destruct (readNumber_text _ _ _ _ Hd Hb) as (more & Hv).
        destruct (stod_digit_first (current s) more Hd) as (x & Hx).
        exists (current s), more, x. rewrite Hv. auto.
      + apply readString_type in Hb. congruence.
      + apply readIdentifier_kind in Hb as [Hb | Hb]; rewrite Ht in Hb;
          discriminate Hb.
      + apply punctuation_never_a_word in Hp as (Hp & _). now elim Hp.
    - constructor; [|constructor]. intros Ht. discriminate Ht. }
  rewrite Forall_forall in Hall. exact (Hall tok Hin Hty).
Qed.

Lemma number_tokens_have_a_value_witness :
  let tok := mkToken TokenType.Number "3.14" 1 4 in
  let toks := [ mkToken TokenType.Identifier "x" 1 0;
                mkToken TokenType.Assign "=" 1 2; tok;
                mkToken TokenType.EndOfFile EmptyString 1 8 ] in
  tokenize "x = 3.14" = Some toks /\ In tok toks /\
  type tok = TokenType.Number /\
  exists d more v,
    value tok = String d more /\ isdigit d = true /\ stod (value tok) = Some v.
Proof.
  intros tok toks.
  assert (H : tokenize "x = 3.14" = Some toks) by reflexivity.
  assert (Hin : In tok toks) by (simpl; auto).
  split; [exact H|]. split; [exact Hin|]. split; [reflexivity|].
  exact (number_tokens_have_a_value "x = 3.14" toks tok H Hin eq_refl).
Defined.

End TokenizerTokens.

(** * Words, comments and operators *)

Section TokenizerRules.

Import Tokenizer.

Lemma reads_peek_end (s : t) (c : ascii) :
  reads s (String c EmptyString) -> peek 1 s = NUL.
Proof.
  intros (pre & Hs & Hp). unfold peek.
  now rewrite Hs, Hp, get_append_length_S.
Qed.

Lemma stops_current (f : ascii -> bool) (s : t) (text : string) :
  f NUL = false -> stops f text -> reads s text -> f (current s) = false.
Proof.
  intros Hn Hst Hr. destruct text as [|c text].
  - now rewrite (reads_current_end s Hr).
  - now rewrite (reads_current s c text Hr).
Qed.

Lemma word_start_facts (c : ascii) :
  word_start c = true ->
  isspace c = false /\ Ascii.eqb c "/" = false /\ isdigit c = false /\
  Ascii.eqb c DQUOTE = false /\ word_char c = true.
Proof.
  destruct c as [[] [] [] [] [] [] [] []]; intros H;
    first [discriminate H | repeat split].
Qed.

Lemma word_char_not_LF (c : ascii) :
  word_char c = true -> Ascii.eqb c LF = false.
Proof. apply isalnum_not_LF. Qed.

(** A run of word characters is read whole into the identifier. *)
Lemma readIdentifier_loop_run (w : string) :
  all_chars word_char w = true ->
  forall (rest : string) (fuel : nat) (id : string) (s : t),
    stops word_char rest ->
    reads s (w ++ rest)%string -> String.length w < fuel ->
    exists s',
      readIdentifier_loop fuel id s = Some ((id ++ w)%string, s') /\
      reads s' rest /\ m_line s' = m_line s.
Proof.
  induction w as [|c w IH]; intros Hall rest fuel id s Hst Hr Hf;
    (destruct fuel as [|fuel]; [simpl in Hf; lia|]);
    cbn [readIdentifier_loop].
  - simpl in Hr. fold (word_char (current s)).
    rewrite (stops_current word_char s rest eq_refl Hst Hr).
    exists s. now rewrite append_nil_r.
  - cbn [all_chars] in Hall. apply andb_true_iff in Hall as [Hc Hall].
    simpl in Hr. pose proof (reads_current s c _ Hr) as Hcur.
    fold (word_char (current s)). rewrite Hcur, Hc.
    destruct (IH Hall rest fuel (push_char id c) (advance s) Hst
                 (reads_advance s c _ Hr)) as (s' & E & Hr' & Hl).
    { simpl in Hf. lia. }
    exists s'. rewrite E. unfold push_char. rewrite append_assoc_s.
    split; [reflexivity|]. split; [exact Hr'|].
    rewrite Hl. apply not_LF_line. rewrite Hcur. now apply word_char_not_LF.
Qed.

(** X10.  A word (a letter or underscore, then letters, digits and
    underscores, up to a character that is none of these or to the end) is
    one token: its text is the word, its kind is the one the keyword table
    gives the word (whole, not a prefix of it), Identifier when the table has
    no entry, and the cursor is left after the word. *)
Theorem word_is_one_token :
  forall (fuel : nat) (tokens : list Token) (s : t)
         (c : ascii) (w rest : string),
    word_start c = true ->
    all_chars word_char w = true ->
    stops word_char rest ->
    reads s (String c w ++ rest)%string ->
    String.length w + 2 <= fuel ->
    exists s',
      tokenize_body fuel tokens s =
        Some (tokens ++ [mkToken (word_kind (String c w)) (String c w)
                                 (m_line s) (m_column s)], s') /\
      reads s' rest.
Proof.
  intros fuel tokens s c w rest Hc Hw Hst Hr Hf.
  destruct (word_start_facts c Hc) as (Hsp & Hsl & Hd & Hq & Hwc).
  pose proof (reads_current s c _ Hr) as Hcur.
  destruct (readIdentifier_loop_run (String c w)) with
    (rest := rest) (fuel := fuel) (id := EmptyString) (s := s)
    as (s' & E & Hr' & Hl); auto.
  { cbn [all_chars]. now rewrite Hwc, Hw. }
  { simpl. lia. }
  exists s'. split; [|exact Hr'].
  destruct fuel as [|fuel0]; [lia|].
  unfold tokenize_body, skipWhitespace, skipComment.
  cbn [skipWhitespace_loop]. rewrite Hcur, Hsp. cbv beta iota.
  rewrite Hcur, Hsl. cbn [andb]. cbv beta iota.
  rewrite Hcur, Hd, Hq. cbv beta iota.
  unfold word_start in Hc. rewrite Hc.
  unfold readIdentifier. rewrite E. cbn [append].
  unfold word_kind. now rewrite Hl.
Qed.

Lemma word_is_one_token_witness :
  let s := init "sex+1" in
  word_start "s" = true /\ all_chars word_char "ex" = true /\
  stops word_char "+1" /\ reads s ("sex" ++ "+1")%string /\
  String.length "ex" + 2 <= 4 /\
  exists s',
    tokenize_body 4 [] s =
      Some ([] ++ [mkToken TokenType.Identifier "sex" 1 0], s') /\
    reads s' "+1".
Proof.
  intros s.
  assert (Hr : reads s ("sex" ++ "+1")%string) by apply reads_init.
  split; [reflexivity|]. split; [reflexivity|]. split; [reflexivity|].
  split; [exact Hr|]. split; [simpl; lia|].
  exact (word_is_one_token 4 [] s "s" "ex" "+1" eq_refl eq_refl eq_refl Hr
           (le_n 4)).
Defined.

(** A run of characters that are no newline and no NUL is skipped whole by the
    loop of [skipComment]. *)
Lemma skipComment_loop_run (text : string) :
  all_chars comment_char text = true ->
  forall (rest : string) (fuel : nat) (b : bool) (s : t),
    stops comment_char rest ->
    reads s (text ++ rest)%string -> String.length text < fuel ->
    exists s',
      skipComment_loop fuel b s =
        Some (match text with EmptyString => b | _ => true end, s') /\
      reads s' rest.
Proof.
  induction text as [|c text IH]; intros Hall rest fuel b s Hst Hr Hf;
    (destruct fuel as [|fuel]; [simpl in Hf; lia|]);
    cbn [skipComment_loop].
  - simpl in Hr. fold (comment_char (current s)).
    rewrite (stops_current comment_char s rest eq_refl Hst Hr).
    exists s. auto.
  - cbn [all_chars] in Hall. apply andb_true_iff in Hall as [Hc Hall].
    simpl in Hr. fold (comment_char (current s)).
    rewrite (reads_current s c _ Hr), Hc.
    destruct (IH Hall rest fuel true (advance s) Hst (reads_advance s c _ Hr))
      as (s' & E & Hr').
    { simpl in Hf. lia. }
    exists s'. rewrite E. split; [now destruct text | exact Hr'].
Qed.

(** X11.  Two slashes start a comment: the turn of the main loop that meets
    them pushes no token and leaves the cursor on the newline that ends the
    line, or at the end of the text when there is none. *)
Theorem comment_is_skipped :
  forall (fuel : nat) (tokens : list Token) (s : t) (text rest : string),
    all_chars comment_char text = true ->
    stops comment_char rest ->
    reads s (String "/" (String "/" text) ++ rest)%string ->
    String.length text + 3 <= fuel ->
    exists s',
      tokenize_body fuel tokens s = Some (tokens, s') /\ reads s' rest.
Proof.
  intros fuel tokens s text rest Hall Hst Hr Hf.
  destruct (skipComment_loop_run (String "/" (String "/" text)))
    with (rest := rest) (fuel := fuel) (b := false) (s := s)
    as (s' & E & Hr'); auto.
  { simpl. lia. }
  exists s'. split; [|exact Hr'].
  destruct fuel as [|fuel0]; [lia|].
  unfold tokenize_body, skipWhitespace, skipComment.
  cbn [skipWhitespace_loop].
  rewrite (reads_current s _ _ Hr). change (isspace "/") with false.
  cbv beta iota.
  rewrite (reads_current s _ _ Hr), (reads_peek s _ _ _ Hr).
  change (Ascii.eqb "/" "/" && Ascii.eqb "/" "/") with true. cbv beta iota.
  now rewrite E.
Qed.

Lemma comment_is_skipped_witness :
  let s := init ("// c" ++ String LF "x") in
  all_chars comment_char " c" = true /\
  stops comment_char (String LF "x") /\
  reads s (String "/" (String "/" " c") ++ String LF "x")%string /\
  String.length " c" + 3 <= 5 /\
  exists s', tokenize_body 5 [] s = Some ([], s') /\ reads s' (String LF "x").
Proof.
  intros s.
  assert (Hr : reads s (String "/" (String "/" " c") ++ String LF "x")%string)
    by apply reads_init.
  split; [reflexivity|]. split; [reflexivity|]. split; [exact Hr|].
  split; [simpl; lia|].
  exact (comment_is_skipped 5 [] s " c" (String LF "x") eq_refl eq_refl Hr
           (le_n 5)).
Defined.

(** X12.  After one of the characters equal, exclamation mark, less and
    greater, a following [=] makes one token of the two characters (Equal,
    NotEqual, LessEqual, GreaterEqual) and the cursor moves by two; with
    anything else after it the character alone is the token (Assign, Unknown
    for the exclamation mark, Less, Greater) and the cursor moves by one. *)
Theorem operator_of_one_or_two_characters :
  forall (fuel : nat) (tokens : list Token) (s : t) (c : ascii) (rest : string)
         (two one : TokenType.t),
    operator_kinds c = Some (two, one) ->
    1 <= fuel ->
    (reads s (String c (String "=" rest)) ->
     tokenize_body fuel tokens s =
       Some (tokens ++ [mkToken two (String c "=") (m_line s) (m_column s)],
             advance (advance s))) /\
    (reads s (String c rest) -> stops (fun x => Ascii.eqb x "=") rest ->
     tokenize_body fuel tokens s =
       Some (tokens ++ [mkToken one (String c EmptyString)
                                (m_line s) (m_column s)],
             advance s)).
Proof.
  intros fuel tokens s c rest two one Hk Hf.
  destruct fuel as [|fuel]; [lia|].
  assert (Hc : c = "="%char \/ c = "!"%char \/ c = "<"%char \/ c = ">"%char).
  { unfold operator_kinds in Hk.
    repeat match type of Hk with
           | context [Ascii.eqb c ?x] =>
               let E := fresh in
               destruct (Ascii.eqb c x) eqn:E;
               [apply Ascii.eqb_eq in E; auto|]
           end.
    discriminate Hk. }
  split.
  - intros Hr. pose proof (reads_current s _ _ Hr) as Hcur.
    pose proof (reads_peek s _ _ _ Hr) as Hpk.
    assert (Hl : m_line (advance s) = m_line s).
    { apply not_LF_line. rewrite Hcur.
      destruct Hc as [-> | [-> | [-> | ->]]]; reflexivity. }
    unfold tokenize_body, skipWhitespace, skipComment, punctuation.
    cbn [skipWhitespace_loop].
    destruct Hc as [-> | [-> | [-> | ->]]]; inversion Hk; subst;
      repeat (rewrite ?Hcur, ?Hpk; simpl); now rewrite Hl.
  - intros Hr Hst. pose proof (reads_current s _ _ Hr) as Hcur.
    assert (Hpk : Ascii.eqb (peek 1 s) "=" = false).
    { destruct rest as [|x rest].
      - now rewrite (reads_peek_end s c Hr).
      - rewrite (reads_peek s _ _ _ Hr). exact Hst. }
    unfold tokenize_body, skipWhitespace, skipComment, punctuation.
    cbn [skipWhitespace_loop].
    destruct Hc as [-> | [-> | [-> | ->]]]; inversion Hk; subst;
      repeat (rewrite ?Hcur, ?Hpk; simpl); reflexivity.
Qed.

Lemma operator_of_one_or_two_characters_witness :
  operator_kinds "!" = Some (TokenType.NotEqual, TokenType.Unknown) /\
  1 <= 1 /\
  (reads (init "!=x") (String "!" (String "=" "x")) /\
   tokenize_body 1 [] (init "!=x") =
     Some ([] ++ [mkToken TokenType.NotEqual "!=" 1 0],
           advance (advance (init "!=x")))) /\
  (reads (init "!x") (String "!" "x") /\
   stops (fun x => Ascii.eqb x "=") "x" /\
   tokenize_body 1 [] (init "!x") =
     Some ([] ++ [mkToken TokenType.Unknown "!" 1 0], advance (init "!x"))).
Proof.
  split; [reflexivity|]. split; [apply le_n|]. split.
  - split; [apply reads_init|].
    exact (proj1 (operator_of_one_or_two_characters 1 [] (init "!=x") "!" "x"
                    _ _ eq_refl (le_n 1)) (reads_init "!=x")).
  - split; [apply reads_init|]. split; [reflexivity|].
    exact (proj2 (operator_of_one_or_two_characters 1 [] (init "!x") "!" "x"
                    _ _ eq_refl (le_n 1)) (reads_init "!x") eq_refl).
Defined.

End TokenizerRules.

(** * String literals *)

Section TokenizerStrings.

Import Tokenizer.

Lemma readString_loop_run (n : nat) :
  forall (body v closing : string) (fuel : nat) (str : string) (s : t),
    String.length body <= n ->
    decode body = Some v ->
    closes closing ->
    reads s (body ++ closing)%string ->
    String.length body < fuel ->
    exists s',
      readString_loop fuel str s = Some ((str ++ v)%string, s') /\
      reads s' closing.
Proof.
  induction n as [|n IH]; intros body v closing fuel str s Hn Hd Hcl Hr Hf.
  - destruct body; [|simpl in Hn; lia]. simpl in Hd, Hr. inversion Hd; subst.
    destruct fuel as [|fuel]; [simpl in Hf; lia|]. cbn [readString_loop].
    exists s. rewrite append_nil_r. split; [|exact Hr].
    destruct closing as [|c closing].
    + now rewrite (reads_current_end s Hr).
    + simpl in Hcl. subst c. now rewrite (reads_current s _ _ Hr).
  - destruct body as [|c body].
    { apply (IH EmptyString v closing fuel str s); auto. simpl. lia. }
    destruct fuel as [|fuel]; [simpl in Hf; lia|]. cbn [readString_loop].
    simpl in Hr. pose proof (reads_current s c _ Hr) as Hcur.
    pose proof (reads_advance s c _ Hr) as Hadv.
    cbn [decode] in Hd. rewrite Hcur.
    destruct (Ascii.eqb c BACKSLASH) eqn:Eb.
    + apply Ascii.eqb_eq in Eb. subst c.
      change (negb (Ascii.eqb BACKSLASH DQUOTE || Ascii.eqb BACKSLASH NUL))
        with true. cbv beta iota.
      destruct body as [|x body]; [discriminate Hd|].
      destruct (decode body) as [v'|] eqn:Ed; [|discriminate Hd].
      inversion Hd; subst v. simpl in Hadv.
      rewrite (reads_current _ x _ Hadv).
      destruct (IH body v' closing fuel
                   (push_char str (escape x)) (advance (advance s)))
        as (s' & E & Hr'); auto.
      { simpl in Hn. lia. }
      { eapply reads_advance; eauto. }
      { simpl in Hf. lia. }
      exists s'. rewrite E. unfold push_char. rewrite append_assoc_s.
      split; [reflexivity | exact Hr'].
    + destruct (Ascii.eqb c DQUOTE || Ascii.eqb c NUL) eqn:Eq;
        [discriminate Hd|].
      cbn [negb]. cbv beta iota.
      destruct (decode body) as [v'|] eqn:Ed; [|discriminate Hd].
      inversion Hd; subst v.
      destruct (IH body v' closing fuel (push_char str c) (advance s))
        as (s' & E & Hr'); auto.
      { simpl in Hn. lia. }
      { simpl in Hf. lia. }
      exists s'. rewrite E. unfold push_char. rewrite append_assoc_s.
      split; [reflexivity | exact Hr'].
Qed.

(** X13.  A quote, a body and the closing quote are one String token whose
    text is the body with its escapes replaced ([\n], [\t], backslash and
    quote after a backslash; any other character after a backslash is
    itself); the cursor is left after the closing quote.  When the text ends
    before a closing quote the token is the same, made of what was read, and
    nothing is thrown. *)
Theorem string_literal_is_decoded :
  forall (fuel : nat) (tokens : list Token) (s : t) (body v closing : string),
    decode body = Some v ->
    closes closing ->
    reads s (String DQUOTE (body ++ closing))%string ->
    String.length body + 2 <= fuel ->
    exists s',
      tokenize_body fuel tokens s =
        Some (tokens ++ [mkToken TokenType.String v (m_line s') (m_column s)], s') /\
      reads s' (after_closing closing).
Proof.
  intros fuel tokens s body v closing Hd Hcl Hr Hf.
  pose proof (reads_current s _ _ Hr) as Hcur.
  destruct (readString_loop_run (String.length body) body v closing fuel
              EmptyString (advance s)) as (s1 & E & Hr1); auto.
  { eapply reads_advance; eauto. }
  { lia. }
  exists (if Ascii.eqb (current s1) DQUOTE then advance s1 else s1).
  split.
  - destruct fuel as [|fuel0]; [lia|].
    unfold tokenize_body, skipWhitespace, skipComment.
    cbn [skipWhitespace_loop]. rewrite Hcur.
    change (isspace DQUOTE) with false. cbv beta iota. rewrite Hcur.
    change (Ascii.eqb DQUOTE "/") with false. cbn [andb]. cbv beta iota.
    rewrite Hcur. change (isdigit DQUOTE) with false.
    change (Ascii.eqb DQUOTE DQUOTE) with true. cbv beta iota.
    unfold readString. now rewrite E.
  - destruct closing as [|c rest]; simpl in *.
    + now rewrite (reads_current_end s1 Hr1).
    + subst c. rewrite (reads_current s1 _ _ Hr1).
      change (Ascii.eqb DQUOTE DQUOTE) with true.
      eapply reads_advance; eauto.
Qed.

Lemma string_literal_is_decoded_witness :
  let body := String "a" (String BACKSLASH (String "n" (String BACKSLASH
                (String DQUOTE "b")))) in
  let src := String DQUOTE (body ++ String DQUOTE ";")%string in
  decode body = Some (String "a" (String LF (String DQUOTE "b"))) /\
  closes (String DQUOTE ";") /\
  reads (init src) (String DQUOTE (body ++ String DQUOTE ";"))%string /\
  String.length body + 2 <= 8 /\
  exists s',
    tokenize_body 8 [] (init src) =
      Some ([] ++ [mkToken TokenType.String
                     (String "a" (String LF (String DQUOTE "b")))
                     (m_line s') (m_column (init src))], s') /\
    reads s' ";".
Proof.
  intros body src.
  assert (Hr : reads (init src) (String DQUOTE (body ++ String DQUOTE ";"))%string)
    by apply reads_init.
  split; [reflexivity|]. split; [reflexivity|]. split; [exact Hr|].
  split; [simpl; lia|].
  exact (string_literal_is_decoded 8 [] (init src) body _ (String DQUOTE ";")
           eq_refl eq_refl Hr ltac:(simpl; lia)).
Defined.

End TokenizerStrings.

(** * Numbers and punctuation *)

Section TokenizerNumbers.

Import Tokenizer.

Lemma digit_turn (fuel : nat) (tokens : list Token) (s : t) (d : ascii)
      (text : string) :
  isdigit d = true -> reads s (String d text) ->
  tokenize_body (S fuel) tokens s =
    match readNumber (S fuel) s with
    | Some (tok, s3) => Some (tokens ++ [tok], s3)
    | None => None
    end.
Proof.
  intros Hd Hr. pose proof (reads_current s d _ Hr) as Hcur.
  destruct (isdigit_facts d Hd) as (Hsp & Hsl & _).
  unfold tokenize_body, skipWhitespace, skipComment.
  cbn [skipWhitespace_loop]. rewrite Hcur, Hsp. cbv beta iota.
  rewrite Hcur, Hsl. cbn [andb]. cbv beta iota.
  now rewrite Hcur, Hd.
Qed.

(** X14.  Digits, with or without one dot and more digits after them, are one
    Number token whose text is all of them, when what follows is no digit
    (and, without a dot, no dot); the cursor is left after them. *)
Theorem number_is_one_token :
  forall (fuel : nat) (tokens : list Token) (s : t) (d : ascii)
         (ds1 ds2 rest : string),
    all_chars isdigit (String d ds1) = true ->
    all_chars isdigit ds2 = true ->
    String.length ds1 + String.length ds2 + 3 <= fuel ->
    (stops number_char rest ->
     reads s (String d ds1 ++ rest)%string ->
     exists s',
       tokenize_body fuel tokens s =
         Some (tokens ++ [mkToken TokenType.Number (String d ds1)
                                  (m_line s) (m_column s)], s') /\
       reads s' rest) /\
    (stops isdigit rest ->
     reads s (String d ds1 ++ String "." (ds2 ++ rest))%string ->
     exists s',
       tokenize_body fuel tokens s =
         Some (tokens ++ [mkToken TokenType.Number
                                  (String d ds1 ++ String "." ds2)%string
                                  (m_line s) (m_column s)], s') /\
       reads s' rest).
Proof.
  intros fuel tokens s d ds1 ds2 rest H1 H2 Hf.
  pose proof H1 as Hd. cbn [all_chars] in Hd. apply andb_true_iff in Hd as [Hd _].
  destruct fuel as [|fuel]; [lia|].
  split.
  - intros Hst Hr.
    rewrite (digit_turn fuel tokens s d _ Hd Hr).
    destruct (readNumber_loop_digits (String d ds1) H1 s rest Hr)
      as (s1 & Hr1 & Hl1 & _ & Hloop).
    exists s1. split; [|exact Hr1]. unfold readNumber.
    replace (S fuel) with
      (String.length (String d ds1) + S (fuel - String.length (String d ds1)))
      by (simpl; lia).
    rewrite Hloop. cbn [readNumber_loop]. fold (number_char (current s1)).
    rewrite (stops_current number_char s1 rest eq_refl Hst Hr1).
    cbn [append]. now rewrite Hl1.
  - intros Hst Hr.
    rewrite (digit_turn fuel tokens s d _ Hd Hr).
    destruct (readNumber_loop_digits (String d ds1) H1 s _ Hr)
      as (s1 & Hr1 & Hl1 & _ & Hloop1).
    pose proof (reads_current s1 _ _ Hr1) as Hcur1.
    assert (Hla : m_line (advance s1) = m_line s1)
      by (apply not_LF_line; now rewrite Hcur1).
    destruct (readNumber_loop_digits ds2 H2 (advance s1) rest
                (reads_advance _ _ _ Hr1)) as (s2 & Hr2 & Hl2 & _ & Hloop2).
    exists s2. split; [|exact Hr2]. unfold readNumber.
    replace (S fuel) with
      (String.length (String d ds1) +
         S (String.length ds2 +
            S (fuel - String.length (String d ds1) - String.length ds2 - 1)))
      by (simpl; lia).
    rewrite Hloop1. cbn [readNumber_loop]. rewrite Hcur1. simpl orb.
    change (Ascii.eqb "." ".") with true. cbv beta iota.
    rewrite Hloop2. cbn [readNumber_loop].
    assert (Hstop : forall n,
      (if isdigit (current s2) || Ascii.eqb (current s2) "."
       then if Ascii.eqb (current s2) "."
            then Some (n, s2)
            else readNumber_loop
                   (fuel - String.length (String d ds1) - String.length ds2 - 1)
                   (push_char n (current s2)) true (advance s2)
       else Some (n, s2)) = Some (n, s2)).
    { intros n.
      rewrite (stops_current isdigit s2 rest eq_refl Hst Hr2). cbn [orb].
      now destruct (Ascii.eqb (current s2) "."). }
    rewrite Hstop. unfold push_char. cbn [append].
    rewrite append_assoc_s. cbn [append]. now rewrite Hl2, Hla, Hl1.
Qed.

Lemma number_is_one_token_witness :
  all_chars isdigit "42" = true /\ all_chars isdigit "5" = true /\
  String.length "2" + String.length "5" + 3 <= 5 /\
  (stops number_char ";" /\ reads (init "42;") ("42" ++ ";")%string /\
   exists s',
     tokenize_body 5 [] (init "42;") =
       Some ([] ++ [mkToken TokenType.Number "42" 1 0], s') /\
     reads s' ";") /\
  (stops isdigit ";" /\ reads (init "42.5;") ("42" ++ String "." ("5" ++ ";"))%string /\
   exists s',
     tokenize_body 5 [] (init "42.5;") =
       Some ([] ++ [mkToken TokenType.Number "42.5" 1 0], s') /\
     reads s' ";").
Proof.
  split; [reflexivity|]. split; [reflexivity|]. split; [simpl; lia|].
  split.
  - split; [reflexivity|]. split; [apply reads_init|].
    exact (proj1 (number_is_one_token 5 [] (init "42;") "4" "2" "5" ";"
                    eq_refl eq_refl (le_n 5)) eq_refl (reads_init "42;")).
  - split; [reflexivity|]. split; [apply reads_init|].
    exact (proj2 (number_is_one_token 5 [] (init "42.5;") "4" "2" "5" ";"
                    eq_refl eq_refl (le_n 5)) eq_refl (reads_init "42.5;")).
Defined.

(** X15.  Each of the twelve punctuation characters is a token by itself, of
    its own kind, with the character as text, and the cursor moves by one;
    for the slash this is so when no second slash follows (two slashes start
    a comment). *)
Theorem punctuation_is_one_token :
  forall (fuel : nat) (tokens : list Token) (s : t) (c : ascii) (rest : string)
         (ty : TokenType.t),
    punctuation_kind c = Some ty ->
    1 <= fuel ->
    reads s (String c rest) ->
    (c = "/"%char -> stops (fun x => Ascii.eqb x "/") rest) ->
    tokenize_body fuel tokens s =
      Some (tokens ++ [mkToken ty (String c EmptyString) (m_line s) (m_column s)],
            advance s).
Proof.
  intros fuel tokens s c rest ty Hk Hf Hr Hsl.
  destruct fuel as [|fuel]; [lia|].
  pose proof (reads_current s _ _ Hr) as Hcur.
  assert (Hpk : c = "/"%char -> Ascii.eqb (peek 1 s) "/" = false).
  { intros Hc. specialize (Hsl Hc). destruct rest as [|x rest].
    - now rewrite (reads_peek_end s c Hr).
    - rewrite (reads_peek s _ _ _ Hr). exact Hsl. }
  unfold punctuation_kind in Hk.
  unfold tokenize_body, skipWhitespace, skipComment, punctuation.
  cbn [skipWhitespace_loop].
  repeat match type of Hk with
         | context [Ascii.eqb c ?x] =>
             let E := fresh "E" in
             destruct (Ascii.eqb c x) eqn:E;
             [ apply Ascii.eqb_eq in E; subst c; inversion Hk; subst;
               repeat (rewrite ?Hcur, ?(Hpk eq_refl); simpl); reflexivity
             | ]
         end.
  discriminate Hk.
Qed.

Lemma punctuation_is_one_token_witness :
  punctuation_kind "/" = Some TokenType.Divide /\ 1 <= 1 /\
  reads (init "/2") (String "/" "2") /\
  ("/"%char = "/"%char -> stops (fun x => Ascii.eqb x "/") "2") /\
  tokenize_body 1 [] (init "/2") =
    Some ([] ++ [mkToken TokenType.Divide "/" 1 0], advance (init "/2")).
Proof.
  split; [reflexivity|]. split; [apply le_n|]. split; [apply reads_init|].
  split; [intros _; reflexivity|].
  exact (punctuation_is_one_token 1 [] (init "/2") "/" "2" _ eq_refl (le_n 1)
           (reads_init "/2") (fun _ => eq_refl)).
Defined.

End TokenizerNumbers.

(** * Names of types and of token kinds *)

Section Names.

Lemma Type_toString_total :
  forall ty : Type_, exists text, Type_toString ty = Some text.
Proof.
  fix IH 1. intros [kind returnType paramType className].
  cbn [Type_toString].
  assert (Hplain : exists text,
            (if TypeKind_eqb kind TypeKind.Klaso then Some className
             else at_ TypeKind_eqb TypeKind2String kind) = Some text).
  { destruct kind; eexists; reflexivity. }
  destruct (TypeKind_eqb kind TypeKind.Funkcia); [|exact Hplain].
  destruct paramType as [param|]; [|exact Hplain].
  destruct returnType as [ret|]; [|exact Hplain].
  destruct (IH param) as [a ->]. destruct (IH ret) as [b ->].
  eexists; reflexivity.
Qed.

(** X16.  [Type::toString] never fails in [at]: every kind has its name in
    the table, at every depth of a function type.  A type made by
    [createFunction] is written as its parameter, an arrow and its result
    between parentheses; a type of kind funkcia that lacks one of the two is
    written [funkcia]; a class type is written as its class name. *)
Theorem Type_toString_never_throws :
  (forall ty : Type_, exists text, Type_toString ty = Some text) /\
  (forall (param ret : Type_) (a b : string),
      Type_toString param = Some a -> Type_toString ret = Some b ->
      Type_toString (createFunction param ret) =
        Some ("(" ++ a ++ " -> " ++ b ++ ")")%string) /\
  (forall (one : option Type_) (name : string),
      Type_toString (mkType TypeKind.Funkcia None one name) = Some "funkcia" /\
      Type_toString (mkType TypeKind.Funkcia one None name) = Some "funkcia") /\
  (forall (r q : option Type_) (name : string),
      Type_toString (mkType TypeKind.Klaso r q name) = Some name).
Proof.
  split; [exact Type_toString_total|]. split; [|split].
  - intros param ret a b Ha Hb. cbn [createFunction Type_toString TypeKind_eqb].
    now rewrite Ha, Hb.
  - intros one name. split; cbn [Type_toString TypeKind_eqb];
      destruct one; reflexivity.
  - intros r q name. reflexivity.
Qed.

Lemma Type_toString_never_throws_witness :
  Type_toString (Type_of TypeKind.Entjera) = Some "entjera" /\
  Type_toString (Type_of TypeKind.Bulea) = Some "bulea" /\
  Type_toString (createFunction (Type_of TypeKind.Entjera) (Type_of TypeKind.Bulea)) =
    Some "(entjera -> bulea)".
Proof.
  split; [reflexivity|]. split; [reflexivity|].
  exact (proj1 (proj2 Type_toString_never_throws)
           (Type_of TypeKind.Entjera) (Type_of TypeKind.Bulea)
           "entjera" "bulea" eq_refl eq_refl).
Defined.

(** X17.  The type that [parseType] returns is written by [Type::toString] as
    a keyword that the tokenizer's table maps back to the kind of the token
    [parseType] was called on: writing a parsed type and reading it again
    gives the same type keyword. *)
Theorem parsed_type_is_written_as_its_keyword :
  forall (p p' : Parser.t) (ty : Type_),
    Parser.parseType p = Parser.Ok ty p' ->
    exists keyword,
      Type_toString ty = Some keyword /\
      map_find Id2TokenType keyword = Some (type (Parser.current p)).
Proof.
  intros p p' ty.
  unfold Parser.parseType, Parser.bind, Parser.currentM, Parser.advanceM.
  destruct (type (Parser.current p)); intros H; inversion H; subst;
    eexists; split; reflexivity.
Qed.

Lemma parsed_type_is_written_as_its_keyword_witness :
  let tokens := [ mkToken TokenType.Reala "reala" 1 0;
                  mkToken TokenType.EndOfFile EmptyString 1 5 ] in
  Parser.parseType (Parser.init tokens) =
    Parser.Ok (Type_of TypeKind.Reala) (Parser.mk tokens 1) /\
  exists keyword,
    Type_toString (Type_of TypeKind.Reala) = Some keyword /\
    map_find Id2TokenType keyword = Some TokenType.Reala.
Proof.
  intros tokens.
  assert (H : Parser.parseType (Parser.init tokens) =
              Parser.Ok (Type_of TypeKind.Reala) (Parser.mk tokens 1))
    by reflexivity.
  split; [exact H|].
  exact (parsed_type_is_written_as_its_keyword _ _ _ H).
Defined.

(** X18.  The formatter of [Token] never fails in [at]: every kind of token
    has a name in [TokenType2Stirng], two kinds never have the same name, and
    the name of a keyword kind is its keyword with a capital first letter. *)
Theorem token_kind_names :
  (forall token : Token, exists name, format_t token = Some name) /\
  (forall (a b : Token) (name : string),
      format_t a = Some name -> format_t b = Some name -> type a = type b) /\
  (forall (keyword : string) (ty : TokenType.t) (token : Token),
      map_find Id2TokenType keyword = Some ty ->
      type token = ty ->
      exists name, format_t token = Some name /\ lower_first name = keyword).
Proof.
  split; [|split].
  - intros [ty v l c]. unfold format_t. cbn [type].
    destruct ty; eexists; reflexivity.
  - intros [ta va la ca] [tb vb lb cb] name. unfold format_t. cbn [type].
    destruct ta; intros Ha; inversion Ha; subst;
      destruct tb; intros Hb; first [reflexivity | discriminate Hb].
  - intros keyword ty token Hk Ht. unfold format_t. rewrite Ht.
    revert Hk. unfold Id2TokenType, map_find.
    repeat match goal with
           | |- context [String.eqb ?a keyword] =>
               let E := fresh "E" in
               destruct (String.eqb a keyword) eqn:E;
               [ apply String.eqb_eq in E; subst keyword;
                 intros Hk; inversion Hk; subst; eexists; split; reflexivity
               | ]
           end.
    discriminate.
Qed.

Lemma token_kind_names_witness :
  map_find Id2TokenType "malvero" = Some TokenType.Malvero /\
  type (mkToken TokenType.Malvero "malvero" 3 4) = TokenType.Malvero /\
  exists name,
    format_t (mkToken TokenType.Malvero "malvero" 3 4) = Some name /\
    lower_first name = "malvero".
Proof.
  split; [reflexivity|]. split; [reflexivity|].
  exact (proj2 (proj2 token_kind_names) "malvero" TokenType.Malvero
           (mkToken TokenType.Malvero "malvero" 3 4) eq_refl eq_refl).
Defined.

End Names.

(** * Blanks, unknown characters and the empty program *)

Section TokenizerBlanks.

Import Tokenizer.

(** A run of blanks is skipped whole by the loop of [skipWhitespace]. *)
Lemma skipWhitespace_loop_blanks (ws : string) :
  all_chars isspace ws = true ->
  forall (rest : string) (fuel : nat) (b : bool) (s : t),
    stops isspace rest ->
    reads s (ws ++ rest)%string -> String.length ws < fuel ->
    exists s',
      skipWhitespace_loop fuel b s =
        Some (match ws with EmptyString => b | _ => true end, s') /\
      reads s' rest /\
      (m_line s', m_column s') = cursor_after ws (m_line s) (m_column s).
Proof.
  induction ws as [|c ws IH]; intros Hall rest fuel b s Hst Hr Hf;
    (destruct fuel as [|fuel]; [simpl in Hf; lia|]);
    cbn [skipWhitespace_loop].
  - simpl in Hr. rewrite (stops_current isspace s rest eq_refl Hst Hr).
    exists s. auto.
  - cbn [all_chars] in Hall. apply andb_true_iff in Hall as [Hc Hall].
    simpl in Hr. rewrite (reads_current s c _ Hr), Hc.
    destruct (IH Hall rest fuel true (advance s) Hst (reads_advance s c _ Hr))
      as (s' & E & Hr' & Hpos).
    { simpl in Hf. lia. }
    exists s'. rewrite E. split; [now destruct ws|]. split; [exact Hr'|].
    rewrite Hpos. pose proof (advance_line_column s) as Ha.
    rewrite (reads_current s c _ Hr) in Ha. cbn [cursor_after].
    destruct (Ascii.eqb c LF); inversion Ha; reflexivity.
Qed.

(** X19.  Blanks before anything else, or before the end of the text, give no
    token: the turn of the main loop that meets them leaves the cursor after
    the last of them, one line down for each newline, the column counted
    from the last newline. *)
Theorem blanks_are_skipped :
  forall (fuel : nat) (tokens : list Token) (s : t) (c : ascii) (ws rest : string),
    all_chars isspace (String c ws) = true ->
    stops isspace rest ->
    reads s (String c ws ++ rest)%string ->
    String.length ws + 2 <= fuel ->
    exists s',
      tokenize_body fuel tokens s = Some (tokens, s') /\
      reads s' rest /\
      (m_line s', m_column s') =
        cursor_after (String c ws) (m_line s) (m_column s).
Proof.
  intros fuel tokens s c ws rest Hall Hst Hr Hf.
  destruct (skipWhitespace_loop_blanks (String c ws) Hall rest fuel false s
              Hst Hr) as (s' & E & Hr' & Hpos).
  { simpl. lia. }
  exists s'. split; [|auto].
  unfold tokenize_body, skipWhitespace. now rewrite E.
Qed.

Lemma blanks_are_skipped_witness :
  let src := (String " " (String LF " ") ++ "x")%string in
  all_chars isspace (String " " (String LF " ")) = true /\
  stops isspace "x" /\
  reads (init src) (String " " (String LF " ") ++ "x")%string /\
  String.length (String LF " ") + 2 <= 4 /\
  exists s',
    tokenize_body 4 [] (init src) = Some ([], s') /\ reads s' "x" /\
    (m_line s', m_column s') = (2%Z, 1%Z).
Proof.
  intros src.
  split; [reflexivity|]. split; [reflexivity|]. split; [apply reads_init|].
  split; [simpl; lia|].
  exact (blanks_are_skipped 4 [] (init src) " " (String LF " ") "x"
           eq_refl eq_refl (reads_init src) ltac:(simpl; lia)).
Defined.

(** X20.  A character that is no blank, digit, quote, letter, underscore,
    punctuation or operator character (and not NUL) is a token of kind
    Unknown by itself, with the character as text; nothing is thrown and the
    cursor moves by one. *)
Theorem unknown_character_is_one_token :
  forall (fuel : nat) (tokens : list Token) (s : t) (c : ascii) (rest : string),
    unknown_char c = true ->
    1 <= fuel ->
    reads s (String c rest) ->
    tokenize_body fuel tokens s =
      Some (tokens ++ [mkToken TokenType.Unknown (String c EmptyString)
                               (m_line s) (m_column s)],
            advance s).
Proof.
  intros fuel tokens s c rest Hu Hf Hr.
  destruct fuel as [|fuel]; [lia|].
  pose proof (reads_current s _ _ Hr) as Hcur.
  unfold unknown_char in Hu. apply andb_true_iff in Hu as [Hcls Hk].
  apply negb_true_iff in Hcls.
  apply orb_false_iff in Hcls as [Hcls Hnul].
  apply orb_false_iff in Hcls as [Hcls Hword].
  apply orb_false_iff in Hcls as [Hcls Hquote].
  apply orb_false_iff in Hcls as [Hspace Hdigit].
  unfold word_start in Hword.
  assert (Hpun : punctuation_kind c = None /\ operator_kinds c = None).
  { destruct (punctuation_kind c); [discriminate Hk|].
    destruct (operator_kinds c); [discriminate Hk | auto]. }
  destruct Hpun as [Hp Ho].
  assert (Hsl : Ascii.eqb c "/" = false).
  { unfold punctuation_kind in Hp.
    destruct (Ascii.eqb c "+"); [discriminate Hp|].
    destruct (Ascii.eqb c "-"); [discriminate Hp|].
    destruct (Ascii.eqb c "*"); [discriminate Hp|].
    destruct (Ascii.eqb c "/"); [discriminate Hp | reflexivity]. }
  unfold tokenize_body, skipWhitespace, skipComment.
  cbn [skipWhitespace_loop]. rewrite Hcur.
  rewrite Hspace.
  cbv beta iota. rewrite Hcur, Hsl. cbn [andb]. cbv beta iota. rewrite Hcur.
  rewrite Hdigit, Hquote, Hword. cbv beta iota.
  assert (Hpunct : punctuation s = (TokenType.Unknown, String c EmptyString, s)).
  { unfold punctuation. rewrite Hcur.
    unfold punctuation_kind in Hp. unfold operator_kinds in Ho.
    repeat match type of Hp with
           | context [Ascii.eqb c ?x] =>
               destruct (Ascii.eqb c x); [discriminate Hp|]
           end.
    repeat match type of Ho with
           | context [Ascii.eqb c ?x] =>
               destruct (Ascii.eqb c x); [discriminate Ho|]
           end.
    reflexivity. }
  now rewrite Hpunct.
Qed.

Lemma unknown_character_is_one_token_witness :
  unknown_char "#" = true /\ 1 <= 1 /\
  reads (init "#x") (String "#" "x") /\
  tokenize_body 1 [] (init "#x") =
    Some ([] ++ [mkToken TokenType.Unknown "#" 1 0], advance (init "#x")).
Proof.
  split; [reflexivity|]. split; [apply le_n|]. split; [apply reads_init|].
  exact (unknown_character_is_one_token 1 [] (init "#x") "#" "x" eq_refl
           (le_n 1) (reads_init "#x")).
Defined.

Lemma blank_text_tokens (src : string) :
  all_chars isspace src = true ->
  exists l c, tokenize src = Some [mkToken TokenType.EndOfFile EmptyString l c].
Proof.
  intros Hws. unfold tokenize, tokenize_fuel.
  replace (String.length src + 2) with (S (S (String.length src))) by lia.
  cbn [tokenize_loop].
  destruct src as [|c src]; [eexists _, _; reflexivity|].
  rewrite (reads_current _ _ _ (reads_init (String c src))).
  pose proof Hws as Hc. cbn [all_chars] in Hc.
  apply andb_true_iff in Hc as [Hc _].
  destruct (Ascii.eqb c NUL) eqn:E.
  { apply Ascii.eqb_eq in E. subst c. discriminate Hc. }
  cbn [negb]. unfold tokenize_body, skipWhitespace.
  destruct (skipWhitespace_loop_run (String c src) Hws
              (S (String.length (String c src))) false
              (init (String c src)) (reads_init _))
    as (s' & -> & Hr & _); [lia|].
  cbn [tokenize_loop]. rewrite (reads_current_end s' Hr).
  change (negb (Ascii.eqb NUL NUL)) with false. cbv beta iota.
  eexists _, _; reflexivity.
Qed.

End TokenizerBlanks.

(** X21.  A text of blanks only (the empty text too) is the empty program:
    the pipeline returns a tree with no statement, and throws nothing. *)
Theorem blank_text_is_the_empty_program :
  forall (src : string) (fuel : nat),
    all_chars isspace src = true ->
    1 <= fuel ->
    outcome_of (parse_source fuel src) = Returned (mkProgram []).
Proof.
  intros src fuel Hws Hf. destruct (blank_text_tokens src Hws) as (l & c & E).
  unfold parse_source. rewrite E.
  destruct fuel as [|fuel]; [lia|]. reflexivity.
Qed.

Lemma blank_text_is_the_empty_program_witness :
  all_chars isspace (String " " (String LF (String TAB " "))) = true /\
  1 <= 1 /\
  outcome_of (parse_source 1 (String " " (String LF (String TAB " ")))) =
    Returned (mkProgram []).
Proof.
  split; [reflexivity|]. split; [apply le_n|].
  exact (blank_text_is_the_empty_program
           (String " " (String LF (String TAB " "))) 1 eq_refl (le_n 1)).
Defined.

(** Witnesses of the cursor and of the types of the parser. *)

Lemma parse_keeps_cursor_inside_witness :
  let tokens := [ mkToken TokenType.Entjera "entjera" 1 0;
                  mkToken TokenType.Semicolon ";" 1 7;
                  mkToken TokenType.EndOfFile EmptyString 1 8 ] in
  tokens <> [] /\
  Parser.parse 5 (Parser.init tokens) =
    Parser.Throw "Expected variable name at line 1" (Parser.mk tokens 1) /\
  getCurrentPosition (Parser.mk tokens 1) < List.length tokens /\
  In (getCurrentToken (Parser.mk tokens 1)) tokens.
Proof.
  intros tokens.
  assert (Hne : tokens <> []) by discriminate.
  assert (E : Parser.parse 5 (Parser.init tokens) =
              Parser.Throw "Expected variable name at line 1" (Parser.mk tokens 1))
    by (vm_compute; reflexivity).
  pose proof (parse_keeps_cursor_inside 5 tokens Hne) as H.
  rewrite E in H. destruct H as (_ & H1 & H2).
  split; [exact Hne|]. split; [exact E|]. split; [exact H1 | exact H2].
Defined.

Lemma parse_writes_plain_types_witness :
  let tokens := [ mkToken TokenType.Funkcia "funkcia" 1 0;
                  mkToken TokenType.Identifier "f" 1 8;
                  mkToken TokenType.Semicolon ";" 1 9;
                  mkToken TokenType.EndOfFile EmptyString 1 10 ] in
  let prog := mkProgram [VarDeclNode "f" (Type_of TypeKind.Funkcia) None] in
  Parser.parse 5 (Parser.init tokens) = Parser.Ok prog (Parser.mk tokens 3) /\
  forallb node_types_plain (statements prog) = true.
Proof.
  intros tokens prog.
  assert (H : Parser.parse 5 (Parser.init tokens) =
              Parser.Ok prog (Parser.mk tokens 3))
    by (vm_compute; reflexivity).
  split; [exact H | exact (parse_writes_plain_types 5 _ _ prog H)].
Defined.

(** * Every rule that returns has taken a token *)

Section ParserProgress.

Import Parser.

Lemma before_at (tokens : list Token) (p : t) :
  m_tokens p = tokens -> m_position p < List.length tokens ->
  before tokens (S (tokens_left p)) p.
Proof. intros E B. repeat split; auto. Qed.

Lemma before_moved (tokens : list Token) (p p' : t) :
  m_tokens p = tokens ->
  before tokens (S (tokens_left p) - 1) p' ->
  m_position p < m_position p'.
Proof.
  intros E (E' & B & L). unfold tokens_left in *. rewrite E, E' in *. lia.
Qed.

(** X22.  On tokens closed by an end-of-input token, a primary expression, an
    expression or a statement that is returned has moved the cursor forward:
    no rule returns without taking at least one token.  (This is what ends
    the loops over statements.) *)
Theorem returned_rule_took_a_token :
  forall (tokens : list Token) (fuel : nat) (p p' : t),
    ends_with_eof tokens ->
    m_tokens p = tokens ->
    m_position p < List.length tokens ->
    (forall e, parsePrimary fuel p = Ok e p' -> m_position p < m_position p') /\
    (forall e, parseExpression fuel p = Ok e p' -> m_position p < m_position p') /\
    (forall st, parseStatement fuel p = Ok st p' -> m_position p < m_position p').
Proof.
  intros tokens fuel p p' Hc E B.
  pose (r := S (tokens_left p)).
  pose (F := fuel + 8 * r).
  pose proof (rules_run_all tokens Hc F)
    as (R1 & _ & _ & _ & _ & _ & _ & _ & _ & R10 & _ & R12).
  pose proof (before_at tokens p E B) as Hb. fold r in Hb.
  assert (HF : fuel <= F) by (unfold F; lia).
  repeat split.
  - intros e H.
    pose proof (le_M_run _ _ p _ (parsePrimary_mono fuel F HF) H
                  ltac:(discriminate)) as H'.
    specialize (R1 r ltac:(unfold F; lia) p Hb). rewrite H' in R1.
    now apply (before_moved tokens p p' E).
  - intros e H.
    pose proof (le_M_run _ _ p _ (parseExpression_mono fuel F HF) H
                  ltac:(discriminate)) as H'.
    specialize (R10 r ltac:(unfold F; lia) p Hb). rewrite H' in R10.
    now apply (before_moved tokens p p' E).
  - intros st H.
    pose proof (le_M_run _ _ p _ (parseStatement_mono fuel F HF) H
                  ltac:(discriminate)) as H'.
    specialize (R12 r ltac:(unfold F; lia) p Hb). rewrite H' in R12.
    now apply (before_moved tokens p p' E).
Qed.

Lemma returned_rule_took_a_token_witness :
  let tokens := [ mkToken TokenType.Identifier "x" 1 0;
                  mkToken TokenType.Semicolon ";" 1 1;
                  mkToken TokenType.EndOfFile EmptyString 1 2 ] in
  ends_with_eof tokens /\
  parseStatement 10 (init tokens) = Ok (Expr (VarRefNode "x")) (mk tokens 2) /\
  m_position (init tokens) < m_position (mk tokens 2).
Proof.
  intros tokens.
  assert (Hc : ends_with_eof tokens).
  { exists [ mkToken TokenType.Identifier "x" 1 0;
             mkToken TokenType.Semicolon ";" 1 1 ],
           (mkToken TokenType.EndOfFile EmptyString 1 2).
    split; reflexivity. }
  assert (H : parseStatement 10 (init tokens) =
              Ok (Expr (VarRefNode "x")) (mk tokens 2))
    by (vm_compute; reflexivity).
  split; [exact Hc|]. split; [exact H|].
  exact (proj2 (proj2 (returned_rule_took_a_token tokens 10 (init tokens)
                         (mk tokens 2) Hc eq_refl ltac:(simpl; lia))) _ H).
Defined.

End ParserProgress.

(** * The lines of the tokens *)

Section TokenizerLines.

Import Tokenizer.

Lemma advance_line_le (s : t) : (m_line s <= m_line (advance s))%Z.
Proof. unfold advance. destruct (Ascii.eqb _ _); simpl; lia. Qed.

Lemma skipWhitespace_loop_line (fuel : nat) :
  forall b s b' s',
    skipWhitespace_loop fuel b s = Some (b', s') -> (m_line s <= m_line s')%Z.
Proof.
  induction fuel as [|fuel IH]; intros b s b' s' H; [discriminate H|].
  cbn [skipWhitespace_loop] in H. destruct (isspace (current s)).
  - apply IH in H. pose proof (advance_line_le s) as La. lia.
  - inversion H. lia.
Qed.

Lemma skipComment_loop_line (fuel : nat) :
  forall b s b' s',
    skipComment_loop fuel b s = Some (b', s') -> (m_line s <= m_line s')%Z.
Proof.
  induction fuel as [|fuel IH]; intros b s b' s' H; [discriminate H|].
  cbn [skipComment_loop] in H.
  destruct (negb (Ascii.eqb (current s) LF || Ascii.eqb (current s) NUL)).
  - apply IH in H. pose proof (advance_line_le s) as La. lia.
  - inversion H. lia.
Qed.

Lemma readString_loop_line (fuel : nat) :
  forall str s str' s',
    readString_loop fuel str s = Some (str', s') -> (m_line s <= m_line s')%Z.
Proof.
  induction fuel as [|fuel IH]; intros str s str' s' H; [discriminate H|].
  cbn [readString_loop] in H.
  destruct (negb (Ascii.eqb (current s) DQUOTE || Ascii.eqb (current s) NUL)).
  - pose proof (advance_line_le s) as La.
    pose proof (advance_line_le (advance s)) as Lb.
    destruct (Ascii.eqb (current s) BACKSLASH); apply IH in H; lia.
  - inversion H. lia.
Qed.

(** The line of a pushed token is between the lines of the cursor before and
    after the turn. *)
Lemma tokenize_body_lines (fuel : nat) (tokens tokens' : list Token) (s s' : t) :
  tokenize_body fuel tokens s = Some (tokens', s') ->
  (m_line s <= m_line s')%Z /\
  (tokens' = tokens \/
   exists tok, tokens' = tokens ++ [tok] /\
               (m_line s <= line tok <= m_line s')%Z).
Proof.
  unfold tokenize_body, skipWhitespace, skipComment.
  destruct (skipWhitespace_loop fuel false s) as [[b s1]|] eqn:E1;
    [|discriminate].
  pose proof (skipWhitespace_loop_line _ _ _ _ _ E1) as L1.
  destruct b.
  { intros H. inversion H; subst. split; [exact L1 | now left]. }
  destruct (if Ascii.eqb (current s1) "/" && Ascii.eqb (peek 1 s1) "/"
            then skipComment_loop fuel false s1 else Some (false, s1))
    as [[b s2]|] eqn:E2; [|discriminate].
  assert (L2 : (m_line s1 <= m_line s2)%Z).
  { destruct (Ascii.eqb (current s1) "/" && Ascii.eqb (peek 1 s1) "/").
    - eapply skipComment_loop_line; eauto.
    - inversion E2. lia. }
  destruct b.
  { intros H. inversion H; subst. split; [lia | now left]. }
  destruct (isdigit (current s2)).
  { unfold readNumber.
    destruct (readNumber_loop fuel EmptyString false s2) as [[n s3]|] eqn:E3;
      [|discriminate].
    apply readNumber_loop_line in E3 as [E3 _].
    intros H. inversion H; subst. split; [lia|]. right.
    eexists. split; [reflexivity|]. cbn [line]. lia. }
  destruct (Ascii.eqb (current s2) DQUOTE).
  { unfold readString.
    destruct (readString_loop fuel EmptyString (advance s2)) as [[str s3]|] eqn:E3;
      [|discriminate].
    apply readString_loop_line in E3.
    pose proof (advance_line_le s2) as La. pose proof (advance_line_le s3) as Lb.
    intros H. inversion H; subst.
    destruct (Ascii.eqb (current s3) DQUOTE);
      (split; [lia|]); right; eexists; (split; [reflexivity|]); cbn [line]; lia. }
  destruct (isalpha (current s2) || Ascii.eqb (current s2) "_").
  { unfold readIdentifier.
    destruct (readIdentifier_loop fuel EmptyString s2) as [[id s3]|] eqn:E3;
      [|discriminate].
    apply readIdentifier_loop_line in E3.
    intros H. inversion H; subst. split; [lia|]. right.
    eexists. split; [reflexivity|]. cbn [line]. lia. }
  destruct (punctuation s2) as [[ty v] s3] eqn:Ep.
  destruct (punctuation_spec s2 _ _ _ Ep) as (_ & _ & Hl & _).
  pose proof (advance_line_le s3) as La.
  intros H. inversion H; subst. split; [lia|]. right.
  eexists. split; [reflexivity|]. cbn [line]. lia.
Qed.

Lemma sorted_snoc (l : list Z) (x : Z) :
  StronglySorted Z.le l -> Forall (fun y => (y <= x)%Z) l ->
  StronglySorted Z.le (l ++ [x]).
Proof.
  induction 1 as [|y l Hs IH Hy]; intros Hall; simpl.
  - repeat constructor.
  - inversion Hall; subst. constructor; [now apply IH|].
    apply Forall_app. split; [exact Hy | repeat constructor; assumption].
Qed.

Lemma tokenize_loop_lines (fuel : nat) :
  forall tokens s tokens' s',
    StronglySorted Z.le (map line tokens) ->
    Forall (fun y => (y <= m_line s)%Z) (map line tokens) ->
    tokenize_loop fuel tokens s = Some (tokens', s') ->
    StronglySorted Z.le (map line tokens') /\
    Forall (fun y => (y <= m_line s')%Z) (map line tokens').
Proof.
  induction fuel as [|fuel IH]; intros tokens s tokens' s' Hs Hb H;
    [discriminate H|].
  cbn [tokenize_loop] in H.
  destruct (negb (Ascii.eqb (current s) NUL)).
  - destruct (tokenize_body fuel tokens s) as [[tokens1 s1]|] eqn:E;
      [|discriminate].
    apply tokenize_body_lines in E as (L & [-> | (tok & -> & Lt)]).
    + apply (IH _ _ _ _ Hs) in H; [exact H|].
      eapply Forall_impl; [|exact Hb]. simpl. intros; lia.
    + apply IH in H; [exact H | |].
      * rewrite map_app. simpl. apply sorted_snoc; [exact Hs|].
        eapply Forall_impl; [|exact Hb]. simpl. intros; lia.
      * rewrite map_app. apply Forall_app. split.
        -- eapply Forall_impl; [|exact Hb]. simpl. intros; lia.
        -- repeat constructor. lia.
  - inversion H; subst. auto.
Qed.

(** X23.  Along the tokens of a text the lines never go down: a token is on
    the line of the token before it or further down, the end-of-input token
    last of all. *)
Theorem token_lines_never_go_down :
  forall (src : string) (toks : list Token),
    tokenize src = Some toks ->
    StronglySorted Z.le (map line toks).
Proof.
  intros src toks H. unfold tokenize, tokenize_fuel in H.
  destruct (tokenize_loop _ [] (init src)) as [[tl s']|] eqn:E; [|discriminate].
  inversion H; subst.
  apply tokenize_loop_lines in E as (Hs & Hb); [| constructor | constructor].
  rewrite map_app. simpl. now apply sorted_snoc.
Qed.

Lemma token_lines_never_go_down_witness :
  let src := ("a" ++ String LF (String DQUOTE ("b" ++ String LF "c")))%string in
  let toks := [ mkToken TokenType.Identifier "a" 1 0;
                mkToken TokenType.String ("b" ++ String LF "c") 3 0;
                mkToken TokenType.EndOfFile EmptyString 3 1 ] in
  tokenize src = Some toks /\ StronglySorted Z.le (map line toks).
Proof.
  intros src toks.
  assert (H : tokenize src = Some toks) by reflexivity.
  split; [exact H | exact (token_lines_never_go_down src toks H)].
Defined.

End TokenizerLines.
